(** * VesselExpress: the NIfTI bridge ([workflow/scripts/nifti_utils.py])

    A shallow embedding of [load_nifti], [nifti_to_tiff] and
    [get_pixel_dimensions_from_nifti], with the properties of the
    sample normalizer, the spacing remapper and the path derivations.

    Floating-point samples are IEEE-754 binary floats, modelled with the
    executable specification [SpecFloat] of the standard library
    (binary64: [prec = 53], [emax = 1024]; binary32: [prec = 24],
    [emax = 128]), so every concrete array below is evaluated with the
    rounding the interpreter performs.  Paths are those of
    [pathlib.PurePosixPath]; the file system is a map from path strings to
    files, without directories, so a write never fails.

    The two command lines that use the bridge follow: the script at the
    end of [nifti_utils.py], and [vesselexpress_cli.py] with
    [print_nifti_info], [setup_workspace], [run_vesselexpress] and [main],
    as steps on a world of files, printed texts and started processes. *)

From Stdlib Require Import ZArith Zpower List String Ascii Bool Lia.
From Stdlib Require Import QArith Qround Qpower.
From Stdlib Require Import DecimalString Floats.SpecFloat.
From stdpp Require Import gmap strings.

Import ListNotations.
Local Open Scope Z_scope.

(** ** Exceptions and results *)

Inductive exn :=
  | ValueError          (* reduction of a zero-size array *)
  | FileNotFoundError   (* missing input, or a directory that does not exist *)
  | ImageFileError.     (* nibabel cannot parse the file *)

Inductive result (A : Type) :=
  | Ok (a : A)
  | Raise (e : exn).
Arguments Ok {A} a.
Arguments Raise {A} e.

Definition bind {A B} (r : result A) (k : A -> result B) : result B :=
  match r with
  | Ok a => k a
  | Raise e => Raise e
  end.

Notation "'let!' x ':=' r 'in' k" := (bind r (fun x => k))
  (at level 10, x name, r at level 100, k at level 200).

(** ** Arrays *)

Module Numpy.

Inductive float_kind := Float32 | Float64.

Inductive int_kind :=
  | Int8 | UInt8 | Int16 | UInt16 | Int32 | UInt32 | Int64 | UInt64.

Inductive dtype :=
  | DInt (k : int_kind)
  | DFloat (k : float_kind).

Definition prec (k : float_kind) : Z :=
  match k with Float32 => 24 | Float64 => 53 end.

Definition emax (k : float_kind) : Z :=
  match k with Float32 => 128 | Float64 => 1024 end.

(** The element buffer of an array, in C order. *)
Inductive buffer :=
  | IntBuf (k : int_kind) (elems : list Z)
  | FloatBuf (k : float_kind) (elems : list spec_float).

Record ndarray := { shape : list nat; buf : buffer }.

Definition dtype_of (a : ndarray) : dtype :=
  match buf a with
  | IntBuf k _ => DInt k
  | FloatBuf k _ => DFloat k
  end.

(** Arithmetic of one float kind. *)
Definition fsub k := SFsub (prec k) (emax k).
Definition fdiv k := SFdiv (prec k) (emax k).
Definition fmul k := SFmul (prec k) (emax k).

(** [m * 2^e] rounded to kind [k]; [of_Z k n] is the float of the
    integer literal [n]. *)
Definition dyadic k (m e : Z) : spec_float :=
  binary_normalize (prec k) (emax k) m e false.
Definition of_Z k (n : Z) : spec_float := dyadic k n 0.

Definition is_nan (x : spec_float) : bool :=
  match x with S754_nan => true | _ => false end.

(** Zero or a finite number: neither an infinity nor a NaN. *)
Definition is_finite (x : spec_float) : bool :=
  match x with
  | S754_zero _ | S754_finite _ _ _ => true
  | _ => false
  end.

(** A sample is a float of its kind: its mantissa and exponent are the
    canonical ones of the format. *)
Definition valid_sample (k : float_kind) (x : spec_float) : Prop :=
  valid_binary (prec k) (emax k) x = true.

(** The rational value of a finite float. *)
Definition SF2Q (x : spec_float) : option Q :=
  match x with
  | S754_zero _ => Some 0%Q
  | S754_finite s m e => Some (inject_Z (cond_Zopp s (Zpos m)) * 2 ^ e)%Q
  | _ => None
  end.

(** The scalar loops of [np.minimum.reduce] and [np.maximum.reduce]:
    [(a <= b || isnan(a)) ? a : b], so a NaN propagates. *)
Definition scalar_min (a b : spec_float) : spec_float :=
  if SFleb a b || is_nan a then a else b.
Definition scalar_max (a b : spec_float) : spec_float :=
  if SFleb b a || is_nan a then a else b.

(** An infinity or a NaN that, once met, stays in the minimum, or in the
    maximum. *)
Definition spoils_min (x : spec_float) : bool :=
  match x with S754_nan | S754_infinity true => true | _ => false end.
Definition spoils_max (x : spec_float) : bool :=
  match x with S754_nan | S754_infinity false => true | _ => false end.

(** [a.min()] and [a.max()]: a zero-size array has no identity. *)
Definition amin (xs : list spec_float) : result spec_float :=
  match xs with
  | [] => Raise ValueError
  | x :: rest => Ok (fold_left scalar_min rest x)
  end.
Definition amax (xs : list spec_float) : result spec_float :=
  match xs with
  | [] => Raise ValueError
  | x :: rest => Ok (fold_left scalar_max rest x)
  end.

(** The integer part of a float, fraction discarded (C conversion). *)
Definition trunc (x : spec_float) : option Z :=
  match x with
  | S754_zero _ => Some 0
  | S754_finite s m e =>
      Some (cond_Zopp s
              (match e with
               | Zneg p => Z.shiftr (Zpos m) (Zpos p)
               | _ => Z.shiftl (Zpos m) e
               end))
  | _ => None
  end.

(** [astype(np.uint16)] on one float sample.  In range the fraction is
    discarded.  Out of range C leaves the conversion undefined; the
    value here is the one of x86-64 builds (conversion through a
    32-bit integer whose low 16 bits are kept, NaN and values beyond
    32 bits giving 0). *)
Definition astype_uint16 (x : spec_float) : Z :=
  match trunc x with
  | Some t =>
      if (- 2 ^ 31 <=? t) && (t <? 2 ^ 31) then t mod 65536 else 0
  | None => 0
  end.

End Numpy.
Import Numpy.

(** ** The sample normalizer (lines 60-67 of [nifti_to_tiff]) *)

Definition rescale (k : float_kind) (data_min data_max v : spec_float)
  : spec_float :=
  fmul k (fdiv k (fsub k v data_min) (fsub k data_max data_min))
         (of_Z k 65535).

Definition normalize (data : ndarray) : result ndarray :=
  match buf data with
  | FloatBuf k xs =>
      let! data_min := amin xs in
      let! data_max := amax xs in
      if SFltb data_min data_max then
        Ok {| shape := shape data;
              buf := IntBuf UInt16
                       (map (fun v => astype_uint16
                                        (rescale k data_min data_max v)) xs) |}
      else
        Ok {| shape := shape data;
              buf := IntBuf UInt16 (map astype_uint16 xs) |}
  | IntBuf _ _ => Ok data
  end.

(** The normalizer as the specification words it,
    [f(min, max, v) = round((v - min) / (max - min) * 65535)]: [round] is
    the nearest integer, a tie going to the even one. *)
Definition round_half_even (x : spec_float) : option Z :=
  match x with
  | S754_zero _ => Some 0
  | S754_finite s m e =>
      Some (cond_Zopp s
              (match e with
               | Zneg p =>
                   let q := Z.shiftr (Zpos m) (Zpos p) in
                   match 2 * (Zpos m mod 2 ^ Zpos p) ?= 2 ^ Zpos p with
                   | Lt => q
                   | Gt => q + 1
                   | Eq => if Z.even q then q else q + 1
                   end
               | _ => Z.shiftl (Zpos m) e
               end))
  | _ => None
  end.

Definition spec_sample (k : float_kind) (data_min data_max v : spec_float)
  : option Z :=
  round_half_even (rescale k data_min data_max v).

(** ** Rounding, as integer arithmetic *)

(** The record after [n + 1] shifts of [N], starting with clear bits. *)
Definition shifted (N : Z) (n : nat) : shr_record :=
  {| shr_m := N / 2 ^ Z.of_nat (S n);
     shr_r := Z.odd (N / 2 ^ Z.of_nat n);
     shr_s := negb (N mod 2 ^ Z.of_nat n =? 0) |}.

(** Rounding [N / 2^k] to the nearest integer, a tie to the even one. *)
Definition rne (N k : Z) : Z :=
  let q := N / 2 ^ k in
  let r := N mod 2 ^ k in
  if (2 ^ k <? 2 * r) || ((2 * r =? 2 ^ k) && Z.odd q) then q + 1 else q.

(** The value of a finite float of the format, in units of [2^emin]. *)
Definition scaled (prec emax : Z) (x : spec_float) : Z :=
  match x with
  | S754_finite s m e => cond_Zopp s (Zpos m * 2 ^ (e - emin prec emax))
  | _ => 0
  end.

(** Rounding a positive integer to [prec] significant bits. *)
Definition rnd (prec : Z) (N : Z) : Z :=
  let kappa := Z.max (Zdigits2 N - prec) 0 in
  rne N kappa * 2 ^ kappa.

(** The value of a sample of kind [k], in units of the smallest positive
    float of the kind. *)
Definition value (k : float_kind) (x : spec_float) : Z :=
  scaled (prec k) (emax k) x.

(** A finite sample of kind [k]. *)
Definition sample (k : float_kind) (x : spec_float) : Prop :=
  valid_sample k x /\ is_finite x = true.

(** ** Python strings *)

Module PyStr.

Local Open Scope nat_scope.

(** [s[:n]] for [0 <= n]. *)
Fixpoint take (n : nat) (s : string) : string :=
  match n, s with
  | S n', String c rest => String c (take n' rest)
  | _, _ => EmptyString
  end.

(** [s.endswith(suffix)]. *)
Fixpoint drop (n : nat) (s : string) : string :=
  match n, s with
  | S n', String _ rest => drop n' rest
  | _, _ => s
  end.

Definition endswith (s suffix : string) : bool :=
  (String.length suffix <=? String.length s)
  && String.eqb (drop (String.length s - String.length suffix) s) suffix.

(** [s[:-n]] for [0 < n]. *)
Definition drop_last (n : nat) (s : string) : string :=
  take (String.length s - n) s.

(** [s.rfind(c)]: the index of the last [c], [None] for Python's -1. *)
Fixpoint rfind (c : ascii) (s : string) : option nat :=
  match s with
  | EmptyString => None
  | String a rest =>
      match rfind c rest with
      | Some i => Some (S i)
      | None => if Ascii.eqb a c then Some 0 else None
      end
  end.

(** [s.split(c)]. *)
Fixpoint split (c : ascii) (s : string) : list string :=
  match s with
  | EmptyString => [EmptyString]
  | String a rest =>
      if Ascii.eqb a c then EmptyString :: split c rest
      else match split c rest with
           | w :: ws => String a w :: ws
           | [] => [String a EmptyString]
           end
  end.

(** [s.lstrip(c)]. *)
Fixpoint lstrip (c : ascii) (s : string) : string :=
  match s with
  | String a rest => if Ascii.eqb a c then lstrip c rest else s
  | EmptyString => s
  end.

(** [s.replace(old, new)] for a non-empty [old]: the occurrences of
    [old] are found from the left and do not overlap.  [skip] counts
    the characters of a match still to be passed over. *)
Fixpoint replace_from (old new : string) (skip : nat) (s : string)
  : string :=
  match s with
  | EmptyString => EmptyString
  | String a rest =>
      match skip with
      | S k => replace_from old new k rest
      | O =>
          if String.prefix old s
          then new +:+ replace_from old new (String.length old - 1) rest
          else String a (replace_from old new 0 rest)
      end
  end.

Definition replace (old new s : string) : string :=
  replace_from old new 0 s.

End PyStr.

(** ** [pathlib.PurePosixPath] *)

Module Pathlib.

(** A parsed path: the root (the empty string, one slash or two) and the
    components after it. *)
Record PurePath := { root : string; parts : list string }.

Definition splitroot (part : string) : string * string :=
  match part with
  | String c _ =>
      if Ascii.eqb c "/" then
        let stripped := PyStr.lstrip "/" part in
        if (String.length part - String.length stripped =? 2)%nat
        then ("//", stripped)
        else ("/", stripped)
      else (EmptyString, part)
  | EmptyString => (EmptyString, part)
  end.

Definition keep (x : string) : bool :=
  negb (String.eqb x EmptyString) && negb (String.eqb x ".").

Definition Path (s : string) : PurePath :=
  let '(r, rel) := splitroot s in
  {| root := r; parts := List.filter keep (PyStr.split "/" rel) |}.

Definition name (p : PurePath) : string :=
  List.last (parts p) EmptyString.

Definition stem (p : PurePath) : string :=
  let name := name p in
  match PyStr.rfind "." name with
  | Some i =>
      if ((0 <? i) && (i <? String.length name - 1))%nat
      then PyStr.take i name
      else name
  | None => name
  end.

Definition parent (p : PurePath) : PurePath :=
  {| root := root p; parts := removelast (parts p) |}.

(** [p / key]. *)
Definition truediv (p : PurePath) (key : string) : PurePath :=
  let q := Path key in
  if String.eqb (root q) EmptyString
  then {| root := root p; parts := parts p ++ parts q |}
  else q.

Definition str (p : PurePath) : string :=
  match root p, parts p with
  | EmptyString, [] => "."
  | r, ps => r +:+ String.concat "/" ps
  end.

End Pathlib.

(** ** NIfTI images and the file system *)

Module Nibabel.

Record header := { zooms : list spec_float; descrip : string }.

(** What nibabel exposes of a loaded image.  [voxels] are the samples
    as [get_fdata] materializes them, whatever [on_disk] type the file
    stores. *)
Record image := {
  on_disk : dtype;
  img_shape : list nat;
  voxels : list spec_float;
  affine : list (list spec_float);
  hdr : header
}.

(** [img.get_fdata()]: always a float64 array. *)
Definition get_fdata (img : image) : ndarray :=
  {| shape := img_shape img; buf := FloatBuf Float64 (voxels img) |}.

Definition get_zooms (h : header) : list spec_float := zooms h.

End Nibabel.
Import Nibabel.

(** The text written beside the raster. *)
Record metadata := {
  original_file : string;
  meta_shape : list nat;
  meta_dtype : dtype;
  meta_affine : list (list spec_float);
  meta_zooms : list spec_float;
  meta_header : header
}.

Inductive file :=
  | NiftiFile (img : image)
  | TiffFile (data : ndarray)
  | TextFile (m : metadata).

Abbreviation filesystem := (gmap string file).

(** [nib.load(filepath)]. *)
Definition nib_load (fs : filesystem) (filepath : string) : result image :=
  match fs !! filepath with
  | Some (NiftiFile img) => Ok img
  | Some _ => Raise ImageFileError
  | None => Raise FileNotFoundError
  end.

Definition load_nifti (fs : filesystem) (filepath : string)
  : result (ndarray * list (list spec_float) * header) :=
  let! img := nib_load fs filepath in
  Ok (get_fdata img, affine img, hdr img).

(** ** The converter *)

(** The output path when none is given (lines 70-76). *)
Definition default_output_path (input_path : string) : string :=
  let input_path_obj := Pathlib.Path input_path in
  let stem := Pathlib.stem input_path_obj in
  let stem := if PyStr.endswith stem ".nii" then PyStr.drop_last 4 stem
              else stem in
  Pathlib.str (Pathlib.truediv (Pathlib.parent input_path_obj)
                 (stem +:+ ".tiff")).

(** The path of the metadata file (line 84). *)
Definition metadata_path (output_path : string) : string :=
  PyStr.replace ".tiff" "_nifti_metadata.txt" output_path.

Definition nifti_to_tiff (fs : filesystem) (input_path : string)
  (output_path : option string) : result (filesystem * string) :=
  let! loaded := load_nifti fs input_path in
  let '(data, affine, header) := loaded in
  let! data := normalize data in
  let output_path :=
    match output_path with
    | None => default_output_path input_path
    | Some p => p
    end in
  let fs := <[output_path := TiffFile data]> fs in
  let fs :=
    <[metadata_path output_path :=
        TextFile {| original_file := input_path;
                    meta_shape := shape data;
                    meta_dtype := dtype_of data;
                    meta_affine := affine;
                    meta_zooms := get_zooms header;
                    meta_header := header |}]> fs in
  Ok (fs, output_path).

(** ** The spacing remapper *)

Section Remapper.

(** Python's [str] of a float, which the f-string applies to each
    zoom. *)
Variable float_str : spec_float -> string.

Definition get_pixel_dimensions_from_nifti (fs : filesystem)
  (filepath : string) : result string :=
  let! img := nib_load fs filepath in
  let zooms := get_zooms (hdr img) in
  if (3 <=? length zooms)%nat then
    Ok (float_str (nth 2 zooms S754_nan) +:+ "," +:+
        float_str (nth 1 zooms S754_nan) +:+ "," +:+
        float_str (nth 0 zooms S754_nan))
  else
    Ok "1.0,1.0,1.0"%string.

End Remapper.

(** ** A float printer for the examples *)

Module PyFloat.

Definition digits (n : Z) : string := NilZero.string_of_int (Z.to_int n).

Fixpoint zeros (n : nat) : string :=
  match n with
  | O => EmptyString
  | S n' => String "0" (zeros n')
  end.

Fixpoint rstrip_zeros (s : string) : string :=
  match s with
  | EmptyString => EmptyString
  | String c rest =>
      match rstrip_zeros rest with
      | EmptyString =>
          if Ascii.eqb c "0" then EmptyString else String c EmptyString
      | rest' => String c rest'
      end
  end.

(** The [n] decimals of [num / 2^n], trailing zeros removed. *)
Definition decimals (num : Z) (n : nat) : string :=
  let d := digits (num * 5 ^ Z.of_nat n) in
  match rstrip_zeros (zeros (n - String.length d) +:+ d) with
  | EmptyString => "0"
  | f => f
  end.

(** The exact decimal expansion of a float.  Python prints the shortest
    decimal that reads back as the same float; the two agree whenever
    the exact expansion is that short, as for 0.5, 1.0 and 2.0. *)
Definition exact_str (x : spec_float) : string :=
  match x with
  | S754_nan => "nan"
  | S754_infinity s => if s then "-inf" else "inf"
  | S754_zero s => if s then "-0.0" else "0.0"
  | S754_finite s m e =>
      (if s then "-" else "") +:+
      match e with
      | Zneg p =>
          digits (Z.shiftr (Zpos m) (Zpos p)) +:+ "." +:+
          decimals (Zpos m mod 2 ^ Zpos p) (Pos.to_nat p)
      | _ => digits (Z.shiftl (Zpos m) e) +:+ ".0"
      end
  end.

End PyFloat.

(** ** Sample values *)

Definition f64 (m e : Z) : spec_float := dyadic Float64 m e.

Definition arr64 (xs : list spec_float) : ndarray :=
  {| shape := [length xs]; buf := FloatBuf Float64 xs |}.

Definition f32 (m e : Z) : spec_float := dyadic Float32 m e.

Definition nii (zs : list spec_float) (xs : list spec_float) : file :=
  NiftiFile {| on_disk := DInt Int16; img_shape := [length xs];
               voxels := xs; affine := [];
               hdr := {| zooms := zs; descrip := "" |} |}.

(** The spacing (0.5, 0.5, 2.0) of the running example, as float32. *)
Definition zooms_xyz : list spec_float := [f32 1 (-1); f32 1 (-1); f32 2 0].

(** A 4-D image: the fourth zoom is the repetition time. *)
Definition zooms_xyzt : list spec_float := zooms_xyz ++ [f32 1 0].

Definition disk (path : string) (f : file) : filesystem := {[ path := f ]}.

(** ** Paths that name one file *)

(** A path in normal form under the root [r] (the empty string for a path
    relative to the working directory, one slash for an absolute one): it
    is written as [pathlib] writes it, without an empty component or a
    ".", and it holds no "..".  The file map has no links, so two normal
    paths under one root name one file only when they are the same
    string.  Any other path string can be a second name of a file that
    the map holds under its normal one: "./scan.nii" beside "scan.nii". *)
Definition normal_path (r p : string) : bool :=
  let q := Pathlib.Path p in
  String.eqb (Pathlib.root q) r
  && String.eqb (Pathlib.str q) p
  && forallb (fun x => negb (String.eqb x "..")) (Pathlib.parts q).

(** A volume of [n] by 1 by 1 voxels. *)
Definition volume (zs : list spec_float) (xs : list spec_float) : file :=
  NiftiFile {| on_disk := DInt Int16; img_shape := [length xs; 1%nat; 1%nat];
               voxels := xs; affine := [];
               hdr := {| zooms := zs; descrip := "" |} |}.

(** ** The command line of [nifti_utils.py] (lines 129-148) *)

(** What a run leaves behind: the files, the texts printed (the oldest
    first, each without the newline [print] ends it with) and the command
    lines of the processes started. *)
Record world := {
  files : filesystem;
  stdout : list string;
  launched : list (list string)
}.

Definition print (text : string) (w : world) : world :=
  {| files := files w;
     stdout := stdout w ++ [text];
     launched := launched w |}.

Definition set_files (fs : filesystem) (w : world) : world :=
  {| files := fs; stdout := stdout w; launched := launched w |}.

(** The script from line 143 on, when [parse_args] has returned: [input]
    is [args.input] and [output] is [args.output], [None] when [-o] is
    absent.  An exception that is raised ends the run
    where it is; what was written and printed before stays. *)
Definition nifti_utils_main (float_str : spec_float -> string)
  (input : string) (output : option string) (w : world)
  : world * result unit :=
  match nifti_to_tiff (files w) input output with
  | Raise e => (w, Raise e)
  | Ok (fs, output) =>
      let w := print ("Converted " +:+ input +:+ " to " +:+ output)
                 (set_files fs w) in
      match get_pixel_dimensions_from_nifti float_str (files w) input with
      | Raise e => (w, Raise e)
      | Ok dims =>
          let w := print ("Pixel dimensions (z,y,x): " +:+ dims) w in
          let w :=
            print ("Note: Update config.json graphAnalysis.pixel_dimensions to: "
                   +:+ dims) w in
          (w, Ok tt)
      end
  end.

(** ** [vesselexpress_cli.py] *)

Module PyRepr.

Definition nl : string := String "010" EmptyString.
Definition dquote : string := String "034" EmptyString.

(** [str] of an [int]. *)
Definition int_str (n : Z) : string := PyFloat.digits n.

(** [str] of a tuple of [int]s: one element keeps a trailing comma. *)
Definition tuple_str (t : list nat) : string :=
  match t with
  | [] => "()"
  | [n] => "(" +:+ int_str (Z.of_nat n) +:+ ",)"
  | _ => "(" +:+ String.concat ", " (map (fun n => int_str (Z.of_nat n)) t)
         +:+ ")"
  end.

(** [str] of a numpy dtype. *)
Definition dtype_str (d : dtype) : string :=
  match d with
  | DFloat Float32 => "float32"
  | DFloat Float64 => "float64"
  | DInt Int8 => "int8"
  | DInt UInt8 => "uint8"
  | DInt Int16 => "int16"
  | DInt UInt16 => "uint16"
  | DInt Int32 => "int32"
  | DInt UInt32 => "uint32"
  | DInt Int64 => "int64"
  | DInt UInt64 => "uint64"
  end.

End PyRepr.

(** What the interpreter and the operating system decide: the texts of
    floats and of library exceptions, the size of a file, where the script
    is, how a path resolves, whether [nifti_utils] and the libraries it
    loads can be imported, and what a process does: either the files it
    leaves, what it prints and its exit status, or the text of the
    exception when it cannot be started. *)
Record platform := {
  str_float : spec_float -> string;
  str_error : exn -> string -> string;
  getsize : file -> Z;
  script_file : string;
  resolve : Pathlib.PurePath -> Pathlib.PurePath;
  nifti_utils_imports : bool;
  spawn : list string -> filesystem
          -> (filesystem * list string * Z) + string
}.

(** A step of the tool changes the world and returns a value or raises an
    exception.  The handlers of the file catch [Exception] and use its text
    [str(e)] only, so an exception is kept as that text. *)
Inductive outcome (A : Type) :=
  | Returns (a : A)
  | Raises (text : string).
Arguments Returns {A} a.
Arguments Raises {A} text.

Definition step (A : Type) : Type := world -> world * outcome A.

Definition ret {A} (a : A) : step A := fun w => (w, Returns a).

Definition raise {A} (text : string) : step A := fun w => (w, Raises text).

Definition and_then {A B} (c : step A) (k : A -> step B) : step B :=
  fun w =>
    match c w with
    | (w', Returns a) => k a w'
    | (w', Raises text) => (w', Raises text)
    end.

Notation "'do!' x ':=' c 'in' k" := (and_then c (fun x => k))
  (at level 10, x name, c at level 100, k at level 200).

Definition say (text : string) : step unit :=
  fun w => (print text w, Returns tt).

(** [p.exists()]. *)
Definition path_exists (p : Pathlib.PurePath) : step bool :=
  fun w =>
    (w, Returns match files w !! Pathlib.str p with
                | Some _ => true
                | None => false
                end).

(** [shutil.copy2(src, dst)] where it copies.  The errors of the file
    system are outside the file map ([SameFileError] for a copy of a file
    onto itself, a target that cannot be written), so the step succeeds
    wherever the library's can. *)
Definition copy2 (src dst : Pathlib.PurePath) : step unit :=
  fun w =>
    match files w !! Pathlib.str src with
    | Some f => (set_files (<[Pathlib.str dst := f]> (files w)) w, Returns tt)
    | None =>
        (w, Raises ("[Errno 2] No such file or directory: '"
                    +:+ Pathlib.str src +:+ "'"))
    end.

(** [p == q] on paths. *)
Definition path_eqb (p q : Pathlib.PurePath) : bool :=
  String.eqb (Pathlib.root p) (Pathlib.root q)
  && bool_decide (Pathlib.parts p = Pathlib.parts q).

(** The directory [VesselExpress] beside the script. *)
Definition vesselexpress_dir (os : platform) : Pathlib.PurePath :=
  let script_dir := Pathlib.parent (resolve os (Pathlib.Path (script_file os))) in
  Pathlib.truediv script_dir "VesselExpress".

(** [setup_workspace(input_file, config_file, output_dir)].  An option
    that is [None] or the empty string is false.  The file map has no
    directories: [workspace_dir.mkdir] (line 46), which makes the tree of
    the workspace before the input is tested, changes no file and is left
    out with its errors.  A run of the model therefore succeeds wherever a
    run of the code can, and the theorems on it start from the outcome of
    a run. *)
Definition setup_workspace (os : platform) (input_file : string)
  (config_file output_dir : option string) : step Pathlib.PurePath :=
  let vesselexpress_dir := vesselexpress_dir os in
  let workspace_dir :=
    match output_dir with
    | Some (String _ _ as output_dir) => resolve os (Pathlib.Path output_dir)
    | _ => Pathlib.truediv vesselexpress_dir "data"
    end in
  let input_path := resolve os (Pathlib.Path input_file) in
  do! found := path_exists input_path in
  if negb found then raise ("Input file not found: " +:+ input_file) else
  let target_file := Pathlib.truediv workspace_dir (Pathlib.name input_path) in
  do! _ := (if path_eqb target_file input_path then ret tt
            else
              do! _ := copy2 input_path target_file in
              say ("Copied input file to: " +:+ Pathlib.str target_file)) in
  do! _ := (match config_file with
            | Some (String _ _ as config_file) =>
                let config_path := resolve os (Pathlib.Path config_file) in
                do! found := path_exists config_path in
                if negb found
                then raise ("Config file not found: " +:+ config_file)
                else
                  let target_config :=
                    Pathlib.truediv workspace_dir "config.json" in
                  do! _ := copy2 config_path target_config in
                  say ("Using config file: " +:+ Pathlib.str target_config)
            | _ =>
                let target_config :=
                  Pathlib.truediv workspace_dir "config.json" in
                do! found := path_exists target_config in
                if found then ret tt
                else
                  let default_config :=
                    Pathlib.truediv (Pathlib.truediv vesselexpress_dir "data")
                      "config.json" in
                  do! found := path_exists default_config in
                  if found then
                    do! _ := copy2 default_config target_config in
                    say ("Using default config file: "
                         +:+ Pathlib.str target_config)
                  else
                    say "Warning: No config file found. Using Snakemake defaults."
            end) in
  ret workspace_dir.

(** [subprocess.run(cmd, check=True, stderr=None)]: the exit status of the
    process, which [check=True] raises as [CalledProcessError] when it is
    not 0. *)
Definition subprocess_run (os : platform) (cmd : list string) : step Z :=
  fun w =>
    match spawn os cmd (files w) with
    | inl (fs, printed, returncode) =>
        ({| files := fs;
            stdout := stdout w ++ printed;
            launched := launched w ++ [cmd] |}, Returns returncode)
    | inr text => (w, Raises text)
    end.

(** [run_vesselexpress(workspace_dir, cores, dry_run, verbose)]; the
    [except] clause catches the [CalledProcessError] of a status that is
    not 0 and nothing else. *)
Definition run_vesselexpress (os : platform)
  (workspace_dir : Pathlib.PurePath) (cores : string)
  (dry_run verbose : bool) : step Z :=
  let vesselexpress_dir := vesselexpress_dir os in
  let cmd :=
    ["snakemake"; "--use-conda"; "--cores"; cores;
     "--conda-frontend"; "conda";
     "--snakefile";
     Pathlib.str (Pathlib.truediv
                    (Pathlib.truediv vesselexpress_dir "workflow")
                    "Snakefile");
     "--directory"; Pathlib.str vesselexpress_dir]%string in
  let cmd := if dry_run then cmd ++ ["--dry-run"%string] else cmd in
  let cmd := if verbose
             then cmd ++ ["--verbose"; "--printshellcmds"]%string
             else cmd in
  do! _ := say (PyRepr.nl +:+ "Running VesselExpress...") in
  do! _ := say ("Command: " +:+ String.concat " " cmd +:+ PyRepr.nl) in
  do! returncode := subprocess_run os cmd in
  if returncode =? 0 then
    do! _ := say (PyRepr.nl +:+ "✓ VesselExpress completed successfully!") in
    ret 0
  else
    do! _ := say (PyRepr.nl +:+ "✗ VesselExpress failed with exit code "
                  +:+ PyRepr.int_str returncode) in
    do! _ := say "Check the error messages above for details." in
    ret returncode.

(** [print_nifti_info(input_file)]: every exception is caught. *)
Definition print_nifti_info (os : platform) (input_file : string)
  (w : world) : world :=
  if negb (nifti_utils_imports os) then
    print "Error: nibabel not installed. Install with: pip install nibabel" w
  else
    match load_nifti (files w) input_file with
    | Raise e =>
        print ("Error reading NIfTI file: " +:+ str_error os e input_file) w
    | Ok (data, affine, header) =>
        match get_pixel_dimensions_from_nifti (str_float os) (files w)
                input_file with
        | Raise e =>
            print ("Error reading NIfTI file: "
                   +:+ str_error os e input_file) w
        | Ok dims =>
            let w := print (PyRepr.nl +:+ "NIfTI File Information:") w in
            let w := print ("  File: " +:+ input_file) w in
            let w := print ("  Shape: " +:+ PyRepr.tuple_str (shape data)) w in
            let w := print ("  Data type: "
                            +:+ PyRepr.dtype_str (dtype_of data)) w in
            let w := print ("  Pixel dimensions (z,y,x): " +:+ dims) w in
            let w := print (PyRepr.nl
                            +:+ "  Note: Add this to your config.json:") w in
            print ("    " +:+ PyRepr.dquote +:+ "graphAnalysis"
                   +:+ PyRepr.dquote +:+ ": {" +:+ PyRepr.dquote
                   +:+ "pixel_dimensions" +:+ PyRepr.dquote +:+ ": "
                   +:+ PyRepr.dquote +:+ dims +:+ PyRepr.dquote
                   +:+ ", ...}") w
        end
    end.

(** The parsed command line. *)
Record arguments := {
  input : string;
  config : option string;
  output : option string;
  cores : string;
  dry_run : bool;
  verbose : bool;
  info : bool
}.

(** [main()] from line 205 on, when [parse_args] has returned [args]: from
    the parsed arguments to the exit status.  (The parser itself ends the
    run for [-h] and for a command line it refuses.)  The file that
    [os.path.exists] finds is the one [os.path.getsize] measures. *)
Definition main (os : platform) (args : arguments) (w : world) : world * Z :=
  match files w !! input args with
  | None => (print ("Error: Input file not found: " +:+ input args) w, 1)
  | Some f =>
      if info args then
        if PyStr.endswith (input args) ".nii"
           || PyStr.endswith (input args) ".nii.gz"
        then (print_nifti_info os (input args) w, 0)
        else
          let w := print ("File: " +:+ input args) w in
          let w := print ("Size: " +:+ PyRepr.int_str (getsize os f)
                          +:+ " bytes") w in
          (w, 0)
      else
        match (do! workspace_dir :=
                 setup_workspace os (input args) (config args) (output args) in
               run_vesselexpress os workspace_dir (cores args)
                 (dry_run args) (verbose args)) w with
        | (w, Returns status) => (w, status)
        | (w, Raises text) => (print ("Error: " +:+ text) w, 1)
        end
  end.

(** A platform for the examples: paths are absolute and resolve to
    themselves, and the workflow engine exits with status 0 without
    touching the files. *)
Definition posix : platform :=
  {| str_float := PyFloat.exact_str;
     str_error := fun e path =>
       match e with
       | FileNotFoundError => "No such file or no access: '" +:+ path +:+ "'"
       | ImageFileError => "Cannot work out file type of " +:+ path
       | ValueError => "zero-size array"
       end;
     getsize := fun _ => 352;
     script_file := "/opt/ve/vesselexpress_cli.py";
     resolve := fun p => p;
     nifti_utils_imports := true;
     spawn := fun _ fs => inl (fs, [], 0) |}.

(** An empty world with one file. *)
Definition world_of (fs : filesystem) : world :=
  {| files := fs; stdout := []; launched := [] |}.

(** Worlds for the examples.  The file type has no configuration files:
    small rasters that differ stand for them. *)
Definition scan_nii : file := nii zooms_xyz [f64 0 0; f64 4 0].

Definition stand_in (n : Z) : file :=
  TiffFile {| shape := [1%nat]; buf := IntBuf UInt8 [n] |}.

Definition data_only : world :=
  world_of (disk "/data/scan.nii" scan_nii).

Definition with_two_configs : world :=
  world_of (<["/work/config.json"%string := stand_in 1]>
              (<["/data/my.json"%string := stand_in 2]>
                 (disk "/data/scan.nii" scan_nii))).

Definition with_default_config : world :=
  world_of (<["/opt/ve/VesselExpress/data/config.json"%string := stand_in 1]>
              (disk "/data/scan.nii" scan_nii)).

(** ** Rounding a quotient *)

(** The integer nearest to [N / D], a tie going to the even one. *)
Definition rneq (N D : Z) : Z :=
  let q := N / D in
  let r := N mod D in
  if (D <? 2 * r) || ((2 * r =? D) && Z.odd q) then q + 1 else q.

(** A zero, or a positive float whose exponent is an exponent of the
    format. *)
Definition nonneg_float (p em : Z) (x : spec_float) : Prop :=
  (exists s, x = S754_zero s) \/
  exists (m : positive) (e : Z), x = S754_finite false m e /\ emin p em <= e.

(** * The spacing remapper *)

Lemma nib_load_nifti (fs : filesystem) path img :
  fs !! path = Some (NiftiFile img) -> nib_load fs path = Ok img.
Proof. intros H. unfold nib_load. now rewrite H. Qed.

Lemma three_or_more {A} (l : list A) :
  (3 <= length l)%nat -> exists x y z rest, l = x :: y :: z :: rest.
Proof.
  destruct l as [|x [|y [|z rest]]]; simpl; intros H; try lia.
  now exists x, y, z, rest.
Qed.

(** C1: a spacing vector with three or more axes is returned as
    "z,y,x": the first three zooms reversed, each printed by [str] and
    joined with commas; with 0.5 printed as "0.5" and 2.0 as "2.0",
    spacing (0.5, 0.5, 2.0) gives "2.0,0.5,0.5". *)
Theorem remapper_reverses_first_three
  (float_str : spec_float -> string) (fs : filesystem) (path : string)
  (img : image)
  (Hfile : fs !! path = Some (NiftiFile img))
  (Haxes : (3 <= length (get_zooms (hdr img)))%nat) :
  (exists x y z rest,
      get_zooms (hdr img) = x :: y :: z :: rest /\
      get_pixel_dimensions_from_nifti float_str fs path
      = Ok (float_str z +:+ "," +:+ float_str y +:+ "," +:+ float_str x))
  /\ (get_zooms (hdr img) = zooms_xyz ->
      float_str (f32 1 (-1)) = "0.5"%string ->
      float_str (f32 2 0) = "2.0"%string ->
      get_pixel_dimensions_from_nifti float_str fs path
      = Ok "2.0,0.5,0.5"%string).
Proof.
  assert (Hget : get_pixel_dimensions_from_nifti float_str fs path
                 = Ok (float_str (nth 2 (get_zooms (hdr img)) S754_nan)
                       +:+ "," +:+
                       float_str (nth 1 (get_zooms (hdr img)) S754_nan)
                       +:+ "," +:+
                       float_str (nth 0 (get_zooms (hdr img)) S754_nan))).
  { unfold get_pixel_dimensions_from_nifti.
    rewrite (nib_load_nifti _ _ _ Hfile). cbn [bind].
    destruct (Nat.leb_spec 3 (length (get_zooms (hdr img))));
      [reflexivity|lia]. }
  split.
  - destruct (three_or_more _ Haxes) as (x & y & z & rest & Hz).
    exists x, y, z, rest. split; [exact Hz|].
    rewrite Hget, Hz. reflexivity.
  - intros Hz H05 H20. rewrite Hget, Hz. cbn [nth zooms_xyz].
    rewrite H05, H20. reflexivity.
Qed.

Lemma remapper_reverses_first_three_witness :
  get_pixel_dimensions_from_nifti PyFloat.exact_str
    (disk "scan.nii" (nii zooms_xyz [])) "scan.nii"
  = Ok "2.0,0.5,0.5"%string.
Proof.
  apply (remapper_reverses_first_three PyFloat.exact_str
           (disk "scan.nii" (nii zooms_xyz [])) "scan.nii"
           {| on_disk := DInt Int16; img_shape := [0%nat]; voxels := [];
              affine := []; hdr := {| zooms := zooms_xyz; descrip := "" |} |}).
  - reflexivity.
  - simpl. lia.
  - reflexivity.
  - reflexivity.
  - reflexivity.
Defined.

(** C6: with fewer than three zooms the result is the literal
    "1.0,1.0,1.0". *)
Theorem remapper_default_below_three
  (float_str : spec_float -> string) (fs : filesystem) (path : string)
  (img : image)
  (Hfile : fs !! path = Some (NiftiFile img))
  (Haxes : (length (get_zooms (hdr img)) < 3)%nat) :
  get_pixel_dimensions_from_nifti float_str fs path
  = Ok "1.0,1.0,1.0"%string.
Proof.
  unfold get_pixel_dimensions_from_nifti.
  rewrite (nib_load_nifti _ _ _ Hfile). cbn [bind].
  destruct (Nat.leb_spec 3 (length (get_zooms (hdr img)))); [lia|reflexivity].
Qed.

Lemma remapper_default_below_three_witness :
  get_pixel_dimensions_from_nifti PyFloat.exact_str
    (disk "plane.nii" (nii [f32 1 (-1); f32 1 (-1)] [])) "plane.nii"
  = Ok "1.0,1.0,1.0"%string.
Proof.
  apply (remapper_default_below_three PyFloat.exact_str
           (disk "plane.nii" (nii [f32 1 (-1); f32 1 (-1)] [])) "plane.nii"
           {| on_disk := DInt Int16; img_shape := [0%nat]; voxels := [];
              affine := [];
              hdr := {| zooms := [f32 1 (-1); f32 1 (-1)];
                        descrip := "" |} |}).
  - reflexivity.
  - simpl. lia.
Defined.

(** C5, as stated, fails: four zooms are not three, and the result is the
    reversed first three, not the default. *)
Lemma remapper_four_axes_not_default :
  length zooms_xyzt <> 3%nat /\
  get_pixel_dimensions_from_nifti PyFloat.exact_str
    (disk "series.nii" (nii zooms_xyzt [])) "series.nii"
  = Ok "2.0,0.5,0.5"%string /\
  get_pixel_dimensions_from_nifti PyFloat.exact_str
    (disk "series.nii" (nii zooms_xyzt [])) "series.nii"
  <> Ok "1.0,1.0,1.0"%string.
Proof. repeat split; [simpl; lia | discriminate]. Qed.

(** C5, amended: a spacing vector whose length is not 3 gives the default
    "1.0,1.0,1.0" when it is shorter than 3, and the first three zooms
    reversed when it is longer. *)
Theorem remapper_length_not_three
  (float_str : spec_float -> string) (fs : filesystem) (path : string)
  (img : image)
  (Hfile : fs !! path = Some (NiftiFile img))
  (Haxes : length (get_zooms (hdr img)) <> 3%nat) :
  ((length (get_zooms (hdr img)) < 3)%nat /\
   get_pixel_dimensions_from_nifti float_str fs path
   = Ok "1.0,1.0,1.0"%string)
  \/
  (exists x y z t rest,
      get_zooms (hdr img) = x :: y :: z :: t :: rest /\
      get_pixel_dimensions_from_nifti float_str fs path
      = Ok (float_str z +:+ "," +:+ float_str y +:+ "," +:+ float_str x)).
Proof.
  unfold get_pixel_dimensions_from_nifti.
  rewrite (nib_load_nifti _ _ _ Hfile). simpl.
  destruct (get_zooms (hdr img)) as [|x [|y [|z [|t rest]]]] eqn:Hz;
    simpl in *; try (left; split; [lia|reflexivity]); [lia|].
  right. now exists x, y, z, t, rest.
Qed.

Lemma remapper_length_not_three_witness :
  exists x y z t rest,
    zooms_xyzt = x :: y :: z :: t :: rest /\
    get_pixel_dimensions_from_nifti PyFloat.exact_str
      (disk "series.nii" (nii zooms_xyzt [])) "series.nii"
    = Ok (PyFloat.exact_str z +:+ "," +:+ PyFloat.exact_str y +:+ ","
          +:+ PyFloat.exact_str x).
Proof.
  destruct (remapper_length_not_three PyFloat.exact_str
              (disk "series.nii" (nii zooms_xyzt [])) "series.nii"
              {| on_disk := DInt Int16; img_shape := [0%nat]; voxels := [];
                 affine := [];
                 hdr := {| zooms := zooms_xyzt; descrip := "" |} |}
              eq_refl ltac:(simpl; lia)) as [[Hlt _]|H].
  - simpl in Hlt. lia.
  - exact H.
Defined.

(** * Strings and paths *)

Import PyStr.

Section Strings.
Local Open Scope nat_scope.

Lemma take_app (b t : string) (n : nat) :
  take (String.length b + n) (b +:+ t) = b +:+ take n t.
Proof. induction b as [|c b IH]; simpl; [reflexivity|]. now rewrite IH. Qed.

Lemma drop_app (b t : string) : drop (String.length b) (b +:+ t) = t.
Proof. induction b as [|c b IH]; simpl; [now destruct t|]. exact IH. Qed.

Lemma take_length_app (b t : string) : take (String.length b) (b +:+ t) = b.
Proof. induction b as [|c b IH]; simpl; [now destruct t|]. now rewrite IH. Qed.

Lemma rfind_app_Some (c : ascii) (b t : string) (i : nat) :
  rfind c t = Some i -> rfind c (b +:+ t) = Some (String.length b + i).
Proof.
  intros H. induction b as [|a b IH]; simpl; [assumption|]. now rewrite IH.
Qed.

Lemma rfind_None_app_l (c : ascii) (b t : string) :
  rfind c (b +:+ t) = None -> rfind c b = None.
Proof.
  induction b as [|a b IH]; simpl; [reflexivity|].
  destruct (rfind c (b +:+ t)); [discriminate|].
  rewrite IH by reflexivity. trivial.
Qed.

Lemma rfind_None_app (c : ascii) (b t : string) :
  rfind c b = None -> rfind c t = None -> rfind c (b +:+ t) = None.
Proof.
  intros Hb Ht. induction b as [|a b IH]; simpl in *; [assumption|].
  destruct (rfind c b); [discriminate|]. now rewrite IH.
Qed.

Lemma split_no_sep (c : ascii) (s : string) :
  forall w, In w (split c s) -> rfind c w = None.
Proof.
  induction s as [|a s IH]; simpl; intros w Hw.
  - destruct Hw as [<-|[]]. reflexivity.
  - destruct (Ascii.eqb a c) eqn:Hac.
    + destruct Hw as [<-|Hw]; [reflexivity|now apply IH].
    + destruct (split c s) as [|w0 ws]; simpl in Hw.
      * destruct Hw as [<-|[]]. simpl. now rewrite Hac.
      * destruct Hw as [<-|Hw]; [|apply IH; now right].
        simpl. rewrite (IH w0) by now left. now rewrite Hac.
Qed.

Lemma split_of_no_sep (c : ascii) (s : string) :
  rfind c s = None -> split c s = [s].
Proof.
  induction s as [|a s IH]; simpl; [reflexivity|].
  destruct (rfind c s); [discriminate|].
  destruct (Ascii.eqb a c); [discriminate|].
  intros _. now rewrite IH.
Qed.

Lemma length_app (a b : string) :
  String.length (a +:+ b) = String.length a + String.length b.
Proof. induction a as [|c a IH]; simpl; [reflexivity|now rewrite IH]. Qed.

Lemma endswith_app (b suffix : string) : endswith (b +:+ suffix) suffix = true.
Proof.
  unfold endswith. rewrite length_app.
  replace (String.length b + String.length suffix - String.length suffix)
    with (String.length b) by lia.
  rewrite drop_app, String.eqb_refl.
  apply andb_true_intro. split; [apply Nat.leb_le; lia|reflexivity].
Qed.

Lemma append_nil_r (s : string) : s +:+ "" = s.
Proof.
  induction s as [|c s IH]; [reflexivity|].
  change (String c (s +:+ "") = String c s). now rewrite IH.
Qed.

Lemma drop_last_app (b suffix : string) :
  drop_last (String.length suffix) (b +:+ suffix) = b.
Proof.
  unfold drop_last. rewrite length_app.
  replace (String.length b + String.length suffix - String.length suffix)
    with (String.length b + 0) by lia.
  rewrite take_app.
  replace (take 0 suffix) with EmptyString by (now destruct suffix).
  apply append_nil_r.
Qed.

End Strings.

Import Pathlib.

Lemma keep_with_extension (b ext : string) :
  (2 <= String.length ext)%nat -> keep (b +:+ ext) = true.
Proof.
  intros Hl. unfold keep.
  assert (H : forall t : string, (String.length t < 2)%nat ->
                String.eqb (b +:+ ext) t = false).
  { intros t Ht. apply String.eqb_neq. intros E.
    apply (f_equal String.length) in E. rewrite length_app in E. lia. }
  rewrite (H ""%string), (H "."%string) by (simpl; lia). reflexivity.
Qed.

Lemma Path_component (x : string) :
  rfind "/" x = None -> keep x = true ->
  Path x = {| root := ""; parts := [x] |}.
Proof.
  intros Hs Hk. unfold Path, splitroot.
  assert (Hp : List.filter keep (split "/" x) = [x]).
  { rewrite split_of_no_sep by assumption. simpl. now rewrite Hk. }
  destruct x as [|c x]; [now rewrite Hp|].
  destruct (Ascii.eqb c "/") eqn:Hc; [|now rewrite Hp].
  simpl in Hs. rewrite Hc in Hs. destruct (rfind "/" x); discriminate.
Qed.

Lemma Path_parts_no_sep (input_path x : string) :
  In x (parts (Path input_path)) -> rfind "/" x = None.
Proof.
  unfold Path. destruct (splitroot input_path) as [r rel]. cbn [parts].
  intros H. apply filter_In in H as [H _]. now apply split_no_sep in H.
Qed.

Lemma stem_gz (r : string) (dirs : list string) (b : string) :
  stem {| root := r; parts := dirs ++ [b +:+ ".nii.gz"] |} = b +:+ ".nii".
Proof.
  unfold stem, name. cbn [parts]. rewrite last_last.
  rewrite (rfind_app_Some "." b ".nii.gz" 4) by reflexivity.
  rewrite length_app. cbn [String.length].
  replace ((0 <? String.length b + 4) && (String.length b + 4 <? String.length b + 7 - 1))%nat
    with true.
  - rewrite take_app. reflexivity.
  - symmetry. apply andb_true_intro. split; apply Nat.ltb_lt; lia.
Qed.

Lemma stem_nii (r : string) (dirs : list string) (b : string) :
  endswith b ".nii" = false ->
  (let stem := stem {| root := r; parts := dirs ++ [b +:+ ".nii"] |} in
   if endswith stem ".nii" then drop_last 4 stem else stem) = b.
Proof.
  intros Hb. cbv zeta. unfold stem, name. cbn [parts]. rewrite last_last.
  rewrite (rfind_app_Some "." b ".nii" 0) by reflexivity.
  rewrite length_app, Nat.add_0_r. cbn [String.length].
  destruct b as [|c b].
  - reflexivity.
  - replace ((0 <? String.length (String c b)) && (String.length (String c b) <? String.length (String c b) + 4 - 1))%nat
      with true.
    + rewrite take_length_app, Hb. reflexivity.
    + symmetry. apply andb_true_intro. split; apply Nat.ltb_lt; simpl; lia.
Qed.

Lemma truediv_component (p : PurePath) (b : string) :
  rfind "/" b = None ->
  truediv p (b +:+ ".tiff")
  = {| root := root p; parts := parts p ++ [b +:+ ".tiff"] |}.
Proof.
  intros Hb. unfold truediv.
  rewrite Path_component.
  - reflexivity.
  - apply rfind_None_app; [assumption|reflexivity].
  - apply keep_with_extension. simpl. lia.
Qed.

Lemma default_output_path_gz (input_path r : string) (dirs : list string) (b : string) :
  Path input_path = {| root := r; parts := dirs ++ [b +:+ ".nii.gz"] |} ->
  default_output_path input_path
  = str {| root := r; parts := dirs ++ [b +:+ ".tiff"] |}.
Proof.
  intros Hp. unfold default_output_path.
  assert (Hs : rfind "/" b = None).
  { apply (rfind_None_app_l _ _ ".nii.gz").
    apply (Path_parts_no_sep input_path). rewrite Hp. cbn [parts].
    apply in_or_app. right. now left. }
  rewrite Hp, stem_gz.
  change ".nii"%string with (""  +:+ ".nii")%string at 1.
  rewrite endswith_app.
  change 4%nat with (String.length ".nii").
  rewrite drop_last_app, truediv_component by assumption.
  unfold parent. cbn [root parts]. now rewrite removelast_last.
Qed.

Lemma default_output_path_nii (input_path r : string) (dirs : list string) (b : string) :
  Path input_path = {| root := r; parts := dirs ++ [b +:+ ".nii"] |} ->
  endswith b ".nii" = false ->
  default_output_path input_path
  = str {| root := r; parts := dirs ++ [b +:+ ".tiff"] |}.
Proof.
  intros Hp Hb. unfold default_output_path.
  assert (Hs : rfind "/" b = None).
  { apply (rfind_None_app_l _ _ ".nii").
    apply (Path_parts_no_sep input_path). rewrite Hp. cbn [parts].
    apply in_or_app. right. now left. }
  rewrite Hp.
  pose proof (stem_nii r dirs b Hb) as Hst. cbv zeta in Hst. rewrite Hst.
  rewrite truediv_component by assumption.
  unfold parent. cbn [root parts]. now rewrite removelast_last.
Qed.

Lemma stem_nii_nii (r : string) (dirs : list string) (b : string) :
  (let stem := stem {| root := r;
                       parts := dirs ++ [(b +:+ ".nii") +:+ ".nii"] |} in
   if endswith stem ".nii" then drop_last 4 stem else stem) = b.
Proof.
  cbv zeta. unfold stem, name. cbn [parts]. rewrite last_last.
  rewrite (rfind_app_Some "." (b +:+ ".nii") ".nii" 0) by reflexivity.
  rewrite !length_app, Nat.add_0_r. cbn [String.length].
  replace ((0 <? String.length b + 4)
           && (String.length b + 4 <? String.length b + 4 + 4 - 1))%nat
    with true
    by (symmetry; apply andb_true_intro; split; apply Nat.ltb_lt; lia).
  replace (String.length b + 4)%nat with (String.length (b +:+ ".nii"))
    by (rewrite length_app; reflexivity).
  rewrite take_length_app, endswith_app.
  change 4%nat with (String.length ".nii"). apply drop_last_app.
Qed.

Lemma default_output_path_nii_nii (input_path r : string) (dirs : list string) (b : string) :
  Path input_path
  = {| root := r; parts := dirs ++ [(b +:+ ".nii") +:+ ".nii"] |} ->
  default_output_path input_path
  = str {| root := r; parts := dirs ++ [b +:+ ".tiff"] |}.
Proof.
  intros Hp. unfold default_output_path.
  assert (Hs : rfind "/" b = None).
  { apply (rfind_None_app_l _ _ ".nii"), (rfind_None_app_l _ _ ".nii").
    apply (Path_parts_no_sep input_path). rewrite Hp. cbn [parts].
    apply in_or_app. right. now left. }
  rewrite Hp.
  pose proof (stem_nii_nii r dirs b) as Hst. cbv zeta in Hst. rewrite Hst.
  rewrite truediv_component by assumption.
  unfold parent. cbn [root parts]. now rewrite removelast_last.
Qed.

(** * Floats *)

Lemma astype_uint16_range x : 0 <= astype_uint16 x <= 65535.
Proof.
  unfold astype_uint16. destruct (trunc x) as [t|]; [|lia].
  destruct (_ && _); [|lia].
  pose proof (Z.mod_pos_bound t 65536). lia.
Qed.

Lemma of_Z_65535 k : exists m e, of_Z k 65535 = S754_finite false m e.
Proof. destruct k; eexists _, _; reflexivity. Qed.

Lemma compare_cont_Eq m m' : Pos.compare_cont Eq m m' = (m ?= m')%positive.
Proof. reflexivity. Qed.

Lemma SFeqb_cases x y :
  SFeqb x y = true ->
  x = y \/ (exists s s', x = S754_zero s /\ y = S754_zero s').
Proof.
  unfold SFeqb.
  destruct x as [s|s| |s m e], y as [s'|s'| |s' m' e']; simpl; try discriminate;
    try (destruct s; discriminate); try (destruct s'; discriminate).
  - right. now exists s, s'.
  - destruct s, s'; try discriminate; auto.
  - rewrite compare_cont_Eq.
    destruct s, s'; try discriminate;
      destruct (Z.compare_spec e e'); try discriminate; subst;
      destruct (Pos.compare_spec m m'); simpl; try discriminate;
      subst; auto.
Qed.

Lemma fsub_diag k x :
  is_finite x = true -> exists s, fsub k x x = S754_zero s.
Proof.
  destruct x as [s|s| |s m e]; simpl; try discriminate; intros _.
  - destruct s; eexists; reflexivity.
  - unfold fsub, SFsub. rewrite Z.min_id.
    unfold shl_align. rewrite !Z.sub_diag. now exists false.
Qed.

Lemma fdiv_self k s m e :
  fdiv k (S754_finite s m e) (S754_finite s m e) = of_Z k 1.
Proof.
  unfold fdiv, SFdiv, SFdiv_core_binary.
  rewrite !Z.sub_diag.
  assert (Hq : forall p : positive,
             Z.div_eucl (Z.shiftl (Zpos m) (Zpos p)) (Zpos m) = (2 ^ Zpos p, 0)).
  { intros p. rewrite Z.shiftl_mul_pow2 by lia.
    pose proof (Z.div_eucl_eq (Z.pos m * 2 ^ Z.pos p) (Zpos m) ltac:(lia)) as E.
    pose proof (Z.mod_pos_bound (Z.pos m * 2 ^ Z.pos p) (Zpos m) ltac:(lia)) as B.
    unfold Z.modulo in B.
    destruct (Z.div_eucl _ _) as [q r]. 
    assert (r = 0).
    { assert (Hr : r = Zpos m * (2 ^ Zpos p - q)) by lia.
      assert (2 ^ Zpos p - q = 0) by nia. subst. lia. }
    subst r. f_equal. nia. }
  assert (Hl : new_location (Zpos m) 0 = loc_Exact).
  { unfold new_location. now destruct (Z.even _). }
  destruct k;
    match goal with
    | |- context [Z.min ?a 0] =>
        let v := eval vm_compute in (Z.min a 0) in
        change (Z.min a 0) with v
    end;
    match goal with
    | |- context [0 - ?a] =>
        let v := eval vm_compute in (0 - a) in change (0 - a) with v
    end;
    cbv iota; rewrite Hq, Hl; destruct s; reflexivity.
Qed.

(** ** Right shifts with a round bit and a sticky bit *)

Lemma iter_pos_nat {A} (f : A -> A) (p : positive) (x : A) :
  SpecFloat.iter_pos f p x = Nat.iter (Pos.to_nat p) f x.
Proof.
  revert x. induction p as [p IH|p IH|]; intros x; cbn [SpecFloat.iter_pos].
  - rewrite !IH, Pos2Nat.inj_xI.
    replace (S (2 * Pos.to_nat p)) with (Pos.to_nat p + Pos.to_nat p + 1)%nat by lia.
    rewrite !Nat.iter_add. reflexivity.
  - rewrite !IH, Pos2Nat.inj_xO.
    replace (2 * Pos.to_nat p)%nat with (Pos.to_nat p + Pos.to_nat p)%nat by lia.
    rewrite Nat.iter_add. reflexivity.
  - reflexivity.
Qed.

Lemma shr_1_pos (m : Z) (r s : bool) :
  0 <= m ->
  shr_1 {| shr_m := m; shr_r := r; shr_s := s |}
  = {| shr_m := m / 2; shr_r := Z.odd m; shr_s := r || s |}.
Proof.
  intros Hm. destruct m as [|[p|p|]|p]; try lia; cbn [shr_1]; f_equal.
  - rewrite Pos2Z.inj_xI. apply Z.div_unique with 1; lia.
  - rewrite Pos2Z.inj_xO. apply Z.div_unique with 0; lia.
Qed.

Lemma mod_pow2_succ (N : Z) (n : Z) :
  0 <= n ->
  N mod 2 ^ (n + 1) = N mod 2 ^ n + (if Z.odd (N / 2 ^ n) then 2 ^ n else 0).
Proof.
  intros Hn.
  assert (Hp : 0 < 2 ^ n) by (apply Z.pow_pos_nonneg; lia).
  rewrite Z.pow_add_r, Z.pow_1_r by lia.
  rewrite Z.rem_mul_r by lia.
  rewrite (Z.mul_comm (2 ^ n)).
  pose proof (Zmod_odd (N / 2 ^ n)) as Ho.
  destruct (Z.odd (N / 2 ^ n)); rewrite Ho; lia.
Qed.

Lemma shifted_succ (N : Z) (n : nat) :
  0 <= N -> shr_1 (shifted N n) = shifted N (S n).
Proof.
  intros HN. unfold shifted.
  assert (Hp : 0 < 2 ^ Z.of_nat n) by (apply Z.pow_pos_nonneg; lia).
  rewrite shr_1_pos by (apply Z.div_pos; [lia|apply Z.pow_pos_nonneg; lia]).
  f_equal.
  - rewrite Z.div_div by (try apply Z.pow_pos_nonneg; lia).
    f_equal. rewrite (Nat2Z.inj_succ (S n)), Z.pow_succ_r by lia. lia.
  - rewrite (Nat2Z.inj_succ n). unfold Z.succ.
    rewrite mod_pow2_succ by lia.
    pose proof (Z.mod_pos_bound N (2 ^ Z.of_nat n) Hp).
    destruct (Z.odd (N / 2 ^ Z.of_nat n)); cbn [orb].
    + symmetry. apply negb_true_iff, Z.eqb_neq. lia.
    + now rewrite Z.add_0_r.
Qed.

Lemma iter_shr_1 (N : Z) (n : nat) :
  0 <= N ->
  Nat.iter (S n) shr_1 {| shr_m := N; shr_r := false; shr_s := false |}
  = shifted N n.
Proof.
  intros HN. induction n as [|n IH].
  - cbn [Nat.iter nat_rect]. rewrite shr_1_pos by assumption. unfold shifted.
    cbn [Z.of_nat]. rewrite Z.pow_0_r, Z.div_1_r, Z.mod_1_r. reflexivity.
  - change (Nat.iter (S (S n)) shr_1 ?x) with (shr_1 (Nat.iter (S n) shr_1 x)).
    rewrite IH. now apply shifted_succ.
Qed.

Lemma shr_round (N : Z) (p : positive) :
  0 <= N ->
  let mrs := SpecFloat.iter_pos shr_1 p
               {| shr_m := N; shr_r := false; shr_s := false |} in
  round_nearest_even (shr_m mrs) (loc_of_shr_record mrs) = rne N (Zpos p).
Proof.
  intros HN. cbv zeta. rewrite iter_pos_nat.
  destruct (Pos.to_nat p) as [|n] eqn:Hn; [lia|].
  rewrite iter_shr_1 by assumption.
  assert (Hk : Zpos p = Z.of_nat n + 1) by lia.
  unfold rne. rewrite Hk.
  assert (Hp : 0 < 2 ^ Z.of_nat n) by (apply Z.pow_pos_nonneg; lia).
  rewrite mod_pow2_succ by lia.
  rewrite Z.pow_add_r, Z.pow_1_r by lia.
  pose proof (Z.mod_pos_bound N (2 ^ Z.of_nat n) Hp) as Hm.
  unfold shifted, loc_of_shr_record, round_nearest_even. cbn [shr_m shr_r shr_s].
  replace (Z.of_nat (S n)) with (Z.of_nat n + 1) by lia.
  rewrite Z.pow_add_r, Z.pow_1_r by lia.
  set (q := N / (2 ^ Z.of_nat n * 2)).
  rewrite <- Z.negb_odd.
  destruct (Z.odd (N / 2 ^ Z.of_nat n)) eqn:Ho;
    destruct (Z.eqb_spec (N mod 2 ^ Z.of_nat n) 0) as [E|E]; cbn [negb].
  - rewrite E.
    replace (2 ^ Z.of_nat n * 2 <? 2 * (0 + 2 ^ Z.of_nat n)) with false
      by (symmetry; apply Z.ltb_ge; lia).
    replace (2 * (0 + 2 ^ Z.of_nat n) =? 2 ^ Z.of_nat n * 2) with true
      by (symmetry; apply Z.eqb_eq; lia).
    cbn [orb andb]. destruct (Z.odd q); reflexivity.
  - replace (2 ^ Z.of_nat n * 2 <? 2 * (N mod 2 ^ Z.of_nat n + 2 ^ Z.of_nat n)) with true
      by (symmetry; apply Z.ltb_lt; lia).
    reflexivity.
  - rewrite E.
    replace (2 ^ Z.of_nat n * 2 <? 2 * (0 + 0)) with false
      by (symmetry; apply Z.ltb_ge; lia).
    replace (2 * (0 + 0) =? 2 ^ Z.of_nat n * 2) with false
      by (symmetry; apply Z.eqb_neq; lia).
    reflexivity.
  - replace (2 ^ Z.of_nat n * 2 <? 2 * (N mod 2 ^ Z.of_nat n + 0)) with false
      by (symmetry; apply Z.ltb_ge; lia).
    replace (2 * (N mod 2 ^ Z.of_nat n + 0) =? 2 ^ Z.of_nat n * 2) with false
      by (symmetry; apply Z.eqb_neq; lia).
    reflexivity.
Qed.

(** ** Properties of [rne] *)

Lemma pow2_pos (k : Z) : 0 <= k -> 0 < 2 ^ k.
Proof. intros. apply Z.pow_pos_nonneg; lia. Qed.

Lemma pow2_split (a b : Z) : 0 <= a -> 0 <= b -> 2 ^ (a + b) = 2 ^ a * 2 ^ b.
Proof. intros. apply Z.pow_add_r; assumption. Qed.

Lemma rne_bounds (N k : Z) : N / 2 ^ k <= rne N k <= N / 2 ^ k + 1.
Proof. unfold rne. destruct (_ || _); lia. Qed.

Lemma rne_0 (N : Z) : rne N 0 = N.
Proof.
  unfold rne. rewrite Z.pow_0_r, Z.div_1_r, Z.mod_1_r. reflexivity.
Qed.

Lemma rne_exact (N k : Z) :
  0 <= k -> N mod 2 ^ k = 0 -> rne N k = N / 2 ^ k.
Proof.
  intros Hk Hm. unfold rne. rewrite Hm.
  pose proof (pow2_pos k Hk).
  replace (2 ^ k <? 2 * 0) with false by (symmetry; apply Z.ltb_ge; lia).
  replace (2 * 0 =? 2 ^ k) with false by (symmetry; apply Z.eqb_neq; lia).
  reflexivity.
Qed.

Lemma rne_mul_pow2 (F k : Z) : 0 <= k -> rne (F * 2 ^ k) k = F.
Proof.
  intros Hk. pose proof (pow2_pos k Hk).
  rewrite rne_exact by (try apply Z_mod_mult; lia).
  apply Z_div_mult. lia.
Qed.

(** A multiple of the rounding unit above [N] is above its rounding. *)
Lemma rne_le_multiple (N F k : Z) :
  0 <= k -> N <= F * 2 ^ k -> rne N k <= F.
Proof.
  intros Hk HN. pose proof (pow2_pos k Hk) as Hp.
  destruct (Z.eq_dec N (F * 2 ^ k)) as [->|Hne].
  - rewrite rne_mul_pow2 by assumption. lia.
  - pose proof (rne_bounds N k) as [_ Hu].
    assert (N / 2 ^ k < F) by (apply Z.div_lt_upper_bound; lia).
    lia.
Qed.

Lemma rne_ge_multiple (N F k : Z) :
  0 <= k -> F * 2 ^ k <= N -> F <= rne N k.
Proof.
  intros Hk HN. pose proof (pow2_pos k Hk) as Hp.
  pose proof (rne_bounds N k) as [Hl _].
  assert (F <= N / 2 ^ k) by (apply Z.div_le_lower_bound; lia).
  lia.
Qed.

Lemma rne_mono (N1 N2 k : Z) :
  0 <= k -> N1 <= N2 -> rne N1 k <= rne N2 k.
Proof.
  intros Hk HN. pose proof (pow2_pos k Hk) as Hp.
  assert (Hq : N1 / 2 ^ k <= N2 / 2 ^ k) by (apply Z.div_le_mono; lia).
  destruct (Z.eq_dec (N1 / 2 ^ k) (N2 / 2 ^ k)) as [E|E].
  - assert (Hr : N1 mod 2 ^ k <= N2 mod 2 ^ k).
    { rewrite !Z.mod_eq by lia. rewrite E. lia. }
    unfold rne. rewrite E.
    destruct (Z.ltb_spec (2 ^ k) (2 * (N1 mod 2 ^ k))) as [H1|H1];
      destruct (Z.ltb_spec (2 ^ k) (2 * (N2 mod 2 ^ k))) as [H2|H2];
      cbn [orb]; try lia.
    + destruct (_ && _); lia.
    + destruct (Z.eqb_spec (2 * (N1 mod 2 ^ k)) (2 ^ k)) as [E1|E1];
        destruct (Z.eqb_spec (2 * (N2 mod 2 ^ k)) (2 ^ k)) as [E2|E2];
        cbn [andb]; try lia; destruct (Z.odd _); lia.
  - pose proof (rne_bounds N1 k). pose proof (rne_bounds N2 k). lia.
Qed.

Lemma rne_scale (N k j : Z) :
  0 <= k -> 0 <= j -> rne (N * 2 ^ j) (k + j) = rne N k.
Proof.
  intros Hk Hj. pose proof (pow2_pos k Hk) as Hp. pose proof (pow2_pos j Hj) as Hpj.
  unfold rne. rewrite pow2_split by assumption.
  rewrite Z.div_mul_cancel_r by lia.
  rewrite Z.mul_mod_distr_r by lia.
  replace (2 ^ k * 2 ^ j <? 2 * (N mod 2 ^ k * 2 ^ j))
    with (2 ^ k <? 2 * (N mod 2 ^ k)).
  2:{ destruct (Z.ltb_spec (2 ^ k) (2 * (N mod 2 ^ k)));
      symmetry; [apply Z.ltb_lt|apply Z.ltb_ge]; nia. }
  replace (2 * (N mod 2 ^ k * 2 ^ j) =? 2 ^ k * 2 ^ j)
    with (2 * (N mod 2 ^ k) =? 2 ^ k).
  2:{ destruct (Z.eqb_spec (2 * (N mod 2 ^ k)) (2 ^ k));
      symmetry; [apply Z.eqb_eq|apply Z.eqb_neq]; nia. }
  reflexivity.
Qed.

(** ** Digits *)

Lemma digits2_pos_bounds (m : positive) :
  2 ^ (Zpos (digits2_pos m) - 1) <= Zpos m < 2 ^ Zpos (digits2_pos m).
Proof.
  induction m as [m IH|m IH|]; cbn [digits2_pos];
    rewrite ?Pos2Z.inj_succ.
  - replace (Z.succ (Zpos (digits2_pos m)) - 1) with (Zpos (digits2_pos m)) by lia.
    rewrite Z.pow_succ_r by lia.
    replace (Zpos (digits2_pos m))
      with (Z.succ (Zpos (digits2_pos m) - 1)) at 1 by lia.
    rewrite Z.pow_succ_r by lia. lia.
  - replace (Z.succ (Zpos (digits2_pos m)) - 1) with (Zpos (digits2_pos m)) by lia.
    rewrite Z.pow_succ_r by lia.
    replace (Zpos (digits2_pos m))
      with (Z.succ (Zpos (digits2_pos m) - 1)) at 1 by lia.
    rewrite Z.pow_succ_r by lia. lia.
  - cbn. lia.
Qed.

Lemma Zdigits2_bounds (M : Z) :
  0 < M -> 0 < Zdigits2 M /\ 2 ^ (Zdigits2 M - 1) <= M < 2 ^ Zdigits2 M.
Proof.
  destruct M as [|m|m]; try lia. intros _. cbn [Zdigits2].
  split; [lia|apply digits2_pos_bounds].
Qed.

Lemma Zdigits2_unique (M d : Z) :
  0 < M -> 2 ^ (d - 1) <= M < 2 ^ d -> Zdigits2 M = d.
Proof.
  intros HM [Hl Hu]. destruct (Zdigits2_bounds M HM) as (Hd & Hl' & Hu').
  assert (0 < d).
  { destruct (Z.ltb_spec 0 d); [assumption|].
    destruct (Z.eq_dec d 0) as [->|]; [cbn in Hu; lia|].
    rewrite Z.pow_neg_r in Hu by lia. lia. }
  destruct (Z.lt_trichotomy (Zdigits2 M) d) as [Hc|[Hc|Hc]]; [|assumption|].
  - assert (2 ^ Zdigits2 M <= 2 ^ (d - 1)) by (apply Z.pow_le_mono_r; lia). lia.
  - assert (2 ^ d <= 2 ^ (Zdigits2 M - 1)) by (apply Z.pow_le_mono_r; lia). lia.
Qed.

Lemma Zdigits2_le (M d : Z) : 0 <= d -> 0 <= M < 2 ^ d -> Zdigits2 M <= d.
Proof.
  intros Hd [H0 Hu]. destruct (Z.eq_dec M 0) as [->|]; [cbn; lia|].
  destruct (Zdigits2_bounds M ltac:(lia)) as (_ & Hl & _).
  destruct (Z.le_gt_cases (Zdigits2 M) d); [assumption|].
  assert (2 ^ d <= 2 ^ (Zdigits2 M - 1)) by (apply Z.pow_le_mono_r; lia). lia.
Qed.

Lemma Zdigits2_ge (M d : Z) : 2 ^ (d - 1) <= M -> 0 < M -> d <= Zdigits2 M.
Proof.
  intros Hl HM. destruct (Zdigits2_bounds M HM) as (Hd & _ & Hu).
  destruct (Z.le_gt_cases d (Zdigits2 M)); [assumption|].
  assert (2 ^ Zdigits2 M <= 2 ^ (d - 1)) by (apply Z.pow_le_mono_r; lia). lia.
Qed.

Lemma Zdigits2_nonneg (M : Z) : 0 <= Zdigits2 M.
Proof. destruct M; cbn; lia. Qed.

(** ** The two stages of [binary_round_aux] *)

Section Round.

Variables prec emax : Z.
Hypothesis prec_pos : 0 < prec.

Local Abbreviation fexp := (fexp prec emax).
Local Abbreviation emin := (emin prec emax).

Lemma fexp_ge_emin (x : Z) : emin <= fexp x.
Proof. unfold SpecFloat.fexp. lia. Qed.

Lemma fexp_mono (x y : Z) : x <= y -> fexp x <= fexp y.
Proof. unfold SpecFloat.fexp. lia. Qed.

Lemma fexp_succ (x : Z) : fexp (x + 1) <= fexp x + 1.
Proof. unfold SpecFloat.fexp. lia. Qed.

Lemma loc_of_shr_record_of_loc (m : Z) (l : location) :
  loc_of_shr_record (shr_record_of_loc m l) = l.
Proof. destruct l as [|[]]; reflexivity. Qed.

Lemma shr_m_of_loc (m : Z) (l : location) : shr_m (shr_record_of_loc m l) = m.
Proof. destruct l as [|[]]; reflexivity. Qed.

Lemma iter_shr_m (n : nat) (mrs : shr_record) :
  0 <= shr_m mrs ->
  shr_m (Nat.iter n shr_1 mrs) = shr_m mrs / 2 ^ Z.of_nat n.
Proof.
  intros Hm. induction n as [|n IH].
  - cbn. now rewrite Z.div_1_r.
  - change (Nat.iter (S n) shr_1 mrs) with (shr_1 (Nat.iter n shr_1 mrs)).
    assert (H0 : 0 <= shr_m (Nat.iter n shr_1 mrs)).
    { rewrite IH. apply Z.div_pos; [assumption|apply pow2_pos; lia]. }
    destruct (Nat.iter n shr_1 mrs) as [m r s]. cbn [shr_m] in *.
    rewrite shr_1_pos by assumption. cbn [shr_m]. rewrite IH.
    rewrite Z.div_div by (try apply pow2_pos; lia).
    f_equal. rewrite Nat2Z.inj_succ, Z.pow_succ_r by lia. lia.
Qed.

Lemma round_nearest_even_bounds (m : Z) (l : location) :
  m <= round_nearest_even m l <= m + 1.
Proof.
  unfold round_nearest_even. destruct l as [|[]]; try lia.
  destruct (Z.even m); lia.
Qed.

(** First stage: the mantissa shifted by [k] and rounded. *)
Lemma shr_stage (M E k : Z) (l : location) :
  0 <= M -> 0 <= k ->
  exists mrs,
    shr (shr_record_of_loc M l) E k = (mrs, E + k) /\
    M / 2 ^ k <= round_nearest_even (shr_m mrs) (loc_of_shr_record mrs)
              <= M / 2 ^ k + 1 /\
    (l = loc_Exact ->
     round_nearest_even (shr_m mrs) (loc_of_shr_record mrs) = rne M k).
Proof.
  intros HM Hk. unfold shr. destruct k as [|p|p]; [| |lia].
  - exists (shr_record_of_loc M l). rewrite Z.add_0_r.
    split; [reflexivity|].
    rewrite shr_m_of_loc, loc_of_shr_record_of_loc, Z.pow_0_r, Z.div_1_r.
    split; [apply round_nearest_even_bounds|].
    intros ->. now rewrite rne_0.
  - eexists. split; [reflexivity|]. split.
    + rewrite iter_pos_nat, iter_shr_m by (rewrite shr_m_of_loc; lia).
      rewrite shr_m_of_loc, positive_nat_Z.
      apply round_nearest_even_bounds.
    + intros ->. now apply shr_round.
Qed.

(** Second stage: a rounded mantissa [m1] of at most [delta + 1] digits is
    renormalized without loss. *)
Lemma renormalize_stage (m1 t delta : Z) :
  0 < m1 -> 0 <= delta ->
  2 ^ (delta - 1) <= m1 <= 2 ^ delta ->
  fexp (delta + t) = t ->
  exists mrs e2,
    shr_fexp prec emax m1 t loc_Exact = (mrs, e2) /\
    0 < shr_m mrs /\ t <= e2 /\ shr_m mrs * 2 ^ (e2 - t) = m1 /\
    fexp (Zdigits2 (shr_m mrs) + e2) = e2.
Proof.
  intros Hm Hd [Hl Hu] Ht.
  assert (Hd1 : delta <= Zdigits2 m1 <= delta + 1).
  { split.
    - apply Zdigits2_ge; assumption.
    - apply Zdigits2_le; [lia|]. split; [lia|].
      rewrite Z.pow_add_r, Z.pow_1_r by lia.
      pose proof (pow2_pos delta Hd). lia. }
  unfold shr_fexp.
  pose proof (fexp_mono (delta + t) (Zdigits2 m1 + t) ltac:(lia)) as F1.
  pose proof (fexp_mono (Zdigits2 m1 + t) (delta + 1 + t) ltac:(lia)) as F2.
  pose proof (fexp_succ (delta + t)) as F3.
  replace (delta + t + 1) with (delta + 1 + t) in F3 by lia.
  destruct (Z.eq_dec (fexp (Zdigits2 m1 + t)) t) as [E0|E0].
  - rewrite E0, Z.sub_diag. cbn [shr].
    exists (shr_record_of_loc m1 loc_Exact), t. cbn [shr_record_of_loc shr_m].
    rewrite Z.sub_diag, Z.pow_0_r. repeat split; lia.
  - assert (E1 : fexp (Zdigits2 m1 + t) = t + 1) by lia.
    assert (Hdd : Zdigits2 m1 = delta + 1).
    { destruct (Z.eq_dec (Zdigits2 m1) delta) as [Ed|Ed]; [|lia].
      rewrite Ed in E0. contradiction. }
    assert (Hpw : m1 = 2 ^ delta).
    { destruct (Zdigits2_bounds m1 Hm) as (_ & Hb & _).
      rewrite Hdd in Hb. replace (delta + 1 - 1) with delta in Hb by lia. lia. }
    assert (Hprec : delta = prec).
    { pose proof (fexp_ge_emin (delta + t)) as G. rewrite Ht in G.
      rewrite Hdd in E1. unfold SpecFloat.fexp in E1. lia. }
    rewrite E1. replace (t + 1 - t) with 1 by lia. cbn [shr SpecFloat.iter_pos].
    cbn [shr_record_of_loc]. rewrite shr_1_pos by lia.
    exists {| shr_m := m1 / 2; shr_r := Z.odd m1; shr_s := false || false |}, (t + 1).
    cbn [shr_m]. replace (t + 1 - t) with 1 by lia.
    assert (Hhalf : m1 / 2 = 2 ^ (delta - 1)).
    { rewrite Hpw. replace delta with (delta - 1 + 1) at 1 by lia.
      rewrite Z.pow_add_r, Z.pow_1_r by lia. apply Z_div_mult. lia. }
    rewrite Hhalf.
    pose proof (pow2_pos (delta - 1) ltac:(lia)) as Hpp.
    repeat split; try lia.
    + rewrite Hpw. replace delta with (delta - 1 + 1) at 2 by lia.
      rewrite Z.pow_add_r by lia. reflexivity.
    + rewrite (Zdigits2_unique (2 ^ (delta - 1)) delta); try lia.
      * rewrite <- E1, Hdd. f_equal. lia.
      * split; [lia|]. replace delta with (delta - 1 + 1) at 2 by lia.
        rewrite Z.pow_add_r, Z.pow_1_r by lia. lia.
Qed.

(** [binary_round_aux] on a mantissa that needs no left shift: the
    mantissa is divided by [2^k], rounded to [m1], and [m1 * 2^t] is
    returned in canonical form, unless its exponent overflows. *)
Lemma binary_round_aux_spec (s : bool) (M E : Z) (l : location) :
  0 <= M -> E <= fexp (Zdigits2 M + E) ->
  exists m1,
    M / 2 ^ (fexp (Zdigits2 M + E) - E) <= m1
      <= M / 2 ^ (fexp (Zdigits2 M + E) - E) + 1 /\
    (l = loc_Exact -> m1 = rne M (fexp (Zdigits2 M + E) - E)) /\
    ((m1 = 0 /\ binary_round_aux prec emax s M E l = S754_zero s) \/
     (0 < m1 /\
      exists (m2 : positive) (e2 : Z),
        fexp (Zdigits2 M + E) <= e2 /\
        Zpos m2 * 2 ^ (e2 - fexp (Zdigits2 M + E)) = m1 /\
        fexp (Zpos (digits2_pos m2) + e2) = e2 /\
        binary_round_aux prec emax s M E l
        = if e2 <=? emax - prec then S754_finite s m2 e2
          else S754_infinity s)).
Proof.
  intros HM Hk.
  set (t := fexp (Zdigits2 M + E)) in *.
  set (k := t - E).
  destruct (shr_stage M E k l HM ltac:(lia)) as (mrs & Hshr & Hb & Hex).
  set (m1 := round_nearest_even (shr_m mrs) (loc_of_shr_record mrs)) in *.
  assert (Hbra : binary_round_aux prec emax s M E l
                 = let '(mrs2, e2) := shr_fexp prec emax m1 t loc_Exact in
                   match shr_m mrs2 with
                   | 0 => S754_zero s
                   | Zpos m => if e2 <=? emax - prec then S754_finite s m e2
                               else S754_infinity s
                   | Zneg _ => S754_nan
                   end).
  { unfold binary_round_aux. unfold shr_fexp at 1. fold t. fold k.
    rewrite Hshr. cbv beta iota. replace (E + k) with t by lia.
    reflexivity. }
  rewrite Hbra. clear Hbra.
  exists m1. split; [exact Hb|]. split; [exact Hex|].
  assert (Hk0 : 0 <= k) by lia.
  pose proof (pow2_pos k Hk0) as Hpk.
  assert (Hq0 : 0 <= M / 2 ^ k) by (apply Z.div_pos; lia).
  destruct (Z.eq_dec m1 0) as [Hz|Hz].
  - left. split; [exact Hz|]. rewrite Hz. unfold shr_fexp, shr.
    cbn [Zdigits2 shr_record_of_loc].
    destruct (fexp (0 + t) - t) as [|p|p]; cbn [shr_m]; try reflexivity.
    rewrite iter_pos_nat, iter_shr_m by (cbn; lia). cbn [shr_m].
    now rewrite Z.div_0_l by (apply Z.pow_nonzero; lia).
  - right. assert (Hm1 : 0 < m1) by lia. split; [exact Hm1|].
    pose proof (Zdigits2_nonneg M) as HdM.
    assert (Hst : exists delta, 0 <= delta /\ 2 ^ (delta - 1) <= m1 <= 2 ^ delta
                                /\ fexp (delta + t) = t).
    { destruct (Z.le_gt_cases 1 (Zdigits2 M - k)) as [Hc|Hc].
      - exists (Zdigits2 M - k).
        assert (HMp : 0 < M) by (destruct M; cbn in *; lia).
        destruct (Zdigits2_bounds M HMp) as (_ & Hl & Hu).
        split; [lia|]. split; [split|].
        + apply Z.le_trans with (M / 2 ^ k); [|lia].
          apply Z.div_le_lower_bound; [lia|].
          rewrite Z.mul_comm, <- Z.pow_add_r by lia.
          now replace (Zdigits2 M - k - 1 + k) with (Zdigits2 M - 1) by lia.
        + assert (M / 2 ^ k < 2 ^ (Zdigits2 M - k)); [|lia].
          apply Z.div_lt_upper_bound; [lia|].
          rewrite <- Z.pow_add_r by lia.
          now replace (k + (Zdigits2 M - k)) with (Zdigits2 M) by lia.
        + replace (Zdigits2 M - k + t) with (Zdigits2 M + E) by lia.
          reflexivity.
      - exists 0. split; [lia|].
        assert (Hq : M / 2 ^ k = 0).
        { apply Z.div_small. split; [lia|].
          destruct (Z.eq_dec M 0) as [->|]; [lia|].
          destruct (Zdigits2_bounds M ltac:(lia)) as (_ & _ & Hu).
          apply Z.lt_le_trans with (2 ^ Zdigits2 M); [assumption|].
          apply Z.pow_le_mono_r; lia. }
        split; [cbn; lia|].
        subst t. unfold SpecFloat.fexp in *. lia. }
    destruct Hst as (delta & Hd & Hbd & Hft).
    destruct (renormalize_stage m1 t delta Hm1 Hd Hbd Hft)
      as (mrs2 & e2 & Hs2 & Hp2 & Hle & Hval & Hcan).
    rewrite Hs2. destruct (shr_m mrs2) as [|m2|m2] eqn:Hm2; try lia.
    exists m2, e2. repeat split; assumption.
Qed.

(** *** Rounding an integer mantissa at any exponent *)

Lemma Zdigits2_mul_pow2 (M j : Z) :
  0 < M -> 0 <= j -> Zdigits2 (M * 2 ^ j) = Zdigits2 M + j.
Proof.
  intros HM Hj. pose proof (pow2_pos j Hj) as Hp.
  destruct (Zdigits2_bounds M HM) as (Hd & Hl & Hu).
  apply Zdigits2_unique; [nia|].
  replace (Zdigits2 M + j - 1) with (Zdigits2 M - 1 + j) by lia.
  rewrite !Z.pow_add_r by lia. nia.
Qed.

Lemma rnd_mono (N1 N2 : Z) : 0 < N1 -> N1 <= N2 -> rnd prec N1 <= rnd prec N2.
Proof.
  intros H1 H12. unfold rnd.
  destruct (Zdigits2_bounds N1 H1) as (Hd1 & Hl1 & Hu1).
  destruct (Zdigits2_bounds N2 ltac:(lia)) as (Hd2 & Hl2 & Hu2).
  assert (Hdd : Zdigits2 N1 <= Zdigits2 N2).
  { apply Zdigits2_ge; lia. }
  set (k1 := Z.max (Zdigits2 N1 - prec) 0).
  set (k2 := Z.max (Zdigits2 N2 - prec) 0).
  assert (Hk1 : 0 <= k1) by lia. assert (Hk2 : 0 <= k2) by lia.
  pose proof (pow2_pos k1 Hk1) as Hp1. pose proof (pow2_pos k2 Hk2) as Hp2.
  destruct (Z.eq_dec k1 k2) as [E|E].
  - rewrite <- E. pose proof (rne_mono N1 N2 k1 Hk1 H12). nia.
  - assert (Hlt : Zdigits2 N1 < Zdigits2 N2) by lia.
    assert (Hk2' : k2 = Zdigits2 N2 - prec) by lia.
    assert (A1 : rne N1 k1 <= 2 ^ (Zdigits2 N1 - k1)).
    { apply rne_le_multiple; [assumption|].
      rewrite <- Z.pow_add_r by lia.
      replace (Zdigits2 N1 - k1 + k1) with (Zdigits2 N1) by lia. lia. }
    assert (A2 : 2 ^ (Zdigits2 N2 - 1 - k2) <= rne N2 k2).
    { apply rne_ge_multiple; [assumption|].
      rewrite <- Z.pow_add_r by lia.
      replace (Zdigits2 N2 - 1 - k2 + k2) with (Zdigits2 N2 - 1) by lia. lia. }
    apply Z.le_trans with (2 ^ Zdigits2 N1).
    + assert (Hpw : 2 ^ Zdigits2 N1 = 2 ^ (Zdigits2 N1 - k1) * 2 ^ k1).
      { rewrite <- Z.pow_add_r by lia. f_equal. lia. }
      rewrite Hpw. nia.
    + apply Z.le_trans with (2 ^ (Zdigits2 N2 - 1)).
      * apply Z.pow_le_mono_r; lia.
      * assert (Hpw : 2 ^ (Zdigits2 N2 - 1)
                      = 2 ^ (Zdigits2 N2 - 1 - k2) * 2 ^ k2).
        { rewrite <- Z.pow_add_r by lia. f_equal. lia. }
        rewrite Hpw. nia.
Qed.

(** A canonical mantissa is its own rounding. *)
Lemma rnd_canonical (m : positive) (e : Z) :
  fexp (Zpos (digits2_pos m) + e) = e ->
  rnd prec (Zpos m * 2 ^ (e - emin)) = Zpos m * 2 ^ (e - emin).
Proof.
  intros Hc. pose proof (fexp_ge_emin (Zpos (digits2_pos m) + e)) as He.
  rewrite Hc in He. unfold rnd.
  rewrite Zdigits2_mul_pow2 by lia. cbn [Zdigits2].
  assert (Hk : Z.max (Zpos (digits2_pos m) + (e - emin) - prec) 0 = e - emin).
  { unfold SpecFloat.fexp in Hc. lia. }
  rewrite Hk, rne_mul_pow2 by lia. reflexivity.
Qed.

Lemma shl_align_value (m : positive) (e e' : Z) :
  e' <= e ->
  shl_align m e e' = (Z.to_pos (Zpos m * 2 ^ (e - e')), e').
Proof.
  intros He. unfold shl_align.
  destruct (e' - e) as [|d|d] eqn:Hd; try lia.
  - replace (e - e') with 0 by lia. rewrite Z.pow_0_r, Z.mul_1_r.
    cbn [Z.to_pos]. f_equal. lia.
  - change (Pos.iter xO m d) with (shift_pos d m). f_equal.
    apply Pos2Z.inj. rewrite shift_pos_correct, Z.pow_pos_fold.
    replace (e - e') with (Zpos d) by lia.
    rewrite Z2Pos.id by (pose proof (pow2_pos (Zpos d)); lia). lia.
Qed.

(** [binary_round] of an integer [D] at an exponent [ez] of the format:
    the value is [rnd] of [D * 2^ez], in units of [2^emin]. *)
Lemma binary_round_spec (s : bool) (D : positive) (ez : Z) :
  emin <= ez ->
  exists (m2 : positive) (e2 : Z),
    emin <= e2 /\
    Zpos m2 * 2 ^ (e2 - emin) = rnd prec (Zpos D * 2 ^ (ez - emin)) /\
    fexp (Zpos (digits2_pos m2) + e2) = e2 /\
    binary_round prec emax s D ez
    = if e2 <=? emax - prec then S754_finite s m2 e2 else S754_infinity s.
Proof.
  intros Hez. unfold binary_round.
  set (t := fexp (Zpos (digits2_pos D) + ez)).
  assert (Ht : emin <= t) by apply fexp_ge_emin.
  assert (Hkappa : Z.max (Zdigits2 (Zpos D * 2 ^ (ez - emin)) - prec) 0 = t - emin).
  { rewrite Zdigits2_mul_pow2 by lia. cbn [Zdigits2].
    subst t. unfold SpecFloat.fexp. lia. }
  unfold rnd. rewrite Hkappa.
  destruct (Z.lt_ge_cases t ez) as [Hlt|Hge].
  - rewrite shl_align_value by lia.
    set (M := Zpos D * 2 ^ (ez - t)).
    pose proof (pow2_pos (ez - t) ltac:(lia)) as Hp.
    assert (HM : 0 < M) by (subst M; nia).
    rewrite Z2Pos.id by assumption.
    assert (HdM : Zdigits2 M + t = Zpos (digits2_pos D) + ez).
    { subst M. rewrite Zdigits2_mul_pow2 by lia. cbn [Zdigits2]. lia. }
    destruct (binary_round_aux_spec s M t loc_Exact ltac:(lia))
      as (m1 & _ & Hex & Hres).
    { rewrite HdM. fold t. lia. }
    rewrite HdM in *. fold t in Hex, Hres.
    rewrite Z.sub_diag, rne_0 in Hex. specialize (Hex eq_refl). subst m1.
    destruct Hres as [[Hz _]|(_ & m2 & e2 & Hle & Hval & Hcan & Hres)]; [lia|].
    exists m2, e2. split; [lia|]. split; [|split; assumption].
    replace (e2 - emin) with (e2 - t + (t - emin)) by lia.
    rewrite Z.pow_add_r, Z.mul_assoc, Hval by lia.
    replace (Zpos D * 2 ^ (ez - emin)) with (M * 2 ^ (t - emin)).
    + now rewrite rne_mul_pow2 by lia.
    + subst M. rewrite <- Z.mul_assoc, <- Z.pow_add_r by lia.
      do 2 f_equal. lia.
  - assert (Hsh : shl_align D ez t = (D, ez)).
    { unfold shl_align. destruct (t - ez) eqn:Hd; try reflexivity. lia. }
    rewrite Hsh.
    destruct (binary_round_aux_spec s (Zpos D) ez loc_Exact ltac:(lia))
      as (m1 & _ & Hex & Hres).
    { cbn [Zdigits2]. fold t. lia. }
    cbn [Zdigits2] in *. fold t in Hex, Hres.
    specialize (Hex eq_refl).
    assert (Hm1 : 0 < m1).
    { subst m1. destruct (Z.eq_dec t ez) as [->|Hne].
      - rewrite Z.sub_diag, rne_0. lia.
      - apply Z.lt_le_trans with (2 ^ (prec - 1)); [apply pow2_pos; lia|].
        apply rne_ge_multiple; [lia|].
        rewrite <- Z.pow_add_r by lia.
        pose proof (digits2_pos_bounds D) as [Hl _].
        replace (prec - 1 + (t - ez)) with (Zpos (digits2_pos D) - 1); [lia|].
        subst t. unfold SpecFloat.fexp in *. lia. }
    destruct Hres as [[Hz _]|(_ & m2 & e2 & Hle & Hval & Hcan & Hres)]; [lia|].
    exists m2, e2. split; [lia|]. split; [|split; assumption].
    replace (e2 - emin) with (e2 - t + (t - emin)) by lia.
    rewrite Z.pow_add_r, Z.mul_assoc, Hval, Hex by lia.
    f_equal.
    replace (t - emin) with ((t - ez) + (ez - emin)) at 1 by lia.
    now rewrite rne_scale by lia.
Qed.

(** *** Valid floats and their order *)

Lemma valid_finite (s : bool) (m : positive) (e : Z) :
  valid_binary prec emax (S754_finite s m e) = true ->
  fexp (Zpos (digits2_pos m) + e) = e /\ e <= emax - prec.
Proof.
  unfold valid_binary, bounded, canonical_mantissa. intros H.
  apply andb_prop in H as [H1 H2].
  apply Z.eqb_eq in H1. apply Z.leb_le in H2. now split.
Qed.

Lemma canonical_shape (m : positive) (e : Z) :
  fexp (Zpos (digits2_pos m) + e) = e ->
  emin <= e /\ Zpos (digits2_pos m) <= prec /\
  (emin < e -> Zpos (digits2_pos m) = prec).
Proof. unfold SpecFloat.fexp. lia. Qed.

Lemma scaled_lt_exp (m1 m2 : positive) (e1 e2 : Z) :
  fexp (Zpos (digits2_pos m1) + e1) = e1 ->
  fexp (Zpos (digits2_pos m2) + e2) = e2 ->
  e1 < e2 ->
  Zpos m1 * 2 ^ (e1 - emin) < Zpos m2 * 2 ^ (e2 - emin).
Proof.
  intros C1 C2 He.
  destruct (canonical_shape m1 e1 C1) as (E1 & D1 & _).
  destruct (canonical_shape m2 e2 C2) as (E2 & _ & D2).
  specialize (D2 ltac:(lia)).
  pose proof (digits2_pos_bounds m1) as [_ U1].
  pose proof (digits2_pos_bounds m2) as [L2 _]. rewrite D2 in L2.
  assert (U1' : Zpos m1 < 2 ^ prec).
  { apply Z.lt_le_trans with (2 ^ Zpos (digits2_pos m1)); [assumption|].
    apply Z.pow_le_mono_r; lia. }
  pose proof (pow2_pos (e1 - emin) ltac:(lia)) as P1.
  pose proof (pow2_pos (e2 - emin) ltac:(lia)) as P2.
  apply Z.lt_le_trans with (2 ^ prec * 2 ^ (e1 - emin)); [nia|].
  apply Z.le_trans with (2 ^ (prec - 1) * 2 ^ (e2 - emin)); [|nia].
  rewrite <- !Z.pow_add_r by lia. apply Z.pow_le_mono_r; lia.
Qed.

Local Abbreviation val := (scaled prec emax).

Lemma scaled_pos_compare (m1 m2 : positive) (e1 e2 : Z) :
  fexp (Zpos (digits2_pos m1) + e1) = e1 ->
  fexp (Zpos (digits2_pos m2) + e2) = e2 ->
  match e1 ?= e2 with
  | Lt => Lt
  | Gt => Gt
  | Eq => Pos.compare_cont Eq m1 m2
  end = (Zpos m1 * 2 ^ (e1 - emin) ?= Zpos m2 * 2 ^ (e2 - emin)).
Proof.
  intros C1 C2. symmetry.
  destruct (Z.compare_spec e1 e2) as [->|H|H].
  - destruct (canonical_shape m2 e2 C2) as (E2 & _).
    pose proof (pow2_pos (e2 - emin) ltac:(lia)) as P.
    change (Pos.compare_cont Eq m1 m2) with (Zpos m1 ?= Zpos m2).
    destruct (Z.compare_spec (Zpos m1) (Zpos m2)) as [E|E|E].
    + rewrite E. apply Z.compare_refl.
    + apply Z.compare_lt_iff. nia.
    + apply Z.compare_gt_iff. nia.
  - apply Z.compare_lt_iff. now apply scaled_lt_exp.
  - apply Z.compare_gt_iff. now apply scaled_lt_exp.
Qed.

(** The comparison of two valid finite floats is that of their values. *)
Lemma SFcompare_scaled (x y : spec_float) :
  valid_binary prec emax x = true -> valid_binary prec emax y = true ->
  is_finite x = true -> is_finite y = true ->
  SFcompare x y = Some (val x ?= val y).
Proof.
  intros Vx Vy Fx Fy.
  destruct x as [sx|sx| |sx mx ex], y as [sy|sy| |sy my ey];
    try discriminate; cbn [SFcompare scaled cond_Zopp].
  - reflexivity.
  - destruct (valid_finite _ _ _ Vy) as [Cy _].
    destruct (canonical_shape my ey Cy) as (Ey & _).
    pose proof (pow2_pos (ey - emin) ltac:(lia)) as P.
    f_equal. symmetry. destruct sy; cbn [cond_Zopp].
    + apply Z.compare_gt_iff. nia.
    + apply Z.compare_lt_iff. nia.
  - destruct (valid_finite _ _ _ Vx) as [Cx _].
    destruct (canonical_shape mx ex Cx) as (Ex & _).
    pose proof (pow2_pos (ex - emin) ltac:(lia)) as P.
    f_equal. symmetry. destruct sx; cbn [cond_Zopp].
    + apply Z.compare_lt_iff. nia.
    + apply Z.compare_gt_iff. nia.
  - destruct (valid_finite _ _ _ Vx) as [Cx _].
    destruct (valid_finite _ _ _ Vy) as [Cy _].
    destruct (canonical_shape mx ex Cx) as (Ex & _).
    destruct (canonical_shape my ey Cy) as (Ey & _).
    pose proof (pow2_pos (ex - emin) ltac:(lia)) as Px.
    pose proof (pow2_pos (ey - emin) ltac:(lia)) as Py.
    f_equal. destruct sx, sy; cbn [cond_Zopp].
    + rewrite Z.compare_opp.
      rewrite <- (scaled_pos_compare my mx ey ex Cy Cx).
      rewrite (Z.compare_antisym ex ey).
      destruct (ex ?= ey); cbn [CompOpp]; try reflexivity.
      change (Pos.compare_cont Eq mx my) with (mx ?= my)%positive.
      change (Pos.compare_cont Eq my mx) with (my ?= mx)%positive.
      now rewrite (Pos.compare_antisym my mx), CompOpp_involutive.
    + symmetry. apply Z.compare_lt_iff. nia.
    + symmetry. apply Z.compare_gt_iff. nia.
    + now apply scaled_pos_compare.
Qed.

(** *** Subtraction *)

Lemma cond_Zopp_mul (s : bool) (a c : Z) :
  cond_Zopp s a * c = cond_Zopp s (a * c).
Proof. destruct s; cbn [cond_Zopp]; lia. Qed.

(** The difference of two valid finite floats: zero when they have the same
    value, and otherwise the rounding of the exact difference. *)
Lemma SFsub_spec (x y : spec_float) :
  valid_binary prec emax x = true -> valid_binary prec emax y = true ->
  is_finite x = true -> is_finite y = true ->
  (val x - val y = 0 -> exists s, SFsub prec emax x y = S754_zero s) /\
  (0 < val x - val y ->
   exists (m2 : positive) (e2 : Z),
     emin <= e2 /\
     Zpos m2 * 2 ^ (e2 - emin) = rnd prec (val x - val y) /\
     fexp (Zpos (digits2_pos m2) + e2) = e2 /\
     SFsub prec emax x y
     = if e2 <=? emax - prec then S754_finite false m2 e2
       else S754_infinity false).
Proof.
  intros Vx Vy Fx Fy.
  destruct x as [sx|sx| |sx mx ex], y as [sy|sy| |sy my ey];
    try discriminate; cbn [SFsub scaled].
  - split; [|lia]. intros _. destruct sx, sy; eexists; reflexivity.
  - destruct (valid_finite _ _ _ Vy) as [Cy By].
    destruct (canonical_shape my ey Cy) as (Ey & _).
    pose proof (pow2_pos (ey - emin) ltac:(lia)) as P.
    split; intros HN.
    + destruct sy; cbn [cond_Zopp] in HN; nia.
    + destruct sy; cbn [cond_Zopp] in HN; [|nia].
      exists my, ey. cbn [negb cond_Zopp].
      replace (0 - - (Zpos my * 2 ^ (ey - emin)))
        with (Zpos my * 2 ^ (ey - emin)) by lia.
      rewrite rnd_canonical by assumption.
      repeat split; try assumption.
      now apply Z.leb_le in By as ->.
  - destruct (valid_finite _ _ _ Vx) as [Cx Bx].
    destruct (canonical_shape mx ex Cx) as (Ex & _).
    pose proof (pow2_pos (ex - emin) ltac:(lia)) as P.
    rewrite Z.sub_0_r. split; intros HN.
    + destruct sx; cbn [cond_Zopp] in HN; nia.
    + destruct sx; cbn [cond_Zopp] in HN; [nia|].
      exists mx, ex. cbn [cond_Zopp].
      rewrite rnd_canonical by assumption.
      repeat split; try assumption.
      now apply Z.leb_le in Bx as ->.
  - destruct (valid_finite _ _ _ Vx) as [Cx _].
    destruct (valid_finite _ _ _ Vy) as [Cy _].
    destruct (canonical_shape mx ex Cx) as (Ex & _).
    destruct (canonical_shape my ey Cy) as (Ey & _).
    set (ez := Z.min ex ey).
    assert (Hez : emin <= ez) by lia.
    rewrite !shl_align_value by lia. cbn [fst].
    pose proof (pow2_pos (ex - ez) ltac:(lia)) as Px.
    pose proof (pow2_pos (ey - ez) ltac:(lia)) as Py.
    pose proof (pow2_pos (ez - emin) ltac:(lia)) as Pz.
    rewrite !Z2Pos.id by nia.
    set (D := cond_Zopp sx (Zpos mx * 2 ^ (ex - ez))
              - cond_Zopp sy (Zpos my * 2 ^ (ey - ez))).
    assert (HD : D * 2 ^ (ez - emin)
                 = cond_Zopp sx (Zpos mx * 2 ^ (ex - emin))
                   - cond_Zopp sy (Zpos my * 2 ^ (ey - emin))).
    { subst D. rewrite Z.mul_sub_distr_r, !cond_Zopp_mul.
      rewrite <- !Z.mul_assoc, <- !Z.pow_add_r by lia.
      now replace (ex - ez + (ez - emin)) with (ex - emin) by lia;
        replace (ey - ez + (ez - emin)) with (ey - emin) by lia. }
    rewrite <- HD. split; intros HN.
    + assert (D = 0) as -> by nia. now exists false.
    + destruct D as [|D'|D'] eqn:HDe; try nia.
      cbn [binary_normalize]. now apply binary_round_spec.
Qed.

(** *** Division of a smaller by a larger positive float *)

Hypothesis emin_neg : emin < 0.
Hypothesis prec_le_emax : prec <= emax.

Lemma fexp_nonpos (x : Z) : x <= 0 -> fexp x <= -1.
Proof. unfold SpecFloat.fexp. lia. Qed.

Lemma div_eucl_div_mod (a b : Z) :
  Z.div_eucl a b = (a / b, a mod b).
Proof. unfold Z.div, Z.modulo. now destruct (Z.div_eucl a b). Qed.

Lemma SFdiv_lt_one (ma md : positive) (ea ed : Z) :
  emin <= ea -> emin <= ed ->
  Zpos ma * 2 ^ (ea - emin) < Zpos md * 2 ^ (ed - emin) ->
  SFdiv prec emax (S754_finite false ma ea) (S754_finite false md ed)
  = S754_zero false \/
  exists (mq : positive) (eq : Z),
    SFdiv prec emax (S754_finite false ma ea) (S754_finite false md ed)
    = S754_finite false mq eq /\
    eq <= 0 /\ Zpos mq <= 2 ^ (- eq).
Proof.
  intros Ea Ed Hlt.
  unfold SFdiv, SFdiv_core_binary. cbn [Zdigits2 xorb].
  set (da := Zpos (digits2_pos ma)). set (dd := Zpos (digits2_pos md)).
  set (nu := da + ea - (dd + ed)).
  set (e' := Z.min (fexp nu) (ea - ed)).
  set (s := ea - ed - e').
  assert (Hs : 0 <= s) by lia.
  pose proof (digits2_pos_bounds ma) as [La Ua]. fold da in La, Ua.
  pose proof (digits2_pos_bounds md) as [Ld Ud]. fold dd in Ld, Ud.
  assert (Hda : 0 < da) by (subst da; lia).
  assert (Hdd : 0 < dd) by (subst dd; lia).
  pose proof (pow2_pos (ea - emin) ltac:(lia)) as Pa.
  pose proof (pow2_pos (ed - emin) ltac:(lia)) as Pd.
  (* the magnitudes *)
  assert (Hnu : nu <= 0).
  { assert (2 ^ (da - 1 + (ea - emin)) < 2 ^ (dd + (ed - emin))).
    { rewrite !Z.pow_add_r by lia. nia. }
    apply Z.pow_lt_mono_r_iff in H; lia. }
  assert (He' : e' <= -1).
  { pose proof (fexp_mono nu 0 Hnu). pose proof (fexp_nonpos 0 ltac:(lia)). lia. }
  set (M' := match s with
             | 0 => Zpos ma
             | Zpos _ => Z.shiftl (Zpos ma) s
             | Zneg _ => 0
             end).
  assert (HM' : M' = Zpos ma * 2 ^ s).
  { assert (G : forall z, 0 <= z ->
                 match z with
                 | 0 => Zpos ma
                 | Zpos _ => Z.shiftl (Zpos ma) z
                 | Zneg _ => 0
                 end = Zpos ma * 2 ^ z).
    { intros [|p|p] Hz; try lia. apply Z.shiftl_mul_pow2. lia. }
    exact (G s Hs). }
  pose proof (pow2_pos s Hs) as Ps.
  pose proof (pow2_pos (- e') ltac:(lia)) as Pe.
  rewrite div_eucl_div_mod. set (Q := M' / Zpos md).
  assert (HQ0 : 0 <= Q) by (apply Z.div_pos; lia).
  assert (HT : M' < Zpos md * 2 ^ (- e')).
  { rewrite HM'.
    assert (X : 2 ^ s * 2 ^ (ed - emin) = 2 ^ (ea - emin) * 2 ^ (- e')).
    { rewrite <- !Z.pow_add_r by lia. f_equal. lia. }
    nia. }
  assert (HQ : Q < 2 ^ (- e')) by (apply Z.div_lt_upper_bound; lia).
  assert (Hpre : e' <= fexp (Zdigits2 Q + e')).
  { destruct (Z.le_gt_cases e' emin) as [Hc|Hc].
    - pose proof (fexp_ge_emin (Zdigits2 Q + e')). lia.
    - assert (Hfn : fexp nu = nu - prec) by (unfold SpecFloat.fexp in *; lia).
      assert (Hsl : dd - da + prec <= s) by lia.
      assert (HQl : 2 ^ (da + s - dd - 1) <= Q).
      { apply Z.div_le_lower_bound; [lia|]. rewrite HM'.
        apply Z.le_trans with (2 ^ dd * 2 ^ (da + s - dd - 1)).
        - pose proof (pow2_pos (da + s - dd - 1) ltac:(lia)). nia.
        - rewrite <- Z.pow_add_r by lia.
          replace (dd + (da + s - dd - 1)) with (da - 1 + s) by lia.
          rewrite Z.pow_add_r by lia. nia. }
      assert (HQp : 0 < Q).
      { pose proof (pow2_pos (da + s - dd - 1) ltac:(lia)). lia. }
      pose proof (Zdigits2_ge Q (da + s - dd) HQl HQp) as Hdg.
      pose proof (fexp_mono nu (Zdigits2 Q + e') ltac:(lia)). lia. }
  destruct (binary_round_aux_spec false Q e' (new_location (Zpos md) (M' mod Zpos md))
              HQ0 Hpre) as (m1 & [_ Hm1] & _ & Hres).
  set (t := fexp (Zdigits2 Q + e')) in *.
  assert (Ht : t <= -1).
  { pose proof (Zdigits2_le Q (- e') ltac:(lia) ltac:(lia)).
    pose proof (fexp_mono (Zdigits2 Q + e') 0 ltac:(lia)).
    pose proof (fexp_nonpos 0 ltac:(lia)). lia. }
  pose proof (pow2_pos (t - e') ltac:(lia)) as Pk.
  pose proof (pow2_pos (- t) ltac:(lia)) as Pt.
  assert (Hb : m1 <= 2 ^ (- t)).
  { assert (Q / 2 ^ (t - e') < 2 ^ (- t)); [|lia].
    apply Z.div_lt_upper_bound; [lia|].
    rewrite <- Z.pow_add_r by lia.
    now replace (t - e' + - t) with (- e') by lia. }
  destruct Hres as [[_ Hz]|(Hp & m2 & e2 & Hle & Hval & _ & Hr)];
    [now left|right].
  pose proof (pow2_pos (e2 - t) ltac:(lia)) as P2.
  assert (He2 : e2 <= 0).
  { destruct (Z.le_gt_cases e2 0); [assumption|].
    assert (2 ^ (1 - t) <= 2 ^ (e2 - t)) by (apply Z.pow_le_mono_r; lia).
    replace (1 - t) with (1 + - t) in H0 by lia.
    rewrite Z.pow_add_r, Z.pow_1_r in H0 by lia. nia. }
  exists m2, e2. rewrite Hr.
  replace (e2 <=? emax - prec) with true by (symmetry; apply Z.leb_le; lia).
  split; [reflexivity|]. split; [assumption|].
  assert (X : 2 ^ (- t) = 2 ^ (- e2) * 2 ^ (e2 - t)).
  { rewrite <- Z.pow_add_r by lia. f_equal. lia. }
  pose proof (pow2_pos (- e2) ltac:(lia)). nia.
Qed.

(** *** Multiplication of a float of at most 1 by a constant *)

Lemma SFmul_le_const (mq mc : positive) (eq ec C w : Z) :
  eq <= 0 -> Zpos mq <= 2 ^ (- eq) ->
  ec <= 0 -> Zpos mc = C * 2 ^ (- ec) -> 2 ^ (prec - 1) <= Zpos mc ->
  C < 2 ^ w -> 0 <= w <= prec -> w <= emax - prec ->
  SFmul prec emax (S754_finite false mq eq) (S754_finite false mc ec)
  = S754_zero false \/
  exists (mp : positive) (ep t : Z),
    SFmul prec emax (S754_finite false mq eq) (S754_finite false mc ec)
    = S754_finite false mp ep /\
    t <= ep /\ t <= 0 /\ Zpos mp * 2 ^ (ep - t) <= C * 2 ^ (- t).
Proof.
  intros Heq Hmq Hec Hmc Hnorm HC Hw Hov.
  cbn [SFmul xorb]. rewrite Pos2Z.inj_mul.
  set (M := Zpos mq * Zpos mc). set (E := eq + ec).
  assert (HM0 : 0 < M) by (subst M; lia).
  pose proof (pow2_pos (- eq) ltac:(lia)) as Pq.
  pose proof (pow2_pos (- ec) ltac:(lia)) as Pc.
  pose proof (pow2_pos (- E) ltac:(lia)) as PE.
  assert (HC0 : 0 < C) by nia.
  assert (HME : M <= C * 2 ^ (- E)).
  { subst M E. replace (- (eq + ec)) with (- eq + - ec) by lia.
    rewrite Z.pow_add_r, Hmc by lia. nia. }
  assert (Hdl : prec <= Zdigits2 M).
  { apply Zdigits2_ge; [subst M; nia|assumption]. }
  assert (Hdu : Zdigits2 M <= w - E).
  { apply Zdigits2_le; [lia|]. split; [lia|].
    replace (w - E) with (w + - E) by lia.
    rewrite Z.pow_add_r by lia. pose proof (pow2_pos w ltac:(lia)). nia. }
  assert (Hpre : E <= fexp (Zdigits2 M + E)) by (unfold SpecFloat.fexp; lia).
  destruct (binary_round_aux_spec false M E loc_Exact ltac:(lia) Hpre)
    as (m1 & _ & Hex & Hres).
  set (t := fexp (Zdigits2 M + E)) in *.
  specialize (Hex eq_refl).
  assert (Ht : t <= 0) by (subst t; unfold SpecFloat.fexp; lia).
  pose proof (pow2_pos (- t) ltac:(lia)) as Pt.
  pose proof (pow2_pos (t - E) ltac:(lia)) as Pk.
  assert (Hb : m1 <= C * 2 ^ (- t)).
  { rewrite Hex. apply rne_le_multiple; [lia|].
    rewrite <- Z.mul_assoc, <- Z.pow_add_r by lia.
    now replace (- t + (t - E)) with (- E) by lia. }
  destruct Hres as [[_ Hz]|(Hp & m2 & e2 & Hle & Hval & _ & Hr)];
    [now left|right].
  pose proof (pow2_pos (e2 - t) ltac:(lia)) as P2.
  assert (He2 : e2 < w).
  { assert (H : 2 ^ (e2 - t) < 2 ^ (w - t)).
    { replace (w - t) with (w + - t) by lia.
      rewrite (Z.pow_add_r 2 w) by lia.
      pose proof (pow2_pos w ltac:(lia)). nia. }
    apply Z.pow_lt_mono_r_iff in H; lia. }
  exists m2, e2, t. rewrite Hr.
  replace (e2 <=? emax - prec) with true by (symmetry; apply Z.leb_le; lia).
  repeat split; try assumption. lia.
Qed.

End Round.

Lemma SF2Q_pos_exp (m : Z) (e : Z) :
  0 <= e -> (inject_Z m * 2 ^ e == inject_Z (m * 2 ^ e))%Q.
Proof.
  intros He. rewrite inject_Z_mult, Zpower_Qpower by assumption. reflexivity.
Qed.

Lemma SF2Q_neg_exp (m : Z) (p : positive) :
  (inject_Z m * 2 ^ Zneg p == inject_Z m / inject_Z (2 ^ Zpos p))%Q.
Proof.
  change (Zneg p) with (- Zpos p).
  rewrite Qpower_opp, Zpower_Qpower by lia. reflexivity.
Qed.

(** The integer part of a non-negative float is the floor of its value. *)
Lemma trunc_floor (x : spec_float) (q : Q) :
  SF2Q x = Some q -> (0 <= q)%Q -> trunc x = Some (Qfloor q).
Proof.
  destruct x as [s|s| |s m e]; try discriminate; intros [= <-] Hq.
  - reflexivity.
  - cbn [trunc]. f_equal.
    assert (s = false) as ->.
    { destruct s; [|reflexivity]. exfalso. cbn [cond_Zopp] in Hq.
      assert (H2 : (0 < 2 ^ e)%Q) by (apply Qpower_0_lt; reflexivity).
      assert (Hm : (inject_Z (- Zpos m) < 0)%Q) by reflexivity.
      apply (Qlt_irrefl 0). eapply Qle_lt_trans; [exact Hq|].
      rewrite <- (Qmult_0_l (2 ^ e)). apply Qmult_lt_compat_r; assumption. }
    cbn [cond_Zopp]. destruct e as [|p|p].
    + rewrite (Qfloor_comp _ _ (SF2Q_pos_exp (Zpos m) 0 ltac:(lia))).
      rewrite Qfloor_Z. apply Z.shiftl_mul_pow2. lia.
    + rewrite (Qfloor_comp _ _ (SF2Q_pos_exp (Zpos m) (Zpos p) ltac:(lia))).
      rewrite Qfloor_Z. apply Z.shiftl_mul_pow2. lia.
    + rewrite (Qfloor_comp _ _ (SF2Q_neg_exp (Zpos m) p)).
      rewrite <- Zdiv_Qdiv. apply Z.shiftr_div_pow2. lia.
Qed.

Lemma astype_uint16_floor (x : spec_float) (q : Q) :
  SF2Q x = Some q -> (0 <= q)%Q -> (q < 65536)%Q ->
  astype_uint16 x = Qfloor q.
Proof.
  intros Hx H0 H1. unfold astype_uint16.
  rewrite (trunc_floor x q Hx H0).
  assert (0 <= Qfloor q).
  { rewrite <- (Qfloor_Z 0). now apply Qfloor_resp_le. }
  assert (Qfloor q < 65536).
  { destruct (Z.ltb_spec (Qfloor q) 65536) as [|Hge]; [assumption|].
    exfalso. apply (Qlt_irrefl q). eapply Qlt_le_trans; [exact H1|].
    eapply Qle_trans; [|apply Qfloor_le].
    change 65536%Q with (inject_Z 65536). rewrite <- Zle_Qle. exact Hge. }
  replace ((- 2 ^ 31 <=? Qfloor q) && (Qfloor q <? 2 ^ 31)) with true.
  - apply Z.mod_small. lia.
  - symmetry. apply andb_true_intro. split; [apply Z.leb_le|apply Z.ltb_lt]; lia.
Qed.

(** * The sample normalizer: integer and constant arrays *)

(** C9: an array of integer element type passes through the normalizer
    unchanged. *)
Theorem normalize_integer_identity
  (data : ndarray) (k : int_kind)
  (Hint : dtype_of data = DInt k) :
  normalize data = Ok data.
Proof.
  unfold normalize. unfold dtype_of in Hint.
  destruct (buf data); [reflexivity|discriminate].
Qed.

Lemma normalize_integer_identity_witness :
  normalize {| shape := [2%nat]; buf := IntBuf Int32 [-7; 70000] |}
  = Ok {| shape := [2%nat]; buf := IntBuf Int32 [-7; 70000] |}.
Proof.
  apply (normalize_integer_identity
           {| shape := [2%nat]; buf := IntBuf Int32 [-7; 70000] |} Int32).
  reflexivity.
Defined.

Lemma SFcompare_refl x :
  SFcompare x x = Some Eq \/ SFcompare x x = None.
Proof.
  destruct x as [s|s| |s m e]; simpl; auto; destruct s; auto;
    rewrite Z.compare_refl, Pos.compare_cont_refl; auto.
Qed.

Lemma SFltb_irrefl x : SFltb x x = false.
Proof.
  unfold SFltb. now destruct (SFcompare_refl x) as [-> | ->].
Qed.

Lemma scalar_min_idem v : scalar_min v v = v.
Proof. unfold scalar_min. now destruct (_ || _). Qed.

Lemma scalar_max_idem v : scalar_max v v = v.
Proof. unfold scalar_max. now destruct (_ || _). Qed.

Lemma amin_repeat v n : amin (repeat v (S n)) = Ok v.
Proof.
  simpl. f_equal. induction n as [|n IH]; simpl; [reflexivity|].
  now rewrite scalar_min_idem.
Qed.

Lemma amax_repeat v n : amax (repeat v (S n)) = Ok v.
Proof.
  simpl. f_equal. induction n as [|n IH]; simpl; [reflexivity|].
  now rewrite scalar_max_idem.
Qed.

Lemma map_repeat {A B} (f : A -> B) v n :
  map f (repeat v n) = repeat (f v) n.
Proof. induction n; simpl; congruence. Qed.

(** C4: on a constant float array (minimum equal to maximum) the
    normalizer raises nothing and divides nothing: the rescaling branch is
    skipped and every sample is cast directly, so the output is constant;
    3.5 everywhere gives 3 everywhere. *)
Theorem normalize_constant_array :
  (forall (k : float_kind) (sh : list nat) (v : spec_float) (n : nat),
      normalize {| shape := sh; buf := FloatBuf k (repeat v (S n)) |}
      = Ok {| shape := sh;
              buf := IntBuf UInt16 (repeat (astype_uint16 v) (S n)) |})
  /\ normalize (arr64 [f64 7 (-1); f64 7 (-1); f64 7 (-1)])
     = Ok {| shape := [3%nat]; buf := IntBuf UInt16 [3; 3; 3] |}.
Proof.
  split; [|reflexivity].
  intros k sh v n. unfold normalize. cbn [buf shape].
  rewrite amin_repeat, amax_repeat. cbn [bind].
  now rewrite SFltb_irrefl, map_repeat.
Qed.

(** * The rescaled samples *)

Lemma kind_prec_pos k : 0 < prec k.
Proof. now destruct k. Qed.

Lemma kind_emin_neg k : emin (prec k) (emax k) < 0.
Proof. now destruct k. Qed.

Lemma kind_prec_le_emax k : prec k <= emax k.
Proof. destruct k; cbn; lia. Qed.

Lemma SFleb_value k x y :
  valid_sample k x -> valid_sample k y ->
  is_finite x = true -> is_finite y = true ->
  SFleb x y = (value k x <=? value k y).
Proof.
  intros Vx Vy Fx Fy. unfold SFleb.
  rewrite (SFcompare_scaled (prec k) (emax k) (kind_prec_pos k) x y Vx Vy Fx Fy).
  unfold Z.leb, value. now destruct (_ ?= _).
Qed.

Lemma SFltb_value k x y :
  valid_sample k x -> valid_sample k y ->
  is_finite x = true -> is_finite y = true ->
  SFltb x y = (value k x <? value k y).
Proof.
  intros Vx Vy Fx Fy. unfold SFltb.
  rewrite (SFcompare_scaled (prec k) (emax k) (kind_prec_pos k) x y Vx Vy Fx Fy).
  unfold Z.ltb, value. now destruct (_ ?= _).
Qed.

Lemma is_finite_not_nan x : is_finite x = true -> is_nan x = false.
Proof. now destruct x. Qed.

Lemma fold_scalar_min_least k rest : forall x,
  sample k x -> Forall (sample k) rest ->
  sample k (fold_left scalar_min rest x) /\
  forall v, In v (x :: rest) ->
            value k (fold_left scalar_min rest x) <= value k v.
Proof.
  induction rest as [|y rest IH]; intros x Hx Hr.
  - split; [assumption|]. intros v [<-|[]]. cbn. lia.
  - apply List.Forall_cons_iff in Hr as [Hy Hr]. cbn [fold_left].
    assert (Hm : sample k (scalar_min x y) /\
                 value k (scalar_min x y) <= value k x /\
                 value k (scalar_min x y) <= value k y).
    { unfold scalar_min. destruct Hx as [Vx Fx], Hy as [Vy Fy].
      rewrite (SFleb_value k x y Vx Vy Fx Fy), (is_finite_not_nan x Fx), orb_false_r.
      destruct (Z.leb_spec (value k x) (value k y));
        (split; [split; assumption|lia]). }
    destruct Hm as (Hs & H1 & H2).
    destruct (IH _ Hs Hr) as [Hs' Hl]. split; [assumption|].
    intros v [<-|[<-|Hv]].
    + specialize (Hl _ (or_introl eq_refl)). lia.
    + specialize (Hl _ (or_introl eq_refl)). lia.
    + apply Hl. now right.
Qed.

Lemma fold_scalar_max_greatest k rest : forall x,
  sample k x -> Forall (sample k) rest ->
  sample k (fold_left scalar_max rest x) /\
  forall v, In v (x :: rest) ->
            value k v <= value k (fold_left scalar_max rest x).
Proof.
  induction rest as [|y rest IH]; intros x Hx Hr.
  - split; [assumption|]. intros v [<-|[]]. cbn. lia.
  - apply List.Forall_cons_iff in Hr as [Hy Hr]. cbn [fold_left].
    assert (Hm : sample k (scalar_max x y) /\
                 value k x <= value k (scalar_max x y) /\
                 value k y <= value k (scalar_max x y)).
    { unfold scalar_max. destruct Hx as [Vx Fx], Hy as [Vy Fy].
      rewrite (SFleb_value k y x Vy Vx Fy Fx), (is_finite_not_nan x Fx), orb_false_r.
      destruct (Z.leb_spec (value k y) (value k x));
        (split; [split; assumption|lia]). }
    destruct Hm as (Hs & H1 & H2).
    destruct (IH _ Hs Hr) as [Hs' Hl]. split; [assumption|].
    intros v [<-|[<-|Hv]].
    + specialize (Hl _ (or_introl eq_refl)). lia.
    + specialize (Hl _ (or_introl eq_refl)). lia.
    + apply Hl. now right.
Qed.

Lemma amin_least k xs mn :
  Forall (sample k) xs -> amin xs = Ok mn ->
  sample k mn /\ forall v, In v xs -> value k mn <= value k v.
Proof.
  destruct xs as [|x rest]; [discriminate|]. intros Hs [= <-].
  apply List.Forall_cons_iff in Hs as [Hx Hr].
  now apply fold_scalar_min_least.
Qed.

Lemma amax_greatest k xs mx :
  Forall (sample k) xs -> amax xs = Ok mx ->
  sample k mx /\ forall v, In v xs -> value k v <= value k mx.
Proof.
  destruct xs as [|x rest]; [discriminate|]. intros Hs [= <-].
  apply List.Forall_cons_iff in Hs as [Hx Hr].
  now apply fold_scalar_max_greatest.
Qed.

Lemma of_Z_65535_shape k :
  exists (mc : positive) (ec : Z),
    of_Z k 65535 = S754_finite false mc ec /\
    ec <= 0 /\ Zpos mc = 65535 * 2 ^ (- ec) /\
    2 ^ (prec k - 1) <= Zpos mc /\
    16 <= prec k /\ 16 <= emax k - prec k.
Proof.
  destruct k; eexists _, _; (split; [reflexivity|]);
    repeat split; try (intros H; discriminate H); reflexivity.
Qed.

Lemma rescale_one k :
  exists (mp : positive) (ep : Z),
    fmul k (of_Z k 1) (of_Z k 65535) = S754_finite false mp ep /\
    ep <= 0 /\ Zpos mp * 2 ^ (ep - ep) <= 65535 * 2 ^ (- ep).
Proof.
  destruct k; eexists _, _; (split; [reflexivity|]);
    split; intros H; discriminate H.
Qed.

(** The rescaled sample is a zero, or a positive float of value at most
    65535. *)
Lemma rescale_cases k mn mx v :
  sample k mn -> sample k mx -> sample k v ->
  value k mn <= value k v <= value k mx ->
  value k mn < value k mx ->
  is_finite (fsub k mx mn) = true ->
  (exists s, rescale k mn mx v = S754_zero s) \/
  exists (mp : positive) (ep t : Z),
    rescale k mn mx v = S754_finite false mp ep /\
    t <= ep /\ t <= 0 /\ Zpos mp * 2 ^ (ep - t) <= 65535 * 2 ^ (- t).
Proof.
  intros [Vn Fn] [Vx Fx] [Vv Fv] [Hlo Hhi] Hlt Hfin.
  pose proof (kind_prec_pos k) as Pp.
  destruct (of_Z_65535_shape k) as (mc & ec & Hc & Hec & Hmc & Hnorm & H16 & Hov).
  unfold value in *.
  destruct (SFsub_spec (prec k) (emax k) Pp mx mn Vx Vn Fx Fn) as [_ Hd].
  destruct (Hd ltac:(lia)) as (md & ed & Ed & Hdv & Cd & Hdr). clear Hd.
  fold (fsub k mx mn) in Hdr.
  assert (Bd : ed <= emax k - prec k).
  { destruct (Z.leb_spec ed (emax k - prec k)); [assumption|].
    rewrite Hdr in Hfin. discriminate. }
  apply Z.leb_le in Bd as Bd'. rewrite Bd' in Hdr. clear Bd'.
  destruct (SFsub_spec (prec k) (emax k) Pp v mn Vv Vn Fv Fn) as [Ha0 Ha].
  fold (fsub k v mn) in Ha0, Ha.
  unfold rescale. rewrite Hdr, Hc.
  destruct (Z.eq_dec (scaled (prec k) (emax k) v - scaled (prec k) (emax k) mn) 0)
    as [Hz|Hnz].
  - left. destruct (Ha0 Hz) as [s ->]. now exists (xorb (xorb s false) false).
  - destruct (Ha ltac:(lia)) as (ma & ea & Ea & Hav & Ca & Har). clear Ha Ha0.
    assert (Hle : Zpos ma * 2 ^ (ea - emin (prec k) (emax k))
                  <= Zpos md * 2 ^ (ed - emin (prec k) (emax k))).
    { rewrite Hav, Hdv. apply rnd_mono; [assumption|lia|lia]. }
    assert (Hea : ea <= ed).
    { destruct (Z.le_gt_cases ea ed); [assumption|].
      pose proof (scaled_lt_exp (prec k) (emax k) Pp md ma ed ea Cd Ca ltac:(lia)).
      lia. }
    replace (ea <=? emax k - prec k) with true in Har
      by (symmetry; apply Z.leb_le; lia).
    rewrite Har.
    destruct (Z.eq_dec (Zpos ma * 2 ^ (ea - emin (prec k) (emax k)))
                       (Zpos md * 2 ^ (ed - emin (prec k) (emax k))))
      as [Heq|Hne].
    + assert (ea = ed).
      { destruct (Z.eq_dec ea ed); [assumption|].
        pose proof (scaled_lt_exp (prec k) (emax k) Pp ma md ea ed Ca Cd ltac:(lia)).
        lia. }
      subst ea.
      assert (ma = md).
      { pose proof (pow2_pos (ed - emin (prec k) (emax k)) ltac:(lia)).
        apply Pos2Z.inj. nia. }
      subst ma. rewrite fdiv_self, <- Hc.
      destruct (rescale_one k) as (mp & ep & -> & Hep & Hb).
      right. exists mp, ep, ep. repeat split; try assumption; lia.
    + destruct (SFdiv_lt_one (prec k) (emax k) Pp (kind_emin_neg k)
                  (kind_prec_le_emax k) ma md ea ed Ea Ed ltac:(lia))
        as [Hq|(mq & eq & Hq & Heq & Hmq)];
        fold (fdiv k (S754_finite false ma ea) (S754_finite false md ed)) in Hq;
        rewrite Hq.
      * left. now exists false.
      * destruct (SFmul_le_const (prec k) (emax k) Pp (kind_emin_neg k) mq mc eq ec 65535 16
                    Heq Hmq Hec Hmc Hnorm ltac:(cbn; lia) ltac:(lia) Hov)
          as [Hp|(mp & ep & t & Hp & H1 & H2 & H3)];
          fold (fmul k (S754_finite false mq eq) (S754_finite false mc ec)) in Hp;
          rewrite Hp.
        -- left. now exists false.
        -- right. now exists mp, ep, t.
Qed.

Lemma Qpower_2_split (a b : Z) : (2 ^ (a + b) == 2 ^ a * 2 ^ b)%Q.
Proof. apply Qpower_plus. discriminate. Qed.

Lemma Q_bound (m C e t : Z) :
  t <= e -> 0 <= m ->
  m * 2 ^ (e - t) <= C * 2 ^ (- t) -> t <= 0 ->
  (inject_Z m * 2 ^ e <= inject_Z C)%Q.
Proof.
  intros Hte Hm Hb Ht.
  assert (P : (0 < 2 ^ t)%Q) by (apply Qpower_0_lt; reflexivity).
  assert (L : (inject_Z m * 2 ^ e == inject_Z (m * 2 ^ (e - t)) * 2 ^ t)%Q).
  { rewrite inject_Z_mult, Zpower_Qpower by lia.
    replace e with (e - t + t) at 1 by lia.
    rewrite Qpower_2_split. change (inject_Z 2) with 2%Q. ring. }
  assert (R : (inject_Z C == inject_Z (C * 2 ^ (- t)) * 2 ^ t)%Q).
  { rewrite inject_Z_mult, Zpower_Qpower by lia.
    change (inject_Z 2) with 2%Q.
    rewrite <- Qmult_assoc, <- Qpower_2_split.
    replace (- t + t) with 0 by lia. change (2 ^ 0)%Q with 1%Q. ring. }
  rewrite L, R. apply Qmult_le_compat_r; [|now apply Qlt_le_weak].
  now rewrite <- Zle_Qle.
Qed.

(** The rescaled sample has a value in [0, 65535]. *)
Lemma rescale_value k mn mx v :
  sample k mn -> sample k mx -> sample k v ->
  value k mn <= value k v <= value k mx ->
  value k mn < value k mx ->
  is_finite (fsub k mx mn) = true ->
  exists q, SF2Q (rescale k mn mx v) = Some q /\
            (0 <= q)%Q /\ (q <= 65535)%Q.
Proof.
  intros Hn Hx Hv Hb Hlt Hfin.
  destruct (rescale_cases k mn mx v Hn Hx Hv Hb Hlt Hfin)
    as [[s ->]|(mp & ep & t & -> & H1 & H2 & H3)].
  - exists 0%Q. repeat split; discriminate.
  - eexists. split; [reflexivity|]. cbn [cond_Zopp]. split.
    + apply Qmult_le_0_compat; [discriminate|].
      apply Qlt_le_weak, Qpower_0_lt. reflexivity.
    + change 65535%Q with (inject_Z 65535).
      apply (Q_bound (Zpos mp) 65535 ep t); lia.
Qed.

Lemma fold_scalar_min_In rest : forall x,
  In (fold_left scalar_min rest x) (x :: rest).
Proof.
  induction rest as [|y rest IH]; intros x; [now left|].
  cbn [fold_left]. destruct (IH (scalar_min x y)) as [H|H].
  - rewrite <- H. unfold scalar_min. destruct (_ || _); simpl; auto.
  - right. now right.
Qed.

Lemma fold_scalar_max_In rest : forall x,
  In (fold_left scalar_max rest x) (x :: rest).
Proof.
  induction rest as [|y rest IH]; intros x; [now left|].
  cbn [fold_left]. destruct (IH (scalar_max x y)) as [H|H].
  - rewrite <- H. unfold scalar_max. destruct (_ || _); simpl; auto.
  - right. now right.
Qed.

Lemma amin_In xs mn : amin xs = Ok mn -> In mn xs.
Proof.
  destruct xs as [|x rest]; [discriminate|]. intros [= <-].
  apply fold_scalar_min_In.
Qed.

Lemma amax_In xs mx : amax xs = Ok mx -> In mx xs.
Proof.
  destruct xs as [|x rest]; [discriminate|]. intros [= <-].
  apply fold_scalar_max_In.
Qed.

(** An infinity or a NaN among the samples reaches the minimum or the
    maximum. *)
Lemma scalar_min_spoiled a b :
  spoils_min a || spoils_min b = true -> spoils_min (scalar_min a b) = true.
Proof.
  unfold scalar_min.
  destruct a as [[]|[]| |[] ? ?], b as [[]|[]| |[] ? ?]; cbn; intros H;
    try discriminate; reflexivity.
Qed.

Lemma scalar_max_spoiled a b :
  spoils_max a || spoils_max b = true -> spoils_max (scalar_max a b) = true.
Proof.
  unfold scalar_max.
  destruct a as [[]|[]| |[] ? ?], b as [[]|[]| |[] ? ?]; cbn; intros H;
    try discriminate; reflexivity.
Qed.

Lemma fold_scalar_min_spoiled rest : forall x,
  spoils_min x = true \/ Exists (fun v => spoils_min v = true) rest ->
  spoils_min (fold_left scalar_min rest x) = true.
Proof.
  induction rest as [|y rest IH]; intros x [Hx|Hr]; cbn [fold_left].
  - assumption.
  - inversion Hr.
  - apply IH. left. apply scalar_min_spoiled. now rewrite Hx.
  - apply IH. apply List.Exists_cons in Hr as [Hy|Hr]; [left|now right].
    apply scalar_min_spoiled. rewrite Hy. apply orb_true_r.
Qed.

Lemma fold_scalar_max_spoiled rest : forall x,
  spoils_max x = true \/ Exists (fun v => spoils_max v = true) rest ->
  spoils_max (fold_left scalar_max rest x) = true.
Proof.
  induction rest as [|y rest IH]; intros x [Hx|Hr]; cbn [fold_left].
  - assumption.
  - inversion Hr.
  - apply IH. left. apply scalar_max_spoiled. now rewrite Hx.
  - apply IH. apply List.Exists_cons in Hr as [Hy|Hr]; [left|now right].
    apply scalar_max_spoiled. rewrite Hy. apply orb_true_r.
Qed.

Lemma finite_extremes_finite_samples xs mn mx :
  amin xs = Ok mn -> amax xs = Ok mx ->
  is_finite mn = true -> is_finite mx = true ->
  Forall (fun v => is_finite v = true) xs.
Proof.
  intros Hmin Hmax Fn Fx. apply List.Forall_forall. intros v Hv.
  destruct (is_finite v) eqn:Fv; [reflexivity|exfalso].
  assert (Hsp : spoils_min v = true \/ spoils_max v = true).
  { destruct v as [?|[]| |? ? ?]; cbn in *; auto; discriminate. }
  destruct xs as [|x rest]; [destruct Hv|].
  injection Hmin as <-. injection Hmax as <-.
  assert (Hex : forall P : spec_float -> Prop, P v ->
                  P x \/ Exists P rest).
  { intros P Pv. destruct Hv as [<-|Hv]; [now left|right].
    apply List.Exists_exists. now exists v. }
  destruct Hsp as [Hs|Hs].
  - pose proof (fold_scalar_min_spoiled rest x (Hex _ Hs)) as H.
    destruct (fold_left scalar_min rest x) as [?|[]| |? ? ?]; discriminate.
  - pose proof (fold_scalar_max_spoiled rest x (Hex _ Hs)) as H.
    destruct (fold_left scalar_max rest x) as [?|[]| |? ? ?]; discriminate.
Qed.

Lemma fsub_finite_inv k x y :
  is_finite (fsub k x y) = true -> is_finite x = true /\ is_finite y = true.
Proof.
  destruct x as [[]|[]| |sx mx ex], y as [[]|[]| |sy my ey];
    cbn; auto; discriminate.
Qed.

(** The range of a valid array with [min < max] is a non-zero float, unless
    the subtraction overflows. *)
Lemma range_finite_nonzero k mn mx :
  valid_sample k mn -> valid_sample k mx ->
  SFltb mn mx = true ->
  is_finite (fsub k mx mn) = true ->
  exists s m e, fsub k mx mn = S754_finite s m e.
Proof.
  intros Vn Vx Hlt Hfin.
  destruct (fsub_finite_inv _ _ _ Hfin) as [Fx Fn].
  rewrite (SFltb_value k mn mx Vn Vx Fn Fx) in Hlt. apply Z.ltb_lt in Hlt.
  destruct (SFsub_spec (prec k) (emax k) (kind_prec_pos k) mx mn Vx Vn Fx Fn)
    as [_ Hd].
  destruct (Hd ltac:(unfold value in Hlt; lia)) as (m & e & _ & _ & _ & Hr).
  fold (fsub k mx mn) in Hr. rewrite Hr in *.
  destruct (e <=? emax k - prec k); [|discriminate].
  now exists false, m, e.
Qed.

Lemma rescale_at_min k mn mx v s m e :
  fsub k mx mn = S754_finite s m e ->
  SFeqb v mn = true ->
  astype_uint16 (rescale k mn mx v) = 0.
Proof.
  intros Hd He. unfold rescale. rewrite Hd.
  assert (Fn : is_finite mn = true).
  { apply (fsub_finite_inv k mx mn). now rewrite Hd. }
  assert (Hz : exists s0, fsub k v mn = S754_zero s0).
  { destruct (SFeqb_cases _ _ He) as [->|(s1 & s2 & -> & ->)].
    - now apply fsub_diag.
    - destruct s1, s2; eexists; reflexivity. }
  destruct Hz as [s0 ->].
  destruct (of_Z_65535 k) as (mc & ec & ->).
  reflexivity.
Qed.

Lemma rescale_at_max k mn mx v s m e :
  fsub k mx mn = S754_finite s m e ->
  SFeqb v mx = true ->
  astype_uint16 (rescale k mn mx v) = 65535.
Proof.
  intros Hd He. unfold rescale.
  assert (Hv : fsub k v mn = fsub k mx mn).
  { destruct (SFeqb_cases _ _ He) as [->|(s1 & s2 & -> & ->)];
      [reflexivity|].
    destruct mn as [sn|sn| |sn mn en]; try reflexivity.
    destruct s2, sn; discriminate Hd. }
  rewrite Hv, Hd, fdiv_self. now destruct k.
Qed.

(** * The sample normalizer: rescaling *)

Lemma normalize_rescales k sh xs mn mx :
  amin xs = Ok mn -> amax xs = Ok mx -> SFltb mn mx = true ->
  normalize {| shape := sh; buf := FloatBuf k xs |}
  = Ok {| shape := sh;
          buf := IntBuf UInt16
                   (map (fun v => astype_uint16 (rescale k mn mx v)) xs) |}.
Proof.
  intros Hmin Hmax Hlt. unfold normalize. cbn [buf shape].
  rewrite Hmin, Hmax. cbn [bind]. now rewrite Hlt.
Qed.

(** C2, as stated, fails: the two finite samples -2^1023 and 2^1023 have
    max > min, but their range overflows to infinity, the maximum is
    rescaled to a NaN and is written as 0, not 65535. *)
Lemma normalize_range_overflow :
  amin [SFopp (f64 1 1023); f64 1 1023] = Ok (SFopp (f64 1 1023)) /\
  amax [SFopp (f64 1 1023); f64 1 1023] = Ok (f64 1 1023) /\
  SFltb (SFopp (f64 1 1023)) (f64 1 1023) = true /\
  fsub Float64 (f64 1 1023) (SFopp (f64 1 1023)) = S754_infinity false /\
  normalize (arr64 [SFopp (f64 1 1023); f64 1 1023])
  = Ok {| shape := [2%nat]; buf := IntBuf UInt16 [0; 0] |} /\
  forall out,
    normalize (arr64 [SFopp (f64 1 1023); f64 1 1023])
    = Ok {| shape := [2%nat]; buf := IntBuf UInt16 out |} ->
    nth_error out 1 <> Some 65535.
Proof.
  repeat split; try reflexivity.
  intros out [= <-]. discriminate.
Qed.

(** C2, amended: for every float array of samples of its kind whose
    maximum exceeds its minimum and whose range max - min is finite (does
    not overflow), every output sample lies in [0, 65535], every sample
    equal to the minimum is written as 0 and every sample equal to the
    maximum as 65535. *)
Theorem normalize_range_and_extremes
  (k : float_kind) (sh : list nat) (xs : list spec_float)
  (mn mx : spec_float)
  (Hvalid : Forall (valid_sample k) xs)
  (Hmin : amin xs = Ok mn) (Hmax : amax xs = Ok mx)
  (Hlt : SFltb mn mx = true)
  (Hfin : is_finite (fsub k mx mn) = true) :
  exists out,
    normalize {| shape := sh; buf := FloatBuf k xs |}
    = Ok {| shape := sh; buf := IntBuf UInt16 out |} /\
    length out = length xs /\
    Forall (fun n => 0 <= n <= 65535) out /\
    (forall i v, nth_error xs i = Some v -> SFeqb v mn = true ->
                 nth_error out i = Some 0) /\
    (forall i v, nth_error xs i = Some v -> SFeqb v mx = true ->
                 nth_error out i = Some 65535).
Proof.
  assert (Vn : valid_sample k mn).
  { apply (proj1 (List.Forall_forall _ _) Hvalid). now apply amin_In. }
  assert (Vx : valid_sample k mx).
  { apply (proj1 (List.Forall_forall _ _) Hvalid). now apply amax_In. }
  destruct (range_finite_nonzero k mn mx Vn Vx Hlt Hfin) as (s & m & e & Hd).
  exists (map (fun v => astype_uint16 (rescale k mn mx v)) xs).
  split; [now apply normalize_rescales|].
  split; [apply List.length_map|].
  split.
  { apply List.Forall_forall. intros n Hn.
    apply in_map_iff in Hn as (v & <- & _). apply astype_uint16_range. }
  split; intros i v Hi He;
    rewrite (map_nth_error _ _ _ Hi); f_equal.
  - exact (rescale_at_min k mn mx v s m e Hd He).
  - exact (rescale_at_max k mn mx v s m e Hd He).
Qed.

Lemma normalize_range_and_extremes_witness :
  exists out,
    normalize (arr64 [f64 1 0; f64 0 0; f64 4 0; f64 1 0])
    = Ok {| shape := [4%nat]; buf := IntBuf UInt16 out |} /\
    nth_error out 1 = Some 0 /\ nth_error out 2 = Some 65535.
Proof.
  destruct (normalize_range_and_extremes Float64 [4%nat]
              [f64 1 0; f64 0 0; f64 4 0; f64 1 0] (f64 0 0) (f64 4 0))
    as (out & Hn & _ & _ & H0 & H1).
  - repeat constructor.
  - reflexivity.
  - reflexivity.
  - reflexivity.
  - reflexivity.
  - exists out. split; [exact Hn|]. split.
    + apply (H0 1%nat (f64 0 0)); reflexivity.
    + apply (H1 2%nat (f64 4 0)); reflexivity.
Defined.

(** C3, as stated, fails: on (0, 1, 4) the middle sample is rescaled to
    16383.75 and written as 16383; rounding to the nearest integer would
    give 16384. *)
Lemma normalize_truncates_not_rounds :
  amin [f64 0 0; f64 1 0; f64 4 0] = Ok (f64 0 0) /\
  amax [f64 0 0; f64 1 0; f64 4 0] = Ok (f64 4 0) /\
  SFltb (f64 0 0) (f64 4 0) = true /\
  rescale Float64 (f64 0 0) (f64 4 0) (f64 1 0) = f64 65535 (-2) /\
  normalize (arr64 [f64 0 0; f64 1 0; f64 4 0])
  = Ok {| shape := [3%nat]; buf := IntBuf UInt16 [0; 16383; 65535] |} /\
  map (spec_sample Float64 (f64 0 0) (f64 4 0))
    [f64 0 0; f64 1 0; f64 4 0]
  = [Some 0; Some 16384; Some 65535] /\
  forall out,
    normalize (arr64 [f64 0 0; f64 1 0; f64 4 0])
    = Ok {| shape := [3%nat]; buf := IntBuf UInt16 out |} ->
    nth_error out 1 <> spec_sample Float64 (f64 0 0) (f64 4 0) (f64 1 0).
Proof.
  repeat split; try reflexivity.
  intros out [= <-]. discriminate.
Qed.

Lemma samples_between k xs mn mx :
  Forall (valid_sample k) xs -> amin xs = Ok mn -> amax xs = Ok mx ->
  is_finite (fsub k mx mn) = true ->
  sample k mn /\ sample k mx /\
  forall v, In v xs -> sample k v /\ value k mn <= value k v <= value k mx.
Proof.
  intros Hvalid Hmin Hmax Hfin.
  destruct (fsub_finite_inv _ _ _ Hfin) as [Fx Fn].
  pose proof (finite_extremes_finite_samples xs mn mx Hmin Hmax Fn Fx) as Hf.
  assert (Hs : Forall (sample k) xs).
  { apply List.Forall_forall. intros v Hv. split.
    - now apply (proj1 (List.Forall_forall _ _) Hvalid).
    - now apply (proj1 (List.Forall_forall _ _) Hf). }
  destruct (amin_least k xs mn Hs Hmin) as [Sn Hn].
  destruct (amax_greatest k xs mx Hs Hmax) as [Sx Hx].
  split; [exact Sn|]. split; [exact Sx|]. intros v Hv.
  split; [now apply (proj1 (List.Forall_forall _ _) Hs)|].
  split; [now apply Hn|now apply Hx].
Qed.

(** C3, amended: for every float array whose maximum exceeds its minimum
    and whose range max - min is finite (does not overflow), the float
    (v - min) / (max - min) * 65535 has a value in [0, 65535] and the
    normalized sample is the floor of that value: the fraction is
    discarded, not rounded to the nearest integer. *)
Theorem normalize_sample_is_floor
  (k : float_kind) (sh : list nat) (xs : list spec_float)
  (mn mx : spec_float)
  (Hvalid : Forall (valid_sample k) xs)
  (Hmin : amin xs = Ok mn) (Hmax : amax xs = Ok mx)
  (Hlt : SFltb mn mx = true)
  (Hfin : is_finite (fsub k mx mn) = true) :
  exists out,
    normalize {| shape := sh; buf := FloatBuf k xs |}
    = Ok {| shape := sh; buf := IntBuf UInt16 out |} /\
    forall i v, nth_error xs i = Some v ->
      exists q, SF2Q (rescale k mn mx v) = Some q /\
                (0 <= q)%Q /\ (q <= 65535)%Q /\
                nth_error out i = Some (Qfloor q).
Proof.
  exists (map (fun v => astype_uint16 (rescale k mn mx v)) xs).
  split; [now apply normalize_rescales|].
  intros i v Hi.
  destruct (samples_between k xs mn mx Hvalid Hmin Hmax Hfin)
    as (Sn & Sx & Hb).
  destruct (Hb v (nth_error_In _ _ Hi)) as [Sv Hv].
  assert (Hlt' : value k mn < value k mx).
  { destruct Sn as [Vn Fn], Sx as [Vx Fx].
    rewrite (SFltb_value k mn mx Vn Vx Fn Fx) in Hlt. now apply Z.ltb_lt. }
  destruct (rescale_value k mn mx v Sn Sx Sv Hv Hlt' Hfin) as (q & Hq & H0 & H1).
  exists q. repeat split; try assumption.
  rewrite (map_nth_error _ _ _ Hi). f_equal.
  apply astype_uint16_floor; try assumption.
  eapply Qle_lt_trans; [exact H1|reflexivity].
Qed.

Lemma normalize_sample_is_floor_witness :
  exists out,
    normalize (arr64 [f64 0 0; f64 1 0; f64 4 0])
    = Ok {| shape := [3%nat]; buf := IntBuf UInt16 out |} /\
    nth_error out 1 = Some 16383.
Proof.
  destruct (normalize_sample_is_floor Float64 [3%nat]
              [f64 0 0; f64 1 0; f64 4 0] (f64 0 0) (f64 4 0))
    as (out & Hn & Hs).
  - repeat constructor.
  - reflexivity.
  - reflexivity.
  - reflexivity.
  - reflexivity.
  - exists out. split; [exact Hn|].
    destruct (Hs 1%nat (f64 1 0) eq_refl) as (q & Hq & _ & _ & Hf).
    vm_compute in Hq. injection Hq as <-. exact Hf.
Defined.

(** * The converter *)



(** C7, as stated, fails on a name the converter accepts.  The comment
    of line 72 reads "Remove .gz if present, then remove .nii, then add
    .tiff", but [Path.stem] drops the last suffix of the name whatever it
    is: a name [b.nii.nii] holds no compression suffix and still loses the
    format suffix twice, so that "a.nii.nii" is written to "a.tiff", the
    raster of "a.nii".  The test for ".nii" also tells upper case from
    lower.  Where the claim holds is stated with it: every name
    [b.nii.gz], and every name [b.nii] whose [b] does not end in ".nii",
    gives [b.tiff] in the same directory. *)
Theorem default_output_path_strips_nii_twice :
  (forall (input_path r : string) (dirs : list string) (b : string),
      Pathlib.Path input_path
      = {| Pathlib.root := r;
           Pathlib.parts := dirs ++ [(b +:+ ".nii") +:+ ".nii"] |} ->
      default_output_path input_path
      = Pathlib.str {| Pathlib.root := r;
                       Pathlib.parts := dirs ++ [b +:+ ".tiff"] |} /\
      forall fs fs' out,
        nifti_to_tiff fs input_path None = Ok (fs', out) ->
        out = Pathlib.str {| Pathlib.root := r;
                             Pathlib.parts := dirs ++ [b +:+ ".tiff"] |})
  /\ (forall (input_path r : string) (dirs : list string) (b : string),
         Pathlib.Path input_path
         = {| Pathlib.root := r;
              Pathlib.parts := dirs ++ [b +:+ ".nii.gz"] |} ->
         default_output_path input_path
         = Pathlib.str {| Pathlib.root := r;
                          Pathlib.parts := dirs ++ [b +:+ ".tiff"] |})
  /\ (forall (input_path r : string) (dirs : list string) (b : string),
         Pathlib.Path input_path
         = {| Pathlib.root := r;
              Pathlib.parts := dirs ++ [b +:+ ".nii"] |} ->
         PyStr.endswith b ".nii" = false ->
         default_output_path input_path
         = Pathlib.str {| Pathlib.root := r;
                          Pathlib.parts := dirs ++ [b +:+ ".tiff"] |})
  /\ default_output_path "a.nii.nii" = "a.tiff"%string
  /\ default_output_path "a.nii" = "a.tiff"%string
  /\ default_output_path "/data/a.nii.nii" = "/data/a.tiff"%string
  /\ default_output_path "SCAN.NII.GZ" = "SCAN.NII.tiff"%string
  /\ default_output_path "scan.nii.gz" = "scan.tiff"%string
  /\ default_output_path "scan.nii" = "scan.tiff"%string.
Proof.
  split; [|split; [|split; [|repeat split; reflexivity]]].
  - intros input_path r dirs b Hpath.
    pose proof (default_output_path_nii_nii input_path r dirs b Hpath) as Hd.
    split; [exact Hd|].
    intros fs fs' out. unfold nifti_to_tiff.
    destruct (load_nifti fs input_path) as [[[data aff] h]|]; [|discriminate].
    cbn [bind]. destruct (normalize data); [|discriminate].
    cbn [bind]. intros [= _ <-]. exact Hd.
  - exact default_output_path_gz.
  - exact default_output_path_nii.
Qed.

(** * The metadata path *)

(** Where the claim does hold: a raster path [stem.tiff] whose stem has no
    dot gets the metadata path [stem_nifti_metadata.txt]. *)
Lemma metadata_path_plain_stem (stem : string) :
  rfind "." stem = None ->
  metadata_path (stem +:+ ".tiff") = stem +:+ "_nifti_metadata.txt".
Proof.
  unfold metadata_path, replace.
  induction stem as [|a stem IH]; [reflexivity|].
  cbn [rfind]. destruct (rfind "." stem); [discriminate|].
  destruct (Ascii.eqb a ".") eqn:Ha; [discriminate|]. intros _.
  change (String a stem +:+ ".tiff") with (String a (stem +:+ ".tiff")).
  change (String a stem +:+ "_nifti_metadata.txt")
    with (String a (stem +:+ "_nifti_metadata.txt")).
  cbn [replace_from].
  assert (Hp : String.prefix ".tiff" (String a (stem +:+ ".tiff")) = false).
  { cbn [String.prefix]. destruct (ascii_dec "." a) as [<-|]; [|reflexivity].
    discriminate Ha. }
  rewrite Hp, IH; reflexivity.
Qed.

(** C8 at the explicit output path "out.tif": nothing is replaced, the
    metadata path is the raster path, and the text written last is what
    the file system holds there.  Every occurrence of ".tiff" is replaced,
    not the trailing one: a directory name that holds it is rewritten
    too. *)
Theorem sidecar_overwrites_raster :
  metadata_path "out.tif" = "out.tif"%string /\
  (exists data meta,
      nifti_to_tiff (disk "scan.nii" (nii zooms_xyz [f64 0 0; f64 4 0]))
        "scan.nii" (Some "out.tif"%string)
      = Ok (<["out.tif"%string := TextFile meta]>
              (<["out.tif"%string := TiffFile data]>
                 (disk "scan.nii" (nii zooms_xyz [f64 0 0; f64 4 0]))),
            "out.tif"%string) /\
      (<["out.tif"%string := TextFile meta]>
         (<["out.tif"%string := TiffFile data]>
            (disk "scan.nii" (nii zooms_xyz [f64 0 0; f64 4 0]))))
        !! "out.tif"%string = Some (TextFile meta)) /\
  default_output_path "run.tiff.d/scan.nii"
  = "run.tiff.d/scan.tiff"%string /\
  metadata_path "run.tiff.d/scan.tiff"
  = "run_nifti_metadata.txt.d/scan_nifti_metadata.txt"%string.
Proof.
  split; [reflexivity|]. split; [|split; reflexivity].
  eexists _, _. split; [reflexivity|]. apply lookup_insert_eq.
Qed.

(** * The converter: errors, files written, and running it twice *)

Lemma normalize_fdata (img : image) (data : ndarray) :
  normalize (get_fdata img) = Ok data ->
  exists samples,
    data = {| shape := img_shape img; buf := IntBuf UInt16 samples |} /\
    length samples = length (voxels img).
Proof.
  unfold normalize, get_fdata. cbn [buf shape].
  destruct (amin (voxels img)) as [mn|]; [|discriminate].
  destruct (amax (voxels img)) as [mx|]; [|discriminate].
  cbn [bind]. destruct (SFltb mn mx); intros [= <-];
    eexists; (split; [reflexivity|apply length_map]).
Qed.

Lemma nifti_to_tiff_Ok_inv fs input_path output_path fs' out :
  nifti_to_tiff fs input_path output_path = Ok (fs', out) ->
  exists img data,
    fs !! input_path = Some (NiftiFile img) /\
    normalize (get_fdata img) = Ok data /\
    out = match output_path with
          | None => default_output_path input_path
          | Some p => p
          end /\
    fs' = <[metadata_path out :=
              TextFile {| original_file := input_path;
                          meta_shape := shape data;
                          meta_dtype := dtype_of data;
                          meta_affine := affine img;
                          meta_zooms := get_zooms (hdr img);
                          meta_header := hdr img |}]>
            (<[out := TiffFile data]> fs).
Proof.
  unfold nifti_to_tiff, load_nifti, nib_load.
  destruct (fs !! input_path) as [[img| |]|]; try discriminate.
  cbn [bind]. destruct (normalize (get_fdata img)) as [data|] eqn:Hn;
    [|discriminate].
  cbn [bind]. intros [= <- <-]. now exists img, data.
Qed.

Lemma nifti_to_tiff_Ok fs input_path output_path img data :
  fs !! input_path = Some (NiftiFile img) ->
  normalize (get_fdata img) = Ok data ->
  let out := match output_path with
             | None => default_output_path input_path
             | Some p => p
             end in
  nifti_to_tiff fs input_path output_path
  = Ok (<[metadata_path out :=
            TextFile {| original_file := input_path;
                        meta_shape := shape data;
                        meta_dtype := dtype_of data;
                        meta_affine := affine img;
                        meta_zooms := get_zooms (hdr img);
                        meta_header := hdr img |}]>
          (<[out := TiffFile data]> fs), out).
Proof.
  intros Hf Hn. unfold nifti_to_tiff, load_nifti.
  rewrite (nib_load_nifti _ _ _ Hf). cbn [bind]. rewrite Hn. reflexivity.
Qed.


(** X2: a conversion that succeeds changes two files at most.  When the
    raster path it returns and the metadata path derived from it are
    normal paths, every other normal path under the same root holds what
    it held; and an explicit output path is returned as given. *)
Theorem nifti_to_tiff_frame
  (fs fs' : filesystem) (input_path out : string)
  (output_path : option string) (r : string)
  (Hrun : nifti_to_tiff fs input_path output_path = Ok (fs', out))
  (Hout : normal_path r out = true)
  (Hmeta : normal_path r (metadata_path out) = true) :
  (forall q, normal_path r q = true ->
             q <> out -> q <> metadata_path out -> fs' !! q = fs !! q) /\
  (forall p, output_path = Some p -> out = p).
Proof.
  destruct (nifti_to_tiff_Ok_inv _ _ _ _ _ Hrun)
    as (img & data & _ & _ & Hres & ->).
  split.
  - intros q _ Hq Hm. rewrite !lookup_insert_ne by congruence. reflexivity.
  - intros p ->. exact Hres.
Qed.

Lemma nifti_to_tiff_frame_witness :
  exists fs',
    nifti_to_tiff (disk "scan.nii" (volume zooms_xyz [f64 0 0; f64 4 0]))
      "scan.nii" (Some "out/vessels.tiff"%string)
    = Ok (fs', "out/vessels.tiff"%string) /\
    fs' !! "scan.nii"%string
    = Some (volume zooms_xyz [f64 0 0; f64 4 0]).
Proof.
  eexists. split; [reflexivity|].
  refine (proj1 (nifti_to_tiff_frame
                   (disk "scan.nii" (volume zooms_xyz [f64 0 0; f64 4 0])) _
                   "scan.nii" "out/vessels.tiff"
                   (Some "out/vessels.tiff"%string) "" eq_refl _ _)
            "scan.nii"%string _ _ _).
  - vm_compute. reflexivity.
  - vm_compute. reflexivity.
  - vm_compute. reflexivity.
  - discriminate.
  - vm_compute. discriminate.
Defined.

(** X3: when the raster path and the metadata path are two normal paths, a
    successful conversion leaves both files: the raster holds a uint16
    array with the shape of the image and one sample per voxel, and the
    metadata file records the input path, that same shape, the element
    type uint16, the affine, the header, and the zooms in the order of the
    header (x, y, z: not reversed as the remapper does). *)
Theorem sidecar_describes_raster
  (fs fs' : filesystem) (input_path out : string)
  (output_path : option string) (img : image) (r : string)
  (Hfile : fs !! input_path = Some (NiftiFile img))
  (Hrun : nifti_to_tiff fs input_path output_path = Ok (fs', out))
  (Hout : normal_path r out = true)
  (Hmeta : normal_path r (metadata_path out) = true)
  (Hdistinct : metadata_path out <> out) :
  exists samples,
    length samples = length (voxels img) /\
    fs' !! out
    = Some (TiffFile {| shape := img_shape img;
                        buf := IntBuf UInt16 samples |}) /\
    fs' !! metadata_path out
    = Some (TextFile {| original_file := input_path;
                        meta_shape := img_shape img;
                        meta_dtype := DInt UInt16;
                        meta_affine := affine img;
                        meta_zooms := zooms (hdr img);
                        meta_header := hdr img |}).
Proof.
  destruct (nifti_to_tiff_Ok_inv _ _ _ _ _ Hrun)
    as (img' & data & Hf & Hn & _ & ->).
  rewrite Hfile in Hf. injection Hf as <-.
  destruct (normalize_fdata _ _ Hn) as (samples & -> & Hlen).
  exists samples. split; [exact Hlen|]. split.
  - rewrite lookup_insert_ne by exact Hdistinct. apply lookup_insert_eq.
  - apply lookup_insert_eq.
Qed.

Lemma sidecar_describes_raster_witness :
  exists fs' samples,
    nifti_to_tiff (disk "scan.nii" (volume zooms_xyz [f64 0 0; f64 4 0]))
      "scan.nii" None
    = Ok (fs', "scan.tiff"%string) /\
    fs' !! "scan.tiff"%string
    = Some (TiffFile {| shape := [2%nat; 1%nat; 1%nat];
                        buf := IntBuf UInt16 samples |}) /\
    fs' !! "scan_nifti_metadata.txt"%string
    = Some (TextFile {| original_file := "scan.nii";
                        meta_shape := [2%nat; 1%nat; 1%nat];
                        meta_dtype := DInt UInt16;
                        meta_affine := [];
                        meta_zooms := zooms_xyz;
                        meta_header := {| zooms := zooms_xyz;
                                          descrip := "" |} |}).
Proof.
  eexists.
  destruct (sidecar_describes_raster
              (disk "scan.nii" (volume zooms_xyz [f64 0 0; f64 4 0])) _
              "scan.nii" "scan.tiff" None
              {| on_disk := DInt Int16; img_shape := [2%nat; 1%nat; 1%nat];
                 voxels := [f64 0 0; f64 4 0]; affine := [];
                 hdr := {| zooms := zooms_xyz; descrip := "" |} |}
              "" eq_refl eq_refl ltac:(vm_compute; reflexivity)
              ltac:(vm_compute; reflexivity)
              ltac:(vm_compute; discriminate))
    as (samples & _ & Hr & Hm).
  exists samples. split; [reflexivity|]. split; [exact Hr|exact Hm].
Defined.

(** X4: converting again changes nothing.  When the input path, the raster
    path and the metadata path are normal paths under one root, and
    neither output is the input, a second conversion of the same input to
    the same output gives what the first gave: the same path, and the file
    system exactly as the first left it. *)
Theorem nifti_to_tiff_twice
  (fs fs' : filesystem) (input_path out : string)
  (output_path : option string) (r : string)
  (Hrun : nifti_to_tiff fs input_path output_path = Ok (fs', out))
  (Hin : normal_path r input_path = true)
  (Hout : normal_path r out = true)
  (Hmeta : normal_path r (metadata_path out) = true)
  (Hraster : input_path <> out)
  (Hsidecar : input_path <> metadata_path out) :
  nifti_to_tiff fs' input_path output_path = Ok (fs', out).
Proof.
  destruct (nifti_to_tiff_Ok_inv _ _ _ _ _ Hrun)
    as (img & data & Hf & Hn & Hres & Hfs).
  assert (Hf' : fs' !! input_path = Some (NiftiFile img)).
  { rewrite Hfs, !lookup_insert_ne by congruence. exact Hf. }
  rewrite (nifti_to_tiff_Ok fs' input_path output_path img data Hf' Hn).
  cbv zeta. rewrite <- Hres. f_equal. f_equal.
  apply map_eq. intros q. rewrite Hfs.
  rewrite !lookup_insert.
  destruct (decide (metadata_path out = q)); [reflexivity|].
  destruct (decide (out = q)); reflexivity.
Qed.

Lemma nifti_to_tiff_twice_witness :
  exists fs',
    nifti_to_tiff
      (disk "/data/scan.nii" (volume zooms_xyz [f64 0 0; f64 4 0]))
      "/data/scan.nii" None
    = Ok (fs', "/data/scan.tiff"%string) /\
    nifti_to_tiff fs' "/data/scan.nii" None
    = Ok (fs', "/data/scan.tiff"%string).
Proof.
  eexists. split; [reflexivity|].
  apply (nifti_to_tiff_twice
           (disk "/data/scan.nii" (volume zooms_xyz [f64 0 0; f64 4 0])) _
           "/data/scan.nii" "/data/scan.tiff" None "/" eq_refl).
  - vm_compute. reflexivity.
  - vm_compute. reflexivity.
  - vm_compute. reflexivity.
  - discriminate.
  - vm_compute. discriminate.
Defined.

(** * The sample normalizer: a NaN among the samples *)

Lemma scalar_min_nan a b :
  is_nan a || is_nan b = true -> scalar_min a b = S754_nan.
Proof.
  unfold scalar_min.
  destruct a as [[]|[]| |[] ? ?], b as [[]|[]| |[] ? ?]; cbn; intros H;
    try discriminate; reflexivity.
Qed.

Lemma scalar_max_nan a b :
  is_nan a || is_nan b = true -> scalar_max a b = S754_nan.
Proof.
  unfold scalar_max.
  destruct a as [[]|[]| |[] ? ?], b as [[]|[]| |[] ? ?]; cbn; intros H;
    try discriminate; reflexivity.
Qed.

Lemma fold_scalar_min_nan rest : forall x,
  x = S754_nan \/ In S754_nan rest ->
  fold_left scalar_min rest x = S754_nan.
Proof.
  induction rest as [|y rest IH]; intros x [Hx|Hr]; cbn [fold_left].
  - assumption.
  - destruct Hr.
  - apply IH. left. apply scalar_min_nan. now rewrite Hx.
  - apply IH. destruct Hr as [Hy|Hr]; [left|now right].
    apply scalar_min_nan. rewrite Hy. apply orb_true_r.
Qed.

Lemma fold_scalar_max_nan rest : forall x,
  x = S754_nan \/ In S754_nan rest ->
  fold_left scalar_max rest x = S754_nan.
Proof.
  induction rest as [|y rest IH]; intros x [Hx|Hr]; cbn [fold_left].
  - assumption.
  - destruct Hr.
  - apply IH. left. apply scalar_max_nan. now rewrite Hx.
  - apply IH. destruct Hr as [Hy|Hr]; [left|now right].
    apply scalar_max_nan. rewrite Hy. apply orb_true_r.
Qed.

(** X5: one NaN among the samples switches the rescaling off.  The minimum
    and the maximum are then both NaN, [data_max > data_min] is false, and
    every sample is cast to uint16 as it is, whatever the range of the other
    samples. *)
Theorem normalize_nan_casts_directly
  (k : float_kind) (sh : list nat) (xs : list spec_float)
  (Hnan : In S754_nan xs) :
  amin xs = Ok S754_nan /\
  amax xs = Ok S754_nan /\
  normalize {| shape := sh; buf := FloatBuf k xs |}
  = Ok {| shape := sh; buf := IntBuf UInt16 (map astype_uint16 xs) |}.
Proof.
  assert (Hmin : amin xs = Ok S754_nan).
  { destruct xs as [|x rest]; [destruct Hnan|]. cbn [amin]. f_equal.
    apply fold_scalar_min_nan. destruct Hnan; auto. }
  assert (Hmax : amax xs = Ok S754_nan).
  { destruct xs as [|x rest]; [destruct Hnan|]. cbn [amax]. f_equal.
    apply fold_scalar_max_nan. destruct Hnan; auto. }
  split; [exact Hmin|]. split; [exact Hmax|].
  unfold normalize. cbn [buf shape]. rewrite Hmin, Hmax. reflexivity.
Qed.

Lemma normalize_nan_casts_directly_witness :
  normalize (arr64 [f64 1 0; S754_nan; f64 3 0])
  = Ok {| shape := [3%nat]; buf := IntBuf UInt16 [1; 0; 3] |}.
Proof.
  exact (proj2 (proj2 (normalize_nan_casts_directly Float64 [3%nat]
                         [f64 1 0; S754_nan; f64 3 0]
                         ltac:(right; left; reflexivity)))).
Defined.


(** * The sample normalizer: an infinite range *)

Lemma rescale_infinite_range (k : float_kind) (mn mx v : spec_float) :
  fsub k mx mn = S754_infinity false ->
  astype_uint16 (rescale k mn mx v) = 0.
Proof.
  intros Hr. unfold rescale. rewrite Hr.
  destruct (of_Z_65535 k) as (mc & ec & ->).
  destruct (fsub k v mn) as [s|s| |s m e]; reflexivity.
Qed.

Lemma infinite_sample_infinite_range (k : float_kind)
  (xs : list spec_float) (mn mx : spec_float) (s : bool) :
  amin xs = Ok mn -> amax xs = Ok mx -> SFltb mn mx = true ->
  In (S754_infinity s) xs ->
  fsub k mx mn = S754_infinity false.
Proof.
  intros Hmin Hmax Hlt Hin.
  destruct xs as [|x rest]; [destruct Hin|].
  injection Hmin as Hmin. injection Hmax as Hmax.
  assert (Hex : forall P : spec_float -> Prop, P (S754_infinity s) ->
                  P x \/ Exists P rest).
  { intros P Pv. destruct Hin as [->|Hin]; [now left|right].
    apply List.Exists_exists. now exists (S754_infinity s). }
  destruct s.
  - pose proof (fold_scalar_min_spoiled rest x
                  (Hex (fun v => spoils_min v = true) eq_refl)) as Hs.
    rewrite Hmin in Hs.
    destruct mn as [?|[]| |? ? ?]; try discriminate Hs; try discriminate Hlt.
    destruct mx as [?|[]| |? ? ?]; try discriminate Hlt; reflexivity.
  - pose proof (fold_scalar_max_spoiled rest x
                  (Hex (fun v => spoils_max v = true) eq_refl)) as Hs.
    rewrite Hmax in Hs.
    destruct mx as [?|[]| |? ? ?]; try discriminate Hs;
      try (destruct mn as [?|[]| |[] ? ?]; discriminate Hlt).
    destruct mn as [?|[]| |? ? ?]; try discriminate Hlt; reflexivity.
Qed.

(** X19: an infinite range blacks the raster out.  When the maximum
    exceeds the minimum and [data_max - data_min] is infinite, because one
    sample is an infinity or because the difference of two finite samples
    overflows, every sample is rescaled to 0 or to a NaN and the whole
    output is 0. *)
Theorem normalize_infinite_range
  (k : float_kind) (sh : list nat) (xs : list spec_float)
  (mn mx : spec_float)
  (Hmin : amin xs = Ok mn) (Hmax : amax xs = Ok mx)
  (Hlt : SFltb mn mx = true)
  (Hinf : fsub k mx mn = S754_infinity false \/
          exists s, In (S754_infinity s) xs) :
  normalize {| shape := sh; buf := FloatBuf k xs |}
  = Ok {| shape := sh; buf := IntBuf UInt16 (map (fun _ => 0) xs) |}.
Proof.
  assert (Hr : fsub k mx mn = S754_infinity false).
  { destruct Hinf as [Hr|[s Hs]]; [exact Hr|].
    exact (infinite_sample_infinite_range k xs mn mx s Hmin Hmax Hlt Hs). }
  rewrite (normalize_rescales k sh xs mn mx Hmin Hmax Hlt).
  do 2 f_equal. f_equal. apply map_ext. intros v.
  now apply rescale_infinite_range.
Qed.

Lemma normalize_infinite_range_witness :
  normalize (arr64 [f64 1 0; S754_infinity false; f64 3 0])
  = Ok {| shape := [3%nat]; buf := IntBuf UInt16 [0; 0; 0] |}.
Proof.
  apply (normalize_infinite_range Float64 [3%nat]
           [f64 1 0; S754_infinity false; f64 3 0]
           (f64 1 0) (S754_infinity false) eq_refl eq_refl eq_refl).
  right. exists false. simpl. auto.
Defined.

(** * The metadata path: when the replacement finds its pattern *)

Section Replace.
Local Open Scope nat_scope.

Lemma append_String (a : ascii) (s t : string) :
  String a s +:+ t = String a (s +:+ t).
Proof. reflexivity. Qed.

Lemma append_assoc (a b c : string) : (a +:+ b) +:+ c = a +:+ (b +:+ c).
Proof.
  induction a as [|x a IH]; [reflexivity|].
  rewrite !append_String. now rewrite IH.
Qed.

Lemma string_length_drop (s : string) : forall k,
  String.length (drop k s) = String.length s - k.
Proof.
  induction s as [|a s IH]; intros [|k]; simpl; try reflexivity. apply IH.
Qed.

Lemma prefix_app (a t : string) : String.prefix a (a +:+ t) = true.
Proof.
  induction a as [|x a IH]; [now destruct t|].
  rewrite append_String. cbn [String.prefix].
  destruct (ascii_dec x x); [exact IH|congruence].
Qed.

Lemma prefix_inv (a : string) : forall s,
  String.prefix a s = true -> exists t, s = a +:+ t.
Proof.
  induction a as [|x a IH]; intros s H.
  - now exists s.
  - destruct s as [|y s]; [discriminate|]. cbn [String.prefix] in H.
    destruct (ascii_dec x y) as [<-|]; [|discriminate].
    destruct (IH s H) as [t ->]. now exists t.
Qed.

Variables old new : string.
Hypothesis old_nonempty : 0 < String.length old.

Lemma occurrence_tail (a : ascii) (rest pre post : string) :
  String.prefix old (String a rest) = false ->
  String a rest = pre +:+ old +:+ post ->
  exists pre', rest = pre' +:+ old +:+ post.
Proof.
  intros Hp Hs. destruct pre as [|x pre].
  - change ("" +:+ old +:+ post) with (old +:+ post) in Hs.
    rewrite Hs, prefix_app in Hp. discriminate.
  - rewrite append_String in Hs. injection Hs as _ ->. now exists pre.
Qed.

(** Without an occurrence of [old] nothing is replaced. *)
Lemma replace_from_absent (s : string) : forall k,
  (forall pre post, drop k s <> pre +:+ old +:+ post) ->
  replace_from old new k s = drop k s.
Proof.
  induction s as [|a s IH]; intros k Hno; [now destruct k|].
  destruct k as [|k]; cbn [replace_from drop].
  - destruct (String.prefix old (String a s)) eqn:Hp.
    + destruct (prefix_inv _ _ Hp) as [t Ht].
      now destruct (Hno ""%string t).
    + f_equal. rewrite (IH 0); [now destruct s|].
      intros pre post Hs. apply (Hno (String a pre) post).
      cbn [drop]. rewrite append_String. f_equal.
      now destruct s.
  - apply IH. exact Hno.
Qed.

Hypothesis new_longer : String.length old < String.length new.

Lemma replace_from_length (s : string) : forall k,
  String.length (drop k s) <= String.length (replace_from old new k s).
Proof.
  induction s as [|a s IH]; intros k; [destruct k; simpl; lia|].
  destruct k as [|k]; cbn [replace_from drop].
  - destruct (String.prefix old (String a s)).
    + rewrite length_app. specialize (IH (String.length old - 1)).
      rewrite string_length_drop in IH. simpl. lia.
    + specialize (IH 0). replace (drop 0 s) with s in IH by now destruct s.
      simpl. lia.
  - apply IH.
Qed.

(** An occurrence of [old] makes the result longer. *)
Lemma replace_from_longer (s : string) : forall k pre post,
  drop k s = pre +:+ old +:+ post ->
  String.length (drop k s) < String.length (replace_from old new k s).
Proof.
  induction s as [|a s IH]; intros k pre post Hs.
  - exfalso. replace (drop k "") with ""%string in Hs by now destruct k.
    apply (f_equal String.length) in Hs. rewrite !length_app in Hs.
    simpl in Hs. lia.
  - destruct k as [|k]; cbn [replace_from drop] in *.
    + destruct (String.prefix old (String a s)) eqn:Hp.
      * rewrite length_app.
        pose proof (replace_from_length s (String.length old - 1)) as H.
        rewrite string_length_drop in H. simpl. lia.
      * destruct (occurrence_tail _ _ _ _ Hp Hs) as [pre' Hs'].
        specialize (IH 0 pre' post).
        replace (drop 0 s) with s in IH by now destruct s.
        specialize (IH Hs'). simpl. lia.
    + now apply (IH k pre post).
Qed.

Lemma replace_fixed_iff (s : string) :
  replace old new s = s <-> forall pre post, s <> pre +:+ old +:+ post.
Proof.
  unfold replace. split.
  - intros Heq pre post Hs.
    pose proof (replace_from_longer s 0 pre post) as H.
    replace (drop 0 s) with s in H by now destruct s.
    specialize (H Hs). rewrite Heq in H. lia.
  - intros Hno. rewrite replace_from_absent; [now destruct s|].
    replace (drop 0 s) with s by now destruct s. exact Hno.
Qed.

End Replace.

(** X6: the metadata path is the same string as the raster path exactly
    when the raster path holds no ".tiff" anywhere: [str.replace] then finds
    nothing to replace, and in every other case it returns another
    string. *)
Theorem metadata_path_fixed_iff (output_path : string) :
  metadata_path output_path = output_path <->
  forall pre post, output_path <> pre +:+ ".tiff" +:+ post.
Proof.
  unfold metadata_path. apply replace_fixed_iff; simpl; lia.
Qed.

(** * The default output path always has its metadata file *)

Lemma rfind_take_None (c : ascii) (s : string) : forall n,
  rfind c s = None -> rfind c (take n s) = None.
Proof.
  induction s as [|a s IH]; intros n H; [now destruct n|].
  destruct n as [|n]; [reflexivity|]. cbn [take rfind] in *.
  destruct (rfind c s); [discriminate|].
  rewrite IH by reflexivity. exact H.
Qed.

Lemma last_In_or_default {A} (l : list A) (d : A) :
  List.last l d = d \/ In (List.last l d) l.
Proof.
  induction l as [|x l IH]; [now left|].
  destruct l as [|y l]; [right; now left|].
  change (List.last (x :: y :: l) d) with (List.last (y :: l) d).
  destruct IH as [->|IH]; [now left|right; now right].
Qed.

Lemma name_no_sep (input_path : string) :
  rfind "/" (name (Path input_path)) = None.
Proof.
  unfold name.
  destruct (last_In_or_default (parts (Path input_path)) EmptyString)
    as [->|H]; [reflexivity|].
  now apply (Path_parts_no_sep input_path).
Qed.

Lemma stem_no_sep (input_path : string) :
  rfind "/" (stem (Path input_path)) = None.
Proof.
  unfold stem. pose proof (name_no_sep input_path) as H.
  destruct (rfind "." (name (Path input_path))) as [i|]; [|exact H].
  destruct (_ && _); [|exact H]. now apply rfind_take_None.
Qed.

Lemma concat_snoc (sep : string) (l : list string) (x : string) :
  exists pre, String.concat sep (l ++ [x]) = pre +:+ x.
Proof.
  induction l as [|a l [pre IH]]; [now exists ""%string|].
  exists (a +:+ sep +:+ pre).
  change ((a :: l) ++ [x]) with (a :: (l ++ [x])).
  destruct (l ++ [x]) as [|y ys] eqn:Hl; [now destruct l|].
  cbn [String.concat]. cbn [String.concat] in IH. rewrite IH.
  now rewrite !append_assoc.
Qed.

Lemma str_snoc (r : string) (l : list string) (x : string) :
  exists pre, str {| root := r; parts := l ++ [x] |} = pre +:+ x.
Proof.
  destruct (concat_snoc "/" l x) as [pre Hc].
  exists (r +:+ pre). unfold str. cbn [root parts].
  rewrite append_assoc, <- Hc.
  destruct r; [|reflexivity]. destruct (l ++ [x]) eqn:Hl; [|reflexivity].
  now destruct l.
Qed.

Lemma default_output_path_ends_tiff (input_path : string) :
  exists b, default_output_path input_path = b +:+ ".tiff".
Proof.
  unfold default_output_path.
  set (st := if endswith (stem (Path input_path)) ".nii"
             then drop_last 4 (stem (Path input_path))
             else stem (Path input_path)).
  assert (Hs : rfind "/" st = None).
  { subst st. destruct (endswith _ _); [|apply stem_no_sep].
    apply rfind_take_None, stem_no_sep. }
  rewrite truediv_component by exact Hs.
  destruct (str_snoc (root (parent (Path input_path)))
              (parts (parent (Path input_path))) (st +:+ ".tiff"))
    as [pre ->].
  exists (pre +:+ st). now rewrite append_assoc.
Qed.

(** X7: with no output path given the text file never lands on the raster.
    The derived raster path ends in ".tiff" whatever the input path is, so
    its metadata path is a different path, and a conversion that succeeds
    leaves a raster at the one and the metadata at the other. *)
Theorem default_output_keeps_raster (input_path : string) :
  (exists b, default_output_path input_path = b +:+ ".tiff") /\
  metadata_path (default_output_path input_path)
  <> default_output_path input_path /\
  (forall fs fs' out,
      nifti_to_tiff fs input_path None = Ok (fs', out) ->
      exists data m,
        fs' !! out = Some (TiffFile data) /\
        fs' !! metadata_path out = Some (TextFile m)).
Proof.
  pose proof (default_output_path_ends_tiff input_path) as [b Hb].
  assert (Hne : metadata_path (default_output_path input_path)
                <> default_output_path input_path).
  { intros Heq. unfold metadata_path in Heq.
    assert (Hold : (0 < String.length ".tiff")%nat) by (simpl; lia).
    assert (Hnew : (String.length ".tiff"
                    < String.length "_nifti_metadata.txt")%nat)
      by (simpl; lia).
    apply (proj1 (replace_fixed_iff _ _ Hold Hnew _) Heq b ""%string).
    now rewrite append_nil_r. }
  split; [now exists b|]. split; [exact Hne|].
  intros fs fs' out Hrun.
  destruct (nifti_to_tiff_Ok_inv _ _ _ _ _ Hrun)
    as (img & data & _ & _ & -> & ->).
  eexists _, _. split.
  - rewrite lookup_insert_ne by exact Hne. apply lookup_insert_eq.
  - apply lookup_insert_eq.
Qed.

(** * The spacing string splits back into its three fields *)

Lemma split_app_sep (c : ascii) (a b : string) :
  rfind c a = None -> split c (a +:+ String c b) = a :: split c b.
Proof.
  induction a as [|x a IH]; intros H.
  - change ("" +:+ String c b) with (String c b). cbn [split].
    now rewrite Ascii.eqb_refl.
  - rewrite append_String. cbn [split rfind] in *.
    destruct (rfind c a); [discriminate|].
    destruct (Ascii.eqb x c); [discriminate|].
    now rewrite IH.
Qed.

(** X8: the string of the remapper reads back as three fields.  When the
    text of no zoom holds a comma, splitting the result at its commas gives
    exactly three fields: the texts of the third, second and first zoom, or
    three times "1.0" below three axes. *)
Theorem remapper_three_fields
  (float_str : spec_float -> string) (fs : filesystem) (path : string)
  (img : image)
  (Hfile : fs !! path = Some (NiftiFile img))
  (Hstr : forall z, In z (get_zooms (hdr img)) ->
                    rfind "," (float_str z) = None) :
  exists dims,
    get_pixel_dimensions_from_nifti float_str fs path = Ok dims /\
    split "," dims
    = match get_zooms (hdr img) with
      | x :: y :: z :: _ => [float_str z; float_str y; float_str x]
      | _ => ["1.0"; "1.0"; "1.0"]%string
      end.
Proof.
  unfold get_pixel_dimensions_from_nifti.
  rewrite (nib_load_nifti _ _ _ Hfile). cbn [bind].
  destruct (get_zooms (hdr img)) as [|x [|y [|z rest]]];
    try (eexists; split; reflexivity).
  eexists. split; [reflexivity|]. cbn [nth].
  change ("," +:+ float_str y +:+ "," +:+ float_str x)
    with (String "," (float_str y +:+ String "," (float_str x))).
  rewrite !split_app_sep, split_of_no_sep; [reflexivity|apply Hstr..];
    simpl; auto.
Qed.

Lemma remapper_three_fields_witness :
  exists dims,
    get_pixel_dimensions_from_nifti PyFloat.exact_str
      (disk "scan.nii" (nii zooms_xyz [])) "scan.nii" = Ok dims /\
    split "," dims = ["2.0"; "0.5"; "0.5"]%string.
Proof.
  apply (remapper_three_fields PyFloat.exact_str
           (disk "scan.nii" (nii zooms_xyz [])) "scan.nii"
           {| on_disk := DInt Int16; img_shape := [0%nat]; voxels := [];
              affine := []; hdr := {| zooms := zooms_xyz; descrip := "" |} |}
           eq_refl).
  intros z [<-|[<-|[<-|[]]]]; reflexivity.
Defined.

(** * The command line of [nifti_utils.py] *)

Lemma remapper_same_file (float_str : spec_float -> string)
  (fs fs' : filesystem) (path : string) :
  fs' !! path = fs !! path ->
  get_pixel_dimensions_from_nifti float_str fs' path
  = get_pixel_dimensions_from_nifti float_str fs path.
Proof.
  intros H. unfold get_pixel_dimensions_from_nifti, nib_load. now rewrite H.
Qed.

Lemma remapper_total (float_str : spec_float -> string)
  (fs : filesystem) (path : string) (img : image) :
  fs !! path = Some (NiftiFile img) ->
  exists dims, get_pixel_dimensions_from_nifti float_str fs path = Ok dims.
Proof.
  intros H. unfold get_pixel_dimensions_from_nifti.
  rewrite (nib_load_nifti _ _ _ H). cbn [bind].
  destruct (_ <=? _)%nat; eexists; reflexivity.
Qed.

Lemma remapper_not_nifti (float_str : spec_float -> string)
  (fs : filesystem) (path : string) (f : file) :
  fs !! path = Some f -> (forall img, f <> NiftiFile img) ->
  get_pixel_dimensions_from_nifti float_str fs path = Raise ImageFileError.
Proof.
  intros H Hn. unfold get_pixel_dimensions_from_nifti, nib_load. rewrite H.
  destruct f as [img| |]; [now destruct (Hn img)|reflexivity..].
Qed.

(** X9: the script converts, then reads the spacing from the input once
    more.  When the conversion succeeds, the input path, the raster path
    and the metadata path are normal paths under one root, and neither
    output is the input, the script ends without an exception, leaves the
    files of the conversion, and prints three lines: the two paths, the
    remapped spacing of the input, and the same spacing as the value for
    the configuration. *)
Theorem nifti_utils_main_reports
  (float_str : spec_float -> string) (input : string)
  (output : option string) (w : world) (fs' : filesystem) (out : string)
  (r : string)
  (Hrun : nifti_to_tiff (files w) input output = Ok (fs', out))
  (Hin : normal_path r input = true)
  (Hout : normal_path r out = true)
  (Hmeta : normal_path r (metadata_path out) = true)
  (Hraster : input <> out)
  (Hsidecar : input <> metadata_path out) :
  exists dims,
    get_pixel_dimensions_from_nifti float_str (files w) input = Ok dims /\
    nifti_utils_main float_str input output w
    = ({| files := fs';
          stdout := stdout w ++
            ["Converted " +:+ input +:+ " to " +:+ out;
             "Pixel dimensions (z,y,x): " +:+ dims;
             "Note: Update config.json graphAnalysis.pixel_dimensions to: "
             +:+ dims];
          launched := launched w |}, Ok tt).
Proof.
  destruct (nifti_to_tiff_Ok_inv _ _ _ _ _ Hrun)
    as (img & data & Hf & _ & _ & Hfs).
  destruct (remapper_total float_str _ _ _ Hf) as [dims Hd].
  exists dims. split; [exact Hd|].
  unfold nifti_utils_main. rewrite Hrun. cbv zeta.
  change (files (print ("Converted " +:+ input +:+ " to " +:+ out)
                   (set_files fs' w))) with fs'.
  rewrite (remapper_same_file float_str (files w) fs' input), Hd.
  - unfold print, set_files. cbn [files stdout launched].
    now rewrite <- !app_assoc.
  - rewrite Hfs, !lookup_insert_ne by congruence. reflexivity.
Qed.

Lemma nifti_utils_main_reports_witness :
  exists fs',
    nifti_utils_main PyFloat.exact_str "scan.nii.gz" None
      (world_of (disk "scan.nii.gz" (volume zooms_xyz [f64 0 0; f64 4 0])))
    = ({| files := fs';
          stdout :=
            ["Converted scan.nii.gz to scan.tiff";
             "Pixel dimensions (z,y,x): 2.0,0.5,0.5";
             "Note: Update config.json graphAnalysis.pixel_dimensions to: 2.0,0.5,0.5"]%string;
          launched := [] |}, Ok tt).
Proof.
  eexists.
  destruct (nifti_utils_main_reports PyFloat.exact_str "scan.nii.gz" None
              (world_of (disk "scan.nii.gz"
                           (volume zooms_xyz [f64 0 0; f64 4 0])))
              _ "scan.tiff" "" eq_refl ltac:(vm_compute; reflexivity)
              ltac:(vm_compute; reflexivity) ltac:(vm_compute; reflexivity)
              ltac:(discriminate) ltac:(vm_compute; discriminate))
    as (dims & Hd & Hm).
  vm_compute in Hd. injection Hd as <-. exact Hm.
Defined.

(** X10: an output that lands on the input breaks the script after the
    conversion.  When the raster path or the metadata path is the input
    path, the conversion overwrites the image, the line "Converted ..." is
    printed, and the reading of the spacing that follows finds no NIfTI
    image there: the script ends in [ImageFileError] with the input
    lost. *)
Theorem nifti_utils_main_overwrites_input
  (float_str : spec_float -> string) (input : string)
  (output : option string) (w : world) (fs' : filesystem) (out : string)
  (Hrun : nifti_to_tiff (files w) input output = Ok (fs', out))
  (Hclash : out = input \/ metadata_path out = input) :
  (forall img, fs' !! input <> Some (NiftiFile img)) /\
  nifti_utils_main float_str input output w
  = ({| files := fs';
        stdout := stdout w ++ ["Converted " +:+ input +:+ " to " +:+ out];
        launched := launched w |}, Raise ImageFileError).
Proof.
  destruct (nifti_to_tiff_Ok_inv _ _ _ _ _ Hrun)
    as (img & data & _ & _ & _ & Hfs).
  assert (Hlost : exists f, fs' !! input = Some f /\
                            forall img, f <> NiftiFile img).
  { rewrite Hfs, !lookup_insert.
    destruct (decide (metadata_path out = input)) as [_|Hm].
    - eexists. split; [reflexivity|discriminate].
    - destruct (decide (out = input)) as [_|Ho]; [|now destruct Hclash].
      eexists. split; [reflexivity|discriminate]. }
  destruct Hlost as (f & Hf & Hn). split.
  - intros i Hi. rewrite Hf in Hi. injection Hi as ->. now destruct (Hn i).
  - unfold nifti_utils_main. rewrite Hrun. cbv zeta.
    change (files (print ("Converted " +:+ input +:+ " to " +:+ out)
                     (set_files fs' w))) with fs'.
    now rewrite (remapper_not_nifti float_str fs' input f Hf Hn).
Qed.

Lemma nifti_utils_main_overwrites_input_witness :
  exists fs',
    nifti_utils_main PyFloat.exact_str "scan.nii" (Some "scan.nii"%string)
      (world_of (disk "scan.nii" (nii zooms_xyz [f64 0 0; f64 4 0])))
    = ({| files := fs';
          stdout := ["Converted scan.nii to scan.nii"%string];
          launched := [] |}, Raise ImageFileError).
Proof.
  eexists.
  exact (proj2 (nifti_utils_main_overwrites_input PyFloat.exact_str
                  "scan.nii" (Some "scan.nii"%string)
                  (world_of (disk "scan.nii"
                               (nii zooms_xyz [f64 0 0; f64 4 0])))
                  _ "scan.nii" eq_refl (or_introl eq_refl))).
Defined.

(** * [vesselexpress_cli.py]: the information path *)

(** X11: for every file nibabel loads, [print_nifti_info] prints seven
    texts and touches nothing: the shape of the image, the remapped
    spacing, and as data type always float64, since the array comes from
    [get_fdata]: the element type the file stores is not what is shown. *)
Theorem print_nifti_info_reports
  (os : platform) (input_file : string) (w : world) (img : image)
  (Himports : nifti_utils_imports os = true)
  (Hfile : files w !! input_file = Some (NiftiFile img)) :
  exists dims,
    get_pixel_dimensions_from_nifti (str_float os) (files w) input_file
    = Ok dims /\
    print_nifti_info os input_file w
    = {| files := files w;
         stdout := stdout w ++
           [PyRepr.nl +:+ "NIfTI File Information:";
            "  File: " +:+ input_file;
            "  Shape: " +:+ PyRepr.tuple_str (img_shape img);
            "  Data type: float64"%string;
            "  Pixel dimensions (z,y,x): " +:+ dims;
            PyRepr.nl +:+ "  Note: Add this to your config.json:";
            "    " +:+ PyRepr.dquote +:+ "graphAnalysis" +:+ PyRepr.dquote
            +:+ ": {" +:+ PyRepr.dquote +:+ "pixel_dimensions"
            +:+ PyRepr.dquote +:+ ": " +:+ PyRepr.dquote +:+ dims
            +:+ PyRepr.dquote +:+ ", ...}"];
         launched := launched w |}.
Proof.
  destruct (remapper_total (str_float os) _ _ _ Hfile) as [dims Hd].
  exists dims. split; [exact Hd|].
  unfold print_nifti_info, load_nifti.
  rewrite Himports, (nib_load_nifti _ _ _ Hfile). cbn [negb bind].
  rewrite Hd. unfold print, get_fdata, dtype_of.
  cbn [files stdout launched shape buf PyRepr.dtype_str].
  now rewrite <- !app_assoc.
Qed.

Lemma print_nifti_info_reports_witness :
  stdout (print_nifti_info posix "scan.nii"
            (world_of (disk "scan.nii" (nii zooms_xyz [f64 0 0; f64 4 0]))))
  = [PyRepr.nl +:+ "NIfTI File Information:";
     "  File: scan.nii";
     "  Shape: (2,)";
     "  Data type: float64";
     "  Pixel dimensions (z,y,x): 2.0,0.5,0.5";
     PyRepr.nl +:+ "  Note: Add this to your config.json:";
     "    " +:+ PyRepr.dquote +:+ "graphAnalysis" +:+ PyRepr.dquote
     +:+ ": {" +:+ PyRepr.dquote +:+ "pixel_dimensions" +:+ PyRepr.dquote
     +:+ ": " +:+ PyRepr.dquote +:+ "2.0,0.5,0.5" +:+ PyRepr.dquote
     +:+ ", ...}"]%string.
Proof.
  destruct (print_nifti_info_reports posix "scan.nii"
              (world_of (disk "scan.nii" (nii zooms_xyz [f64 0 0; f64 4 0])))
              {| on_disk := DInt Int16; img_shape := [2%nat];
                 voxels := [f64 0 0; f64 4 0]; affine := [];
                 hdr := {| zooms := zooms_xyz; descrip := "" |} |}
              eq_refl eq_refl) as (dims & Hd & Hp).
  vm_compute in Hd. injection Hd as <-. rewrite Hp. reflexivity.
Defined.

Lemma print_nifti_info_prints_only (os : platform) (input_file : string)
  (w : world) :
  files (print_nifti_info os input_file w) = files w /\
  launched (print_nifti_info os input_file w) = launched w.
Proof.
  unfold print_nifti_info.
  destruct (nifti_utils_imports os); cbn [negb]; [|now split].
  destruct (load_nifti (files w) input_file) as [[[data aff] h]|];
    [|now split].
  destruct (get_pixel_dimensions_from_nifti _ _ _); now split.
Qed.

(** X12: with [--info] and an input that exists, [main] only prints: no
    file is written or copied, no process is started, and the exit status
    is 0 whatever the file is, also when it is named [.nii] and nibabel
    cannot read it. *)
Theorem main_info_only_prints
  (os : platform) (args : arguments) (w : world) (f : file)
  (Hinfo : info args = true)
  (Hinput : files w !! input args = Some f) :
  files (fst (main os args w)) = files w /\
  launched (fst (main os args w)) = launched w /\
  snd (main os args w) = 0.
Proof.
  unfold main. rewrite Hinput, Hinfo.
  destruct (_ || _); cbn [fst snd]; [|now repeat split].
  destruct (print_nifti_info_prints_only os (input args) w) as [-> ->].
  now repeat split.
Qed.

Lemma main_info_only_prints_witness :
  let args := {| input := "notes.nii"; config := None; output := None;
                 cores := "all"; dry_run := false; verbose := false;
                 info := true |} in
  let w := world_of (disk "notes.nii"
                       (TiffFile {| shape := []; buf := IntBuf UInt8 [] |})) in
  files (fst (main posix args w)) = files w /\
  launched (fst (main posix args w)) = launched w /\
  snd (main posix args w) = 0.
Proof.
  exact (main_info_only_prints posix
           {| input := "notes.nii"; config := None; output := None;
              cores := "all"; dry_run := false; verbose := false;
              info := true |}
           (world_of (disk "notes.nii"
                        (TiffFile {| shape := []; buf := IntBuf UInt8 [] |})))
           (TiffFile {| shape := []; buf := IntBuf UInt8 [] |})
           eq_refl eq_refl).
Defined.

(** * [vesselexpress_cli.py]: the workspace *)

Lemma path_eqb_eq (p q : PurePath) : path_eqb p q = true -> p = q.
Proof.
  unfold path_eqb. destruct p as [rp pp], q as [rq pq]. cbn [root parts].
  intros H. apply andb_prop in H as [Hr Hp].
  apply String.eqb_eq in Hr. apply bool_decide_eq_true in Hp. congruence.
Qed.

Section Steps.
Context {A B : Type}.

Lemma and_then_ret (a : A) (k : A -> step B) (w : world) :
  and_then (ret a) k w = k a w.
Proof. reflexivity. Qed.

Lemma and_then_raise (text : string) (k : A -> step B) (w : world) :
  and_then (raise text) k w = (w, Raises text).
Proof. reflexivity. Qed.

Lemma and_then_say (text : string) (k : unit -> step B) (w : world) :
  and_then (say text) k w = k tt (print text w).
Proof. reflexivity. Qed.

Lemma and_then_path_exists (p : PurePath) (k : bool -> step B) (w : world) :
  and_then (path_exists p) k w
  = k match files w !! str p with Some _ => true | None => false end w.
Proof. reflexivity. Qed.

Lemma and_then_copy2 (src dst : PurePath) (k : unit -> step B) (w : world)
  (f : file) :
  files w !! str src = Some f ->
  and_then (copy2 src dst) k w
  = k tt (set_files (<[str dst := f]> (files w)) w).
Proof. intros H. unfold and_then, copy2. now rewrite H. Qed.

Lemma and_then_assoc {C : Type} (c : step A) (k1 : A -> step B)
  (k2 : B -> step C) (w : world) :
  and_then (and_then c k1) k2 w
  = and_then c (fun a => and_then (k1 a) k2) w.
Proof. unfold and_then. destruct (c w) as [w1 [a|text]]; reflexivity. Qed.

End Steps.

(** The three stages of [setup_workspace]: the input, its copy, and the
    configuration. *)
Lemma setup_workspace_inv
  (os : platform) (input_file : string)
  (config_file output_dir : option string) (w w' : world)
  (r : outcome PurePath) :
  setup_workspace os input_file config_file output_dir w = (w', r) ->
  let workspace_dir :=
    match output_dir with
    | Some (String _ _ as d) => resolve os (Path d)
    | _ => truediv (vesselexpress_dir os) "data"
    end in
  let source := str (resolve os (Path input_file)) in
  let target := str (truediv workspace_dir
                       (name (resolve os (Path input_file)))) in
  let target_config := str (truediv workspace_dir "config.json") in
  let default_config :=
    str (truediv (truediv (vesselexpress_dir os) "data") "config.json") in
  launched w' = launched w /\
  match files w !! source with
  | None => w' = w /\ r = Raises ("Input file not found: " +:+ input_file)
  | Some f =>
      exists fs1,
        (fs1 = files w \/ fs1 = <[target := f]> (files w)) /\
        fs1 !! target = Some f /\
        match config_file with
        | Some (String _ _ as c) =>
            match fs1 !! str (resolve os (Path c)) with
            | None =>
                files w' = fs1 /\ r = Raises ("Config file not found: " +:+ c)
            | Some g =>
                files w' = <[target_config := g]> fs1 /\
                r = Returns workspace_dir
            end
        | _ =>
            r = Returns workspace_dir /\
            match fs1 !! target_config with
            | Some _ => files w' = fs1
            | None =>
                match fs1 !! default_config with
                | Some g => files w' = <[target_config := g]> fs1
                | None => files w' = fs1
                end
            end
        end
  end.
Proof.
  intros Hrun. cbv zeta. unfold setup_workspace in Hrun.
  set (ws := match output_dir with
             | Some (String _ _ as d) => resolve os (Path d)
             | _ => truediv (vesselexpress_dir os) "data"
             end) in *.
  set (I := resolve os (Path input_file)) in *.
  set (T := truediv ws (name I)) in *.
  set (TC := truediv ws "config.json") in *.
  set (DC := truediv (truediv (vesselexpress_dir os) "data") "config.json")
    in *.
  rewrite and_then_path_exists in Hrun.
  destruct (files w !! str I) as [f|] eqn:Hf; cbn [negb] in Hrun.
  2:{ injection Hrun as <- <-. now repeat split. }
  match type of Hrun with
  | and_then _ ?k _ = _ => set (rest := k) in *
  end.
  assert (Hrest : forall w1,
            rest tt w1 = (w', r) ->
            launched w' = launched w1 /\
            match config_file with
            | Some (String _ _ as c) =>
                match files w1 !! str (resolve os (Path c)) with
                | None =>
                    files w' = files w1 /\
                    r = Raises ("Config file not found: " +:+ c)
                | Some g =>
                    files w' = <[str TC := g]> (files w1) /\ r = Returns ws
                end
            | _ =>
                r = Returns ws /\
                match files w1 !! str TC with
                | Some _ => files w' = files w1
                | None =>
                    match files w1 !! str DC with
                    | Some g => files w' = <[str TC := g]> (files w1)
                    | None => files w' = files w1
                    end
                end
            end).
  { intros w1 H1. subst rest. cbv beta in H1.
    assert (Hfalse :
              and_then
                (do! found := path_exists TC in
                 if found then ret tt
                 else
                   do! found := path_exists DC in
                   if found then
                     do! _ := copy2 DC TC in
                     say ("Using default config file: " +:+ str TC)
                   else
                     say "Warning: No config file found. Using Snakemake defaults.")
                (fun _ => ret ws) w1 = (w', r) ->
              launched w' = launched w1 /\
              r = Returns ws /\
              match files w1 !! str TC with
              | Some _ => files w' = files w1
              | None =>
                  match files w1 !! str DC with
                  | Some g => files w' = <[str TC := g]> (files w1)
                  | None => files w' = files w1
                  end
              end).
    { intros H. rewrite and_then_assoc, and_then_path_exists in H.
      destruct (files w1 !! str TC) as [g|].
      - injection H as <- <-. now repeat split.
      - rewrite and_then_assoc, and_then_path_exists in H.
        destruct (files w1 !! str DC) as [g|] eqn:Hg.
        + rewrite and_then_assoc, (and_then_copy2 _ _ _ _ g Hg) in H.
          injection H as <- <-. now repeat split.
        + injection H as <- <-. now repeat split. }
    destruct config_file as [[|c0 c]|].
    - now apply Hfalse.
    - rewrite and_then_assoc, and_then_path_exists in H1.
      destruct (files w1 !! str (resolve os (Path (String c0 c))))
        as [g|] eqn:Hg; cbn [negb] in H1.
      + rewrite and_then_assoc, (and_then_copy2 _ _ _ _ g Hg) in H1.
        injection H1 as <- <-. now repeat split.
      + injection H1 as <- <-. now repeat split.
    - now apply Hfalse. }
  destruct (path_eqb T I) eqn:Heq.
  - rewrite and_then_ret in Hrun. destruct (Hrest w Hrun) as [Hl Hc].
    split; [exact Hl|]. exists (files w). split; [now left|]. split; [|exact Hc].
    apply path_eqb_eq in Heq. now rewrite Heq.
  - rewrite and_then_assoc, (and_then_copy2 _ _ _ _ f Hf), and_then_say in Hrun.
    destruct (Hrest _ Hrun) as [Hl Hc]. split; [exact Hl|].
    exists (<[str T := f]> (files w)). split; [now right|].
    split; [apply lookup_insert_eq|exact Hc].
Qed.

(** X13: a workspace that is set up holds the input under its own name.
    The workspace is the resolved [output_dir], or the directory [data] of
    [VesselExpress] when none is given; after a successful setup the file
    that was at the resolved input path is at [workspace_dir / name] as it
    was, not converted, and the input path still holds it (each unless it
    is the path of the workspace's [config.json]). *)
Theorem setup_workspace_copies_input
  (os : platform) (input_file : string)
  (config_file output_dir : option string) (w w' : world)
  (workspace_dir : PurePath)
  (Hrun : setup_workspace os input_file config_file output_dir w
          = (w', Returns workspace_dir)) :
  let input_path := resolve os (Path input_file) in
  let target_file := truediv workspace_dir (name input_path) in
  let target_config := truediv workspace_dir "config.json" in
  workspace_dir = match output_dir with
                  | Some (String _ _ as d) => resolve os (Path d)
                  | _ => truediv (vesselexpress_dir os) "data"
                  end /\
  exists f,
    files w !! str input_path = Some f /\
    (str target_file <> str target_config ->
     files w' !! str target_file = Some f) /\
    (str input_path <> str target_config ->
     files w' !! str input_path = Some f).
Proof.
  cbv zeta. pose proof (setup_workspace_inv _ _ _ _ _ _ _ Hrun) as [_ H].
  cbv zeta in H.
  set (ws := match output_dir with
             | Some (String _ _ as d) => resolve os (Path d)
             | _ => truediv (vesselexpress_dir os) "data"
             end) in *.
  destruct (files w !! str (resolve os (Path input_file))) as [f|] eqn:Hf;
    [|now destruct H].
  destruct H as (fs1 & Hfs1 & Ht & Hc).
  assert (Hs : fs1 !! str (resolve os (Path input_file)) = Some f).
  { destruct Hfs1 as [->| ->]; [exact Hf|]. rewrite lookup_insert.
    now destruct (decide _). }
  assert (Hw : workspace_dir = ws /\
               (files w' = fs1 \/
                exists g, files w' = <[str (truediv ws "config.json") := g]> fs1)).
  { clear Hs Ht.
    destruct config_file as [[|c0 c]|];
      repeat match type of Hc with
             | context [match ?x with _ => _ end] => destruct x
             end;
      destruct Hc as [Hc Hc']; try discriminate Hc';
      try injection Hc as ->; try injection Hc' as ->; eauto. }
  destruct Hw as [-> Hw]. split; [reflexivity|]. exists f.
  split; [reflexivity|].
  destruct Hw as [->|[g ->]]; split; intros Hne; try assumption;
    rewrite lookup_insert_ne by congruence; assumption.
Qed.

Lemma setup_workspace_copies_input_witness :
  let run := setup_workspace posix "/data/scan.nii" None
               (Some "/work"%string) data_only in
  snd run = Returns (Path "/work") /\
  files (fst run) !! "/work/scan.nii"%string = Some scan_nii.
Proof.
  cbv zeta. split; [vm_compute; reflexivity|].
  destruct (setup_workspace_copies_input posix "/data/scan.nii" None
              (Some "/work"%string) data_only
              (fst (setup_workspace posix "/data/scan.nii" None
                      (Some "/work"%string) data_only))
              (Path "/work") ltac:(vm_compute; reflexivity))
    as (_ & f & Hf & Ht & _).
  vm_compute in Hf. injection Hf as <-.
  apply Ht. vm_compute. discriminate.
Defined.

(** X14: a configuration named with [-c] wins.  After a successful setup
    the workspace's [config.json] holds the file that was at the resolved
    path of the configuration, whatever [config.json] the workspace had
    (the configuration not being the copy of the input just made). *)
Theorem setup_workspace_explicit_config
  (os : platform) (input_file config_file : string)
  (output_dir : option string) (w w' : world) (workspace_dir : PurePath)
  (Hrun : setup_workspace os input_file (Some config_file) output_dir w
          = (w', Returns workspace_dir))
  (Hgiven : config_file <> ""%string)
  (Hcopy : str (resolve os (Path config_file))
           <> str (truediv workspace_dir
                     (name (resolve os (Path input_file))))) :
  exists g,
    files w !! str (resolve os (Path config_file)) = Some g /\
    files w' !! str (truediv workspace_dir "config.json") = Some g.
Proof.
  pose proof (setup_workspace_inv _ _ _ _ _ _ _ Hrun) as [_ H].
  cbv zeta in H.
  set (ws := match output_dir with
             | Some (String _ _ as d) => resolve os (Path d)
             | _ => truediv (vesselexpress_dir os) "data"
             end) in *.
  destruct (files w !! str (resolve os (Path input_file))) as [f|];
    [|now destruct H].
  destruct H as (fs1 & Hfs1 & _ & Hc).
  destruct config_file as [|c0 c]; [now destruct Hgiven|].
  destruct (fs1 !! str (resolve os (Path (String c0 c)))) as [g|] eqn:Hg;
    [|now destruct Hc].
  destruct Hc as [Hw [= ->]]. exists g. split.
  - destruct Hfs1 as [->| ->]; [exact Hg|].
    rewrite lookup_insert_ne in Hg by congruence. exact Hg.
  - rewrite Hw. apply lookup_insert_eq.
Qed.

Lemma setup_workspace_explicit_config_witness :
  let run := setup_workspace posix "/data/scan.nii"
               (Some "/data/my.json"%string) (Some "/work"%string)
               with_two_configs in
  snd run = Returns (Path "/work") /\
  files with_two_configs !! "/work/config.json"%string = Some (stand_in 1) /\
  files (fst run) !! "/work/config.json"%string = Some (stand_in 2).
Proof.
  cbv zeta. split; [vm_compute; reflexivity|]. split; [reflexivity|].
  destruct (setup_workspace_explicit_config posix "/data/scan.nii"
              "/data/my.json" (Some "/work"%string) with_two_configs
              (fst (setup_workspace posix "/data/scan.nii"
                      (Some "/data/my.json"%string) (Some "/work"%string)
                      with_two_configs))
              (Path "/work") ltac:(vm_compute; reflexivity)
              ltac:(discriminate) ltac:(vm_compute; discriminate))
    as (g & Hg & Hc).
  vm_compute in Hg. injection Hg as <-. exact Hc.
Defined.

(** X15: without [-c] a [config.json] that the workspace has is kept; only
    when it has none is the default one, [VesselExpress/data/config.json],
    copied in, if that exists (the copy of the input being neither of the
    two). *)
Theorem setup_workspace_keeps_config
  (os : platform) (input_file : string)
  (config_file output_dir : option string) (w w' : world)
  (workspace_dir : PurePath)
  (Hrun : setup_workspace os input_file config_file output_dir w
          = (w', Returns workspace_dir))
  (Hnone : config_file = None \/ config_file = Some ""%string)
  (Hcopy : str (truediv workspace_dir (name (resolve os (Path input_file))))
           <> str (truediv workspace_dir "config.json"))
  (Hcopy' : str (truediv workspace_dir (name (resolve os (Path input_file))))
            <> str (truediv (truediv (vesselexpress_dir os) "data")
                      "config.json")) :
  files w' !! str (truediv workspace_dir "config.json")
  = match files w !! str (truediv workspace_dir "config.json") with
    | Some g => Some g
    | None =>
        files w !! str (truediv (truediv (vesselexpress_dir os) "data")
                          "config.json")
    end.
Proof.
  pose proof (setup_workspace_inv _ _ _ _ _ _ _ Hrun) as [_ H].
  cbv zeta in H.
  set (ws := match output_dir with
             | Some (String _ _ as d) => resolve os (Path d)
             | _ => truediv (vesselexpress_dir os) "data"
             end) in *.
  destruct (files w !! str (resolve os (Path input_file))) as [f|];
    [|now destruct H].
  destruct H as (fs1 & Hfs1 & _ & Hc).
  assert (Hc' : workspace_dir = ws /\
                match fs1 !! str (truediv ws "config.json") with
                | Some _ => files w' = fs1
                | None =>
                    match fs1 !! str (truediv
                                        (truediv (vesselexpress_dir os) "data")
                                        "config.json") with
                    | Some g =>
                        files w' = <[str (truediv ws "config.json") := g]> fs1
                    | None => files w' = fs1
                    end
                end).
  { destruct Hnone as [-> | ->]; destruct Hc as [[= ->] Hc]; now split. }
  clear Hc. destruct Hc' as [-> Hc].
  assert (Hsame : forall q,
            q <> str (truediv ws (name (resolve os (Path input_file)))) ->
            fs1 !! q = files w !! q).
  { intros q Hq. destruct Hfs1 as [->| ->]; [reflexivity|].
    now rewrite lookup_insert_ne by congruence. }
  rewrite <- !Hsame by congruence.
  destruct (fs1 !! str (truediv ws "config.json")) as [g|] eqn:Hg.
  - now rewrite Hc.
  - destruct (fs1 !! str (truediv (truediv (vesselexpress_dir os) "data")
                            "config.json")) as [g|].
    + rewrite Hc. apply lookup_insert_eq.
    + now rewrite Hc.
Qed.

Lemma setup_workspace_keeps_config_witness :
  let run := setup_workspace posix "/data/scan.nii" None
               (Some "/work"%string) with_default_config in
  snd run = Returns (Path "/work") /\
  files (fst run) !! "/work/config.json"%string = Some (stand_in 1).
Proof.
  cbv zeta. split; [vm_compute; reflexivity|].
  exact (setup_workspace_keeps_config posix "/data/scan.nii" None
           (Some "/work"%string) with_default_config
           (fst (setup_workspace posix "/data/scan.nii" None
                   (Some "/work"%string) with_default_config))
           (Path "/work") ltac:(vm_compute; reflexivity)
           (or_introl eq_refl)
           ltac:(vm_compute; discriminate) ltac:(vm_compute; discriminate)).
Defined.

(** X16: with neither [-o] nor [-c] the setup installs no configuration.
    The workspace is then [VesselExpress/data], whose [config.json] is the
    default configuration itself: a successful setup writes the copy of the
    input and nothing else. *)
Theorem setup_default_workspace_writes_input_only
  (os : platform) (input_file : string)
  (config_file output_dir : option string) (w w' : world)
  (workspace_dir : PurePath)
  (Hrun : setup_workspace os input_file config_file output_dir w
          = (w', Returns workspace_dir))
  (Hconfig : config_file = None \/ config_file = Some ""%string)
  (Houtput : output_dir = None \/ output_dir = Some ""%string) :
  workspace_dir = truediv (vesselexpress_dir os) "data" /\
  forall q,
    q <> str (truediv workspace_dir (name (resolve os (Path input_file)))) ->
    files w' !! q = files w !! q.
Proof.
  pose proof (setup_workspace_inv _ _ _ _ _ _ _ Hrun) as [_ H].
  cbv zeta in H.
  assert (Hws : match output_dir with
                | Some (String _ _ as d) => resolve os (Path d)
                | _ => truediv (vesselexpress_dir os) "data"
                end = truediv (vesselexpress_dir os) "data")
    by now destruct Houtput as [-> | ->].
  rewrite Hws in H. clear Hws.
  destruct (files w !! str (resolve os (Path input_file))) as [f|];
    [|now destruct H].
  destruct H as (fs1 & Hfs1 & _ & Hc).
  assert (Hc' : workspace_dir = truediv (vesselexpress_dir os) "data" /\
                files w' = fs1).
  { destruct Hconfig as [-> | ->]; destruct Hc as [[= ->] Hc];
      (split; [reflexivity|]);
      repeat match type of Hc with
             | context [match ?x with _ => _ end] => destruct x eqn:?
             end; try assumption; congruence. }
  destruct Hc' as [-> ->]. split; [reflexivity|].
  intros q Hq. destruct Hfs1 as [->| ->]; [reflexivity|].
  now rewrite lookup_insert_ne by congruence.
Qed.

Lemma setup_default_workspace_writes_input_only_witness :
  let run := setup_workspace posix "/data/scan.nii" None None data_only in
  snd run = Returns (Path "/opt/ve/VesselExpress/data") /\
  files (fst run) !! "/opt/ve/VesselExpress/data/config.json"%string = None.
Proof.
  cbv zeta. split; [vm_compute; reflexivity|].
  destruct (setup_default_workspace_writes_input_only posix "/data/scan.nii"
              None None data_only
              (fst (setup_workspace posix "/data/scan.nii" None None
                      data_only))
              (Path "/opt/ve/VesselExpress/data")
              ltac:(vm_compute; reflexivity)
              (or_introl eq_refl) (or_introl eq_refl)) as [_ H].
  rewrite H; [reflexivity|vm_compute; discriminate].
Defined.

(** X17: a missing configuration is found late.  When [setup_workspace]
    ends in the exception "Config file not found", the test of the input
    has passed and the input has been copied (line 54 runs before line
    62): the exception leaves that copy in the workspace, and nothing is at
    the resolved configuration path. *)
Theorem setup_workspace_config_not_found
  (os : platform) (input_file : string)
  (config_file output_dir : option string) (w w' : world) (c : string)
  (Hrun : setup_workspace os input_file config_file output_dir w
          = (w', Raises ("Config file not found: " +:+ c))) :
  let workspace_dir :=
    match output_dir with
    | Some (String _ _ as d) => resolve os (Path d)
    | _ => truediv (vesselexpress_dir os) "data"
    end in
  let input_path := resolve os (Path input_file) in
  config_file = Some c /\ c <> ""%string /\
  files w' !! str (resolve os (Path c)) = None /\
  exists f,
    files w !! str input_path = Some f /\
    files w' !! str (truediv workspace_dir (name input_path)) = Some f.
Proof.
  cbv zeta. pose proof (setup_workspace_inv _ _ _ _ _ _ _ Hrun) as [_ H].
  cbv zeta in H.
  destruct (files w !! str (resolve os (Path input_file))) as [f|].
  - destruct H as (fs1 & _ & Ht & Hc).
    destruct config_file as [[|c0 c1]|]; try (now destruct Hc).
    destruct (fs1 !! str (resolve os (Path (String c0 c1)))) eqn:Hg;
      [now destruct Hc|].
    destruct Hc as [Hw Htext].
    assert (Hc' : c = String c0 c1).
    { injection Htext as Htext. exact Htext. }
    subst c. rewrite Hw. repeat split; try assumption; try discriminate.
    now exists f.
  - destruct H as [_ Htext]. discriminate Htext.
Qed.

Lemma setup_workspace_config_not_found_witness :
  let run := setup_workspace posix "/data/scan.nii"
               (Some "/data/none.json"%string) (Some "/work"%string)
               data_only in
  snd run = Raises "Config file not found: /data/none.json" /\
  files (fst run) !! "/work/scan.nii"%string = Some scan_nii.
Proof.
  cbv zeta. split; [vm_compute; reflexivity|].
  destruct (setup_workspace_config_not_found posix "/data/scan.nii"
              (Some "/data/none.json"%string) (Some "/work"%string)
              data_only
              (fst (setup_workspace posix "/data/scan.nii"
                      (Some "/data/none.json"%string) (Some "/work"%string)
                      data_only))
              "/data/none.json"
              ltac:(vm_compute; reflexivity))
    as (_ & _ & _ & f & Hf & Ht).
  vm_compute in Hf. injection Hf as <-. exact Ht.
Defined.

(** * [vesselexpress_cli.py]: the workflow engine *)



(** * The rescaling keeps the order of the samples *)

(** ** Rounding a quotient to the nearest integer *)

Lemma rneq_bounds (N D : Z) : N / D <= rneq N D <= N / D + 1.
Proof. unfold rneq. destruct (_ || _); lia. Qed.

Lemma rne_rneq (N k : Z) : rne N k = rneq N (2 ^ k).
Proof. reflexivity. Qed.

Lemma rneq_exact (F D : Z) : 0 < D -> rneq (F * D) D = F.
Proof.
  intros HD. unfold rneq. rewrite Z_div_mult, Z_mod_mult by lia.
  replace (D <? 2 * 0) with false by (symmetry; apply Z.ltb_ge; lia).
  replace (2 * 0 =? D) with false by (symmetry; apply Z.eqb_neq; lia).
  reflexivity.
Qed.

Lemma rneq_mono (N1 N2 D : Z) :
  0 < D -> N1 <= N2 -> rneq N1 D <= rneq N2 D.
Proof.
  intros HD HN.
  assert (Hq : N1 / D <= N2 / D) by (apply Z.div_le_mono; lia).
  destruct (Z.eq_dec (N1 / D) (N2 / D)) as [E|E].
  - assert (Hr : N1 mod D <= N2 mod D).
    { rewrite !Z.mod_eq by lia. rewrite E. lia. }
    unfold rneq. rewrite E.
    destruct (Z.ltb_spec D (2 * (N1 mod D))) as [H1|H1];
      destruct (Z.ltb_spec D (2 * (N2 mod D))) as [H2|H2];
      cbn [orb]; try lia.
    + destruct (_ && _); lia.
    + destruct (Z.eqb_spec (2 * (N1 mod D)) D) as [E1|E1];
        destruct (Z.eqb_spec (2 * (N2 mod D)) D) as [E2|E2];
        cbn [andb]; try lia; destruct (Z.odd _); lia.
  - pose proof (rneq_bounds N1 D). pose proof (rneq_bounds N2 D). lia.
Qed.

Lemma rneq_scale (N D c : Z) :
  0 < D -> 0 < c -> rneq (N * c) (D * c) = rneq N D.
Proof.
  intros HD Hc. unfold rneq.
  rewrite Z.div_mul_cancel_r by lia.
  rewrite Z.mul_mod_distr_r by lia.
  replace (D * c <? 2 * (N mod D * c)) with (D <? 2 * (N mod D)).
  2:{ destruct (Z.ltb_spec D (2 * (N mod D)));
      symmetry; [apply Z.ltb_lt|apply Z.ltb_ge]; nia. }
  replace (2 * (N mod D * c) =? D * c) with (2 * (N mod D) =? D).
  2:{ destruct (Z.eqb_spec (2 * (N mod D)) D);
      symmetry; [apply Z.eqb_eq|apply Z.eqb_neq]; nia. }
  reflexivity.
Qed.

(** The rounding depends on the quotient only. *)
Lemma rneq_ratio (N1 D1 N2 D2 : Z) :
  0 < D1 -> 0 < D2 -> N1 * D2 = N2 * D1 -> rneq N1 D1 = rneq N2 D2.
Proof.
  intros H1 H2 E.
  rewrite <- (rneq_scale N1 D1 D2 H1 H2), <- (rneq_scale N2 D2 D1 H2 H1).
  rewrite E. f_equal. lia.
Qed.

Lemma rneq_le_int (N D F : Z) : 0 < D -> N <= F * D -> rneq N D <= F.
Proof.
  intros HD HN. rewrite <- (rneq_exact F D HD). now apply rneq_mono.
Qed.

Lemma rneq_ge_int (N D F : Z) : 0 < D -> F * D <= N -> F <= rneq N D.
Proof.
  intros HD HN. rewrite <- (rneq_exact F D HD). now apply rneq_mono.
Qed.

(** ** The location of a remainder *)

Lemma new_location_spec (D R : Z) :
  0 < D -> 0 <= R < D ->
  new_location D R
  = if R =? 0 then loc_Exact else loc_Inexact (2 * R ?= D).
Proof.
  intros HD HR. unfold new_location, new_location_even, new_location_odd.
  destruct (Z.even D) eqn:He; [reflexivity|].
  destruct (R =? 0); [reflexivity|]. f_equal.
  pose proof (Zmod_even D) as Hm. rewrite He in Hm.
  pose proof (Z.div_mod D 2 ltac:(lia)) as Hd.
  destruct (Z.compare_spec (2 * R + 1) D), (Z.compare_spec (2 * R) D);
    try reflexivity; lia.
Qed.

(** ** Shifting a mantissa that carries a location *)

Lemma iter_shr_1_sticky (N : Z) (r s : bool) (n : nat) :
  0 <= N ->
  Nat.iter (S n) shr_1 {| shr_m := N; shr_r := r; shr_s := s |}
  = {| shr_m := N / 2 ^ Z.of_nat (S n);
       shr_r := Z.odd (N / 2 ^ Z.of_nat n);
       shr_s := negb (N mod 2 ^ Z.of_nat n =? 0) || (r || s) |}.
Proof.
  intros HN. induction n as [|n IH].
  - cbn [Nat.iter nat_rect]. rewrite shr_1_pos by assumption.
    cbn [Z.of_nat]. rewrite Z.pow_0_r, Z.div_1_r, Z.mod_1_r.
    change (2 ^ Z.pos (Pos.of_succ_nat 0)) with 2. reflexivity.
  - change (Nat.iter (S (S n)) shr_1 ?x) with (shr_1 (Nat.iter (S n) shr_1 x)).
    rewrite IH.
    assert (Hp : 0 < 2 ^ Z.of_nat n) by (apply Z.pow_pos_nonneg; lia).
    rewrite shr_1_pos by (apply Z.div_pos; [lia|apply Z.pow_pos_nonneg; lia]).
    f_equal.
    + rewrite Z.div_div by (try apply Z.pow_pos_nonneg; lia).
      f_equal. rewrite (Nat2Z.inj_succ (S n)), Z.pow_succ_r by lia. lia.
    + rewrite (Nat2Z.inj_succ n). unfold Z.succ.
      rewrite mod_pow2_succ by lia.
      pose proof (Z.mod_pos_bound N (2 ^ Z.of_nat n) Hp).
      destruct (Z.odd (N / 2 ^ Z.of_nat n)); cbn [orb].
      * symmetry. apply orb_true_iff. left.
        apply negb_true_iff, Z.eqb_neq. lia.
      * now rewrite Z.add_0_r.
Qed.

Lemma div_mod_quot (M D R c : Z) :
  0 < D -> 0 <= R < D -> 0 < c ->
  (M * D + R) / (D * c) = M / c /\
  (M * D + R) mod (D * c) = (M mod c) * D + R.
Proof.
  intros HD HR Hc.
  pose proof (Z.div_mod M c ltac:(lia)) as Hm.
  pose proof (Z.mod_pos_bound M c Hc) as Hb.
  assert (Hq : (M * D + R) / (D * c) = M / c).
  { symmetry. apply Z.div_unique with ((M mod c) * D + R); nia. }
  split; [exact Hq|].
  rewrite Z.mod_eq by nia. rewrite Hq. nia.
Qed.

(** After [k] shifts the rounded mantissa is the rounding of the
    quotient, remainder included. *)
Lemma shr_round_quot (M D R E k : Z) :
  0 <= M -> 0 < D -> 0 <= R < D -> 0 <= k ->
  exists mrs,
    shr (shr_record_of_loc M (new_location D R)) E k = (mrs, E + k) /\
    round_nearest_even (shr_m mrs) (loc_of_shr_record mrs)
    = rneq (M * D + R) (D * 2 ^ k).
Proof.
  intros HM HD HR Hk. rewrite new_location_spec by assumption.
  destruct k as [|p|p]; [| |lia].
  - eexists. split; [cbn [shr]; now rewrite Z.add_0_r|].
    rewrite shr_m_of_loc, loc_of_shr_record_of_loc.
    destruct (div_mod_quot M D R 1 HD HR ltac:(lia)) as [Hq Hr].
    rewrite Z.div_1_r in Hq. rewrite Z.mod_1_r in Hr.
    rewrite Z.mul_0_l, Z.add_0_l in Hr. rewrite Z.pow_0_r.
    unfold rneq. rewrite Hq, Hr.
    destruct (Z.eqb_spec R 0) as [->|HR0]; cbn [round_nearest_even].
    + replace (D * 1 <? 2 * 0) with false by (symmetry; apply Z.ltb_ge; lia).
      replace (2 * 0 =? D * 1) with false by (symmetry; apply Z.eqb_neq; lia).
      reflexivity.
    + destruct (Z.compare_spec (2 * R) D) as [Hc|Hc|Hc].
      * replace (D * 1 <? 2 * R) with false by (symmetry; apply Z.ltb_ge; lia).
        replace (2 * R =? D * 1) with true by (symmetry; apply Z.eqb_eq; lia).
        cbn [orb andb]. rewrite <- Z.negb_odd.
        destruct (Z.odd M); reflexivity.
      * replace (D * 1 <? 2 * R) with false by (symmetry; apply Z.ltb_ge; lia).
        replace (2 * R =? D * 1) with false by (symmetry; apply Z.eqb_neq; lia).
        reflexivity.
      * replace (D * 1 <? 2 * R) with true by (symmetry; apply Z.ltb_lt; lia).
        reflexivity.
  - eexists. split; [reflexivity|]. rewrite iter_pos_nat.
    destruct (Pos.to_nat p) as [|n] eqn:Hn; [lia|].
    assert (Hkn : Zpos p = Z.of_nat n + 1) by lia.
    assert (HP : 0 < 2 ^ Z.of_nat n) by (apply Z.pow_pos_nonneg; lia).
    assert (Hrec : exists r0 s0,
               shr_record_of_loc M
                 (if R =? 0 then loc_Exact else loc_Inexact (2 * R ?= D))
               = {| shr_m := M; shr_r := r0; shr_s := s0 |} /\
               (r0 || s0) = negb (R =? 0)).
    { destruct (R =? 0); [now exists false, false|].
      destruct (2 * R ?= D); cbn [shr_record_of_loc];
        eexists _, _; split; reflexivity. }
    destruct Hrec as (r0 & s0 & -> & Hrs).
    rewrite iter_shr_1_sticky by assumption. rewrite Hrs.
    cbn [shr_m]. rewrite Hkn.
    replace (Z.of_nat (S n)) with (Z.of_nat n + 1) by lia.
    rewrite Z.pow_add_r, Z.pow_1_r by lia.
    set (P := 2 ^ Z.of_nat n) in *.
    destruct (div_mod_quot M D R (P * 2) HD HR ltac:(lia)) as [Hq Hr].
    unfold rneq. rewrite Hq, Hr.
    pose proof (mod_pow2_succ M (Z.of_nat n) ltac:(lia)) as Hms.
    rewrite Z.pow_add_r, Z.pow_1_r in Hms by lia. fold P in Hms.
    rewrite Hms.
    pose proof (Z.mod_pos_bound M P HP) as Hmu.
    set (mu := M mod P) in *. set (q := M / (P * 2)).
    unfold loc_of_shr_record. cbn [shr_r shr_s].
    destruct (Z.odd (M / P));
      destruct (Z.eqb_spec mu 0) as [Emu|Emu];
      destruct (Z.eqb_spec R 0) as [ER|ER];
      cbn [negb orb round_nearest_even].
    + rewrite Emu, ER.
      replace (D * (P * 2) <? 2 * ((0 + P) * D + 0)) with false
        by (symmetry; apply Z.ltb_ge; lia).
      replace (2 * ((0 + P) * D + 0) =? D * (P * 2)) with true
        by (symmetry; apply Z.eqb_eq; lia).
      cbn [orb andb]. rewrite <- Z.negb_odd.
      destruct (Z.odd q); reflexivity.
    + replace (D * (P * 2) <? 2 * ((mu + P) * D + R)) with true
        by (symmetry; apply Z.ltb_lt; nia).
      reflexivity.
    + replace (D * (P * 2) <? 2 * ((mu + P) * D + R)) with true
        by (symmetry; apply Z.ltb_lt; nia).
      reflexivity.
    + replace (D * (P * 2) <? 2 * ((mu + P) * D + R)) with true
        by (symmetry; apply Z.ltb_lt; nia).
      reflexivity.
    + replace (D * (P * 2) <? 2 * ((mu + 0) * D + R)) with false
        by (symmetry; apply Z.ltb_ge; nia).
      replace (2 * ((mu + 0) * D + R) =? D * (P * 2)) with false
        by (symmetry; apply Z.eqb_neq; nia).
      reflexivity.
    + replace (D * (P * 2) <? 2 * ((mu + 0) * D + R)) with false
        by (symmetry; apply Z.ltb_ge; nia).
      replace (2 * ((mu + 0) * D + R) =? D * (P * 2)) with false
        by (symmetry; apply Z.eqb_neq; nia).
      reflexivity.
    + replace (D * (P * 2) <? 2 * ((mu + 0) * D + R)) with false
        by (symmetry; apply Z.ltb_ge; nia).
      replace (2 * ((mu + 0) * D + R) =? D * (P * 2)) with false
        by (symmetry; apply Z.eqb_neq; nia).
      reflexivity.
    + replace (D * (P * 2) <? 2 * ((mu + 0) * D + R)) with false
        by (symmetry; apply Z.ltb_ge; nia).
      replace (2 * ((mu + 0) * D + R) =? D * (P * 2)) with false
        by (symmetry; apply Z.eqb_neq; nia).
      reflexivity.
Qed.

Section Quotient.

Variables prec emax : Z.
Hypothesis prec_pos : 0 < prec.

Local Abbreviation fexp := (fexp prec emax).
Local Abbreviation emin := (emin prec emax).

(** [binary_round_aux] on a quotient [(M * D + R) / D] at exponent [E]:
    the quotient is divided by [2^(t - E)] and rounded once, to [m1], and
    [m1 * 2^t] is returned in canonical form. *)
Lemma binary_round_aux_quot (s : bool) (M E D R : Z) :
  0 <= M -> E <= fexp (Zdigits2 M + E) -> 0 < D -> 0 <= R < D ->
  let t := fexp (Zdigits2 M + E) in
  let m1 := rneq (M * D + R) (D * 2 ^ (t - E)) in
  (m1 = 0 /\
   binary_round_aux prec emax s M E (new_location D R) = S754_zero s) \/
  (0 < m1 /\
   exists (m2 : positive) (e2 : Z),
     t <= e2 /\
     Zpos m2 * 2 ^ (e2 - t) = m1 /\
     fexp (Zpos (digits2_pos m2) + e2) = e2 /\
     binary_round_aux prec emax s M E (new_location D R)
     = if e2 <=? emax - prec then S754_finite s m2 e2
       else S754_infinity s).
Proof.
  intros HM Hk HD HR. cbv zeta.
  set (t := fexp (Zdigits2 M + E)) in *.
  set (k := t - E).
  assert (Hk0 : 0 <= k) by (subst k; lia).
  destruct (shr_round_quot M D R E k HM HD HR Hk0) as (mrs & Hshr & Hm1).
  destruct (shr_stage M E k (new_location D R) HM Hk0)
    as (mrs' & Hshr' & Hb & _).
  rewrite Hshr in Hshr'. injection Hshr' as <-.
  rewrite Hm1 in Hb.
  set (m1 := rneq (M * D + R) (D * 2 ^ k)) in *.
  assert (Hbra : binary_round_aux prec emax s M E (new_location D R)
                 = let '(mrs2, e2) := shr_fexp prec emax m1 t loc_Exact in
                   match shr_m mrs2 with
                   | 0 => S754_zero s
                   | Zpos m => if e2 <=? emax - prec then S754_finite s m e2
                               else S754_infinity s
                   | Zneg _ => S754_nan
                   end).
  { unfold binary_round_aux. unfold shr_fexp at 1. fold t. fold k.
    rewrite Hshr. cbv beta iota. replace (E + k) with t by (subst k; lia).
    rewrite Hm1. reflexivity. }
  rewrite Hbra. clear Hbra.
  pose proof (pow2_pos k Hk0) as Hpk.
  assert (Hq0 : 0 <= M / 2 ^ k) by (apply Z.div_pos; lia).
  destruct (Z.eq_dec m1 0) as [Hz|Hz].
  - left. split; [exact Hz|]. rewrite Hz. unfold shr_fexp, shr.
    cbn [Zdigits2 shr_record_of_loc].
    destruct (fexp (0 + t) - t) as [|p|p]; cbn [shr_m]; try reflexivity.
    rewrite iter_pos_nat, iter_shr_m by (cbn; lia). cbn [shr_m].
    now rewrite Z.div_0_l by (apply Z.pow_nonzero; lia).
  - right. assert (Hm1p : 0 < m1) by lia. split; [exact Hm1p|].
    pose proof (Zdigits2_nonneg M) as HdM.
    assert (Hst : exists delta, 0 <= delta /\ 2 ^ (delta - 1) <= m1 <= 2 ^ delta
                                /\ fexp (delta + t) = t).
    { destruct (Z.le_gt_cases 1 (Zdigits2 M - k)) as [Hc|Hc].
      - exists (Zdigits2 M - k).
        assert (HMp : 0 < M) by (destruct M; cbn in *; lia).
        destruct (Zdigits2_bounds M HMp) as (_ & Hl & Hu).
        split; [lia|]. split; [split|].
        + apply Z.le_trans with (M / 2 ^ k); [|lia].
          apply Z.div_le_lower_bound; [lia|].
          rewrite Z.mul_comm, <- Z.pow_add_r by lia.
          now replace (Zdigits2 M - k - 1 + k) with (Zdigits2 M - 1) by lia.
        + assert (M / 2 ^ k < 2 ^ (Zdigits2 M - k)); [|lia].
          apply Z.div_lt_upper_bound; [lia|].
          rewrite <- Z.pow_add_r by lia.
          now replace (k + (Zdigits2 M - k)) with (Zdigits2 M) by lia.
        + replace (Zdigits2 M - k + t) with (Zdigits2 M + E) by (subst k; lia).
          reflexivity.
      - exists 0. split; [lia|].
        assert (Hq : M / 2 ^ k = 0).
        { apply Z.div_small. split; [lia|].
          destruct (Z.eq_dec M 0) as [->|]; [lia|].
          destruct (Zdigits2_bounds M ltac:(lia)) as (_ & _ & Hu).
          apply Z.lt_le_trans with (2 ^ Zdigits2 M); [assumption|].
          apply Z.pow_le_mono_r; lia. }
        split; [cbn; lia|].
        subst t k. unfold SpecFloat.fexp in *. lia. }
    destruct Hst as (delta & Hd & Hbd & Hft).
    destruct (renormalize_stage prec emax prec_pos m1 t delta Hm1p Hd Hbd Hft)
      as (mrs2 & e2 & Hs2 & Hp2 & Hle & Hval & Hcan).
    rewrite Hs2. destruct (shr_m mrs2) as [|m2|m2] eqn:Hm2; try lia.
    exists m2, e2. repeat split; assumption.
Qed.

(** ** A rounded quotient as a function of the quotient *)

(** The two bounds that fix the exponent [t] of the rounding of
    [NT / Dn * 2^t]: the mantissa is below [2^prec], and at least
    [2^(prec - 1)] above the smallest exponent. *)
Lemma binade_bounds (X Y dQ E NT Dn t : Z) :
  0 < Y -> 0 < Dn -> 0 <= dQ ->
  t = fexp (dQ + E) -> E <= t ->
  X < 2 ^ dQ * Y ->
  (1 <= dQ -> 2 ^ (dQ - 1) * Y <= X) ->
  X * Dn = NT * (Y * 2 ^ (t - E)) ->
  NT < 2 ^ prec * Dn /\
  (emin < t -> 2 ^ (prec - 1) * Dn <= NT).
Proof.
  intros HY HDn HdQ Ht HE Hub Hlb Heq.
  pose proof (pow2_pos (t - E) ltac:(lia)) as HK.
  set (K := 2 ^ (t - E)) in *.
  assert (HYK : 0 < Y * K) by nia.
  assert (Hfe : dQ + E - prec <= t) by (rewrite Ht; unfold SpecFloat.fexp; lia).
  split.
  - assert (Hp : 2 ^ dQ <= 2 ^ prec * K).
    { subst K. rewrite <- Z.pow_add_r by lia. apply Z.pow_le_mono_r; lia. }
    apply (Z.mul_lt_mono_pos_r (Y * K)); [exact HYK|].
    apply Z.lt_le_trans with (2 ^ dQ * Y * Dn).
    + rewrite <- Heq. apply Z.mul_lt_mono_pos_r; assumption.
    + replace (2 ^ prec * Dn * (Y * K)) with (2 ^ prec * K * (Y * Dn)) by ring.
      replace (2 ^ dQ * Y * Dn) with (2 ^ dQ * (Y * Dn)) by ring.
      apply Z.mul_le_mono_nonneg_r; [nia|exact Hp].
  - intros Hnorm.
    assert (Hte : t = dQ + E - prec)
      by (rewrite Ht in *; unfold SpecFloat.fexp in *; lia).
    assert (Hp : 2 ^ (dQ - 1) = 2 ^ (prec - 1) * K).
    { subst K. rewrite <- Z.pow_add_r by lia. f_equal. lia. }
    apply (Z.mul_le_mono_pos_r _ _ (Y * K)); [exact HYK|].
    rewrite <- Heq.
    replace (2 ^ (prec - 1) * Dn * (Y * K))
      with (2 ^ (prec - 1) * K * Y * Dn) by ring.
    rewrite <- Hp. apply Z.mul_le_mono_nonneg_r; [lia|].
    apply Hlb. lia.
Qed.

Lemma rounded_mono (D N1 N2 t1 t2 : Z) :
  0 < D -> 0 <= N1 -> N1 <= N2 ->
  emin <= t1 <= 0 -> emin <= t2 <= 0 ->
  N1 * 2 ^ (- t1) < 2 ^ prec * D ->
  N2 * 2 ^ (- t2) < 2 ^ prec * D ->
  (emin < t1 -> 2 ^ (prec - 1) * D <= N1 * 2 ^ (- t1)) ->
  (emin < t2 -> 2 ^ (prec - 1) * D <= N2 * 2 ^ (- t2)) ->
  rneq (N1 * 2 ^ (- t1)) D * 2 ^ (t1 - emin)
  <= rneq (N2 * 2 ^ (- t2)) D * 2 ^ (t2 - emin).
Proof.
  intros HD Hnn HN [L1 U1] [L2 U2] B1 B2 N1' N2'.
  pose proof (pow2_pos (- t1) ltac:(lia)) as P1.
  pose proof (pow2_pos (- t2) ltac:(lia)) as P2.
  pose proof (pow2_pos (prec - 1) ltac:(lia)) as Pp.
  pose proof (pow2_pos (t1 - emin) ltac:(lia)) as Q1.
  pose proof (pow2_pos (t2 - emin) ltac:(lia)) as Q2.
  assert (Hpp : 2 ^ prec = 2 * 2 ^ (prec - 1)).
  { replace prec with (1 + (prec - 1)) at 1 by lia.
    rewrite Z.pow_add_r by lia. reflexivity. }
  assert (Hshift : forall a b, a < b -> b <= 0 ->
            2 * 2 ^ (- b) <= 2 ^ (- a)).
  { intros a b Hab Hb. replace (- a) with (1 + (b - a - 1) + - b) by lia.
    rewrite !Z.pow_add_r by lia.
    pose proof (pow2_pos (b - a - 1) ltac:(lia)).
    pose proof (pow2_pos (- b) ltac:(lia)). nia. }
  destruct (Z.lt_trichotomy t1 t2) as [Hlt|[Heq|Hgt]].
  - (* the second result is in a higher binade *)
    specialize (N2' ltac:(lia)).
    assert (M1 : rneq (N1 * 2 ^ (- t1)) D <= 2 ^ prec)
      by (apply rneq_le_int; lia).
    assert (M2 : 2 ^ (prec - 1) <= rneq (N2 * 2 ^ (- t2)) D)
      by (apply rneq_ge_int; lia).
    assert (Hq : 2 * 2 ^ (t1 - emin) <= 2 ^ (t2 - emin)).
    { replace (t2 - emin) with (1 + (t2 - t1 - 1) + (t1 - emin)) by lia.
      rewrite !Z.pow_add_r by lia.
      pose proof (pow2_pos (t2 - t1 - 1) ltac:(lia)). nia. }
    apply Z.le_trans with (2 ^ prec * 2 ^ (t1 - emin)); [nia|].
    apply Z.le_trans with (2 ^ (prec - 1) * 2 ^ (t2 - emin)); [|nia].
    rewrite Hpp. nia.
  - subst t2. apply Z.mul_le_mono_nonneg_r; [lia|].
    apply rneq_mono; [assumption|]. nia.
  - exfalso. specialize (N1' ltac:(lia)).
    pose proof (Hshift t2 t1 Hgt U1) as Hs.
    assert (2 ^ prec * D <= N2 * 2 ^ (- t2)); [|lia].
    apply Z.le_trans with (N1 * (2 * 2 ^ (- t1))); [rewrite Hpp; nia|].
    apply Z.le_trans with (N1 * 2 ^ (- t2)); [nia|nia].
Qed.

Hypothesis emin_neg : emin < 0.
Hypothesis prec_le_emax : prec <= emax.

(** *** The quotient of two positive floats, the first one not above the
    second *)

Lemma SFdiv_rounds (ma md : positive) (ea ed : Z) :
  emin <= ea -> emin <= ed ->
  Zpos ma * 2 ^ (ea - emin) <= Zpos md * 2 ^ (ed - emin) ->
  exists t,
    emin <= t <= 0 /\
    Zpos ma * 2 ^ (ea - emin) * 2 ^ (- t)
    < 2 ^ prec * (Zpos md * 2 ^ (ed - emin)) /\
    (emin < t ->
     2 ^ (prec - 1) * (Zpos md * 2 ^ (ed - emin))
     <= Zpos ma * 2 ^ (ea - emin) * 2 ^ (- t)) /\
    ((rneq (Zpos ma * 2 ^ (ea - emin) * 2 ^ (- t))
        (Zpos md * 2 ^ (ed - emin)) = 0 /\
      SFdiv prec emax (S754_finite false ma ea) (S754_finite false md ed)
      = S754_zero false) \/
     exists (m2 : positive) (e2 : Z),
       t <= e2 /\ e2 <= 0 /\
       Zpos m2 * 2 ^ (e2 - t)
       = rneq (Zpos ma * 2 ^ (ea - emin) * 2 ^ (- t))
           (Zpos md * 2 ^ (ed - emin)) /\
       fexp (Zpos (digits2_pos m2) + e2) = e2 /\
       Zpos m2 <= 2 ^ (- e2) /\
       SFdiv prec emax (S754_finite false ma ea) (S754_finite false md ed)
       = S754_finite false m2 e2).
Proof.
  intros Ea Ed Hle.
  unfold SFdiv, SFdiv_core_binary. cbn [Zdigits2 xorb].
  set (da := Zpos (digits2_pos ma)). set (dd := Zpos (digits2_pos md)).
  set (nu := da + ea - (dd + ed)).
  set (e' := Z.min (fexp nu) (ea - ed)).
  set (s := ea - ed - e').
  assert (Hs : 0 <= s) by (subst s e'; lia).
  pose proof (digits2_pos_bounds ma) as [La Ua]. fold da in La, Ua.
  pose proof (digits2_pos_bounds md) as [Ld Ud]. fold dd in Ld, Ud.
  assert (Hda : 0 < da) by (subst da; lia).
  assert (Hdd : 0 < dd) by (subst dd; lia).
  pose proof (pow2_pos (ea - emin) ltac:(lia)) as Pa.
  pose proof (pow2_pos (ed - emin) ltac:(lia)) as Pd.
  set (A := Zpos ma * 2 ^ (ea - emin)) in *.
  set (Dv := Zpos md * 2 ^ (ed - emin)) in *.
  assert (HA : 0 < A) by (subst A; nia).
  assert (HDv : 0 < Dv) by (subst Dv; nia).
  assert (Hnu : nu <= 0).
  { assert (2 ^ (da - 1 + (ea - emin)) < 2 ^ (dd + (ed - emin))).
    { rewrite !Z.pow_add_r by lia. subst A Dv. nia. }
    apply Z.pow_lt_mono_r_iff in H; subst nu; lia. }
  assert (He' : e' <= -1).
  { pose proof (fexp_mono prec emax nu 0 Hnu).
    pose proof (fexp_nonpos prec emax prec_pos emin_neg 0 ltac:(lia)).
    subst e'. lia. }
  set (M' := match s with
             | 0 => Zpos ma
             | Zpos _ => Z.shiftl (Zpos ma) s
             | Zneg _ => 0
             end).
  assert (HM' : M' = Zpos ma * 2 ^ s).
  { assert (G : forall z, 0 <= z ->
                 match z with
                 | 0 => Zpos ma
                 | Zpos _ => Z.shiftl (Zpos ma) z
                 | Zneg _ => 0
                 end = Zpos ma * 2 ^ z).
    { intros [|p|p] Hz; try lia. apply Z.shiftl_mul_pow2. lia. }
    exact (G s Hs). }
  pose proof (pow2_pos s Hs) as Ps.
  pose proof (pow2_pos (- e') ltac:(lia)) as Pe.
  rewrite div_eucl_div_mod. set (Q := M' / Zpos md).
  set (R := M' mod Zpos md).
  assert (HQ0 : 0 <= Q) by (apply Z.div_pos; lia).
  assert (HR : 0 <= R < Zpos md) by (apply Z.mod_pos_bound; lia).
  assert (HQR : Q * Zpos md + R = M').
  { pose proof (Z.div_mod M' (Zpos md) ltac:(lia)). subst Q R. lia. }
  (* the numerator at the scale of the quotient *)
  assert (HX : M' * 2 ^ (ed - emin) = A * 2 ^ (- e')).
  { rewrite HM'. subst A.
    assert (X : 2 ^ s * 2 ^ (ed - emin) = 2 ^ (ea - emin) * 2 ^ (- e')).
    { rewrite <- !Z.pow_add_r by lia. f_equal. subst s. lia. }
    rewrite <- !Z.mul_assoc. f_equal. exact X. }
  assert (HT : M' <= Zpos md * 2 ^ (- e')).
  { apply (Z.mul_le_mono_pos_r _ _ (2 ^ (ed - emin))); [lia|].
    rewrite HX.
    replace (Zpos md * 2 ^ (- e') * 2 ^ (ed - emin)) with (Dv * 2 ^ (- e'))
      by (subst Dv; ring).
    apply Z.mul_le_mono_nonneg_r; lia. }
  assert (HQ : Q <= 2 ^ (- e')).
  { subst Q. apply Z.div_le_upper_bound; lia. }
  assert (Hpre : e' <= fexp (Zdigits2 Q + e')).
  { destruct (Z.le_gt_cases e' emin) as [Hc|Hc].
    - pose proof (fexp_ge_emin prec emax (Zdigits2 Q + e')). lia.
    - assert (Hfn : fexp nu = nu - prec)
        by (subst e'; unfold SpecFloat.fexp in *; lia).
      assert (Hsl : dd - da + prec <= s) by (subst s e' nu; lia).
      assert (HQl : 2 ^ (da + s - dd - 1) <= Q).
      { apply Z.div_le_lower_bound; [lia|]. rewrite HM'.
        apply Z.le_trans with (2 ^ dd * 2 ^ (da + s - dd - 1)).
        - pose proof (pow2_pos (da + s - dd - 1) ltac:(lia)).
          apply Z.mul_le_mono_nonneg_r; lia.
        - rewrite <- Z.pow_add_r by lia.
          replace (dd + (da + s - dd - 1)) with (da - 1 + s) by lia.
          rewrite Z.pow_add_r by lia.
          apply Z.mul_le_mono_nonneg_r; lia. }
      assert (HQp : 0 < Q).
      { pose proof (pow2_pos (da + s - dd - 1) ltac:(lia)). lia. }
      pose proof (Zdigits2_ge Q (da + s - dd) HQl HQp) as Hdg.
      pose proof (fexp_mono prec emax nu (Zdigits2 Q + e')
                    ltac:(subst nu s; lia)).
      subst e'. lia. }
  pose proof (binary_round_aux_quot false Q e' (Zpos md) R HQ0 Hpre
                ltac:(lia) HR) as Hres.
  cbv zeta in Hres. rewrite HQR in Hres.
  set (t := fexp (Zdigits2 Q + e')) in *.
  pose proof (Zdigits2_nonneg Q) as HdQ.
  assert (Ht0 : t <= 0).
  { assert (Hd1 : Zdigits2 Q <= - e' + 1).
    { apply Zdigits2_le; [lia|]. split; [lia|].
      rewrite Z.pow_add_r, Z.pow_1_r by lia. lia. }
    pose proof (fexp_mono prec emax (Zdigits2 Q + e') 1 ltac:(lia)).
    subst t. unfold SpecFloat.fexp in *. unfold SpecFloat.emin in *. lia. }
  assert (Htm : emin <= t) by (subst t; apply fexp_ge_emin).
  pose proof (pow2_pos (t - e') ltac:(lia)) as Pk.
  pose proof (pow2_pos (- t) ltac:(lia)) as Pt.
  (* the rounded mantissa, in terms of the two values *)
  assert (Hcross : M' * Dv = A * 2 ^ (- t) * (Zpos md * 2 ^ (t - e'))).
  { subst Dv.
    replace (M' * (Zpos md * 2 ^ (ed - emin)))
      with (M' * 2 ^ (ed - emin) * Zpos md) by ring.
    rewrite HX.
    assert (X : 2 ^ (- e') = 2 ^ (- t) * 2 ^ (t - e')).
    { rewrite <- Z.pow_add_r by lia. f_equal. lia. }
    rewrite X. ring. }
  assert (Hm1 : rneq M' (Zpos md * 2 ^ (t - e')) = rneq (A * 2 ^ (- t)) Dv).
  { apply rneq_ratio; [apply Z.mul_pos_pos; lia|assumption|exact Hcross]. }
  rewrite Hm1 in Hres.
  assert (Hub : M' < 2 ^ Zdigits2 Q * Zpos md).
  { assert (Q + 1 <= 2 ^ Zdigits2 Q).
    { destruct (Z.eq_dec Q 0) as [->|]; [cbn; lia|].
      destruct (Zdigits2_bounds Q ltac:(lia)) as (_ & _ & Hu). lia. }
    rewrite <- HQR. apply Z.lt_le_trans with ((Q + 1) * Zpos md); [lia|].
    apply Z.mul_le_mono_nonneg_r; lia. }
  assert (Hlb : 1 <= Zdigits2 Q -> 2 ^ (Zdigits2 Q - 1) * Zpos md <= M').
  { intros Hd. assert (0 < Q).
    { destruct (Z.eq_dec Q 0) as [E|]; [|lia]. rewrite E in Hd. cbn in Hd. lia. }
    destruct (Zdigits2_bounds Q ltac:(lia)) as (_ & Hl & _).
    rewrite <- HQR. apply Z.le_trans with (Q * Zpos md); [|lia].
    apply Z.mul_le_mono_nonneg_r; lia. }
  destruct (binade_bounds M' (Zpos md) (Zdigits2 Q) e' (A * 2 ^ (- t)) Dv t
              ltac:(lia) HDv HdQ eq_refl Hpre Hub Hlb Hcross) as [HB HL].
  exists t. split; [lia|]. split; [exact HB|]. split; [exact HL|].
  destruct Hres as [[Hz Hr]|(Hp & m2 & e2 & Hle2 & Hval & Hcan & Hr)].
  - left. split; assumption.
  - right.
    assert (Hm1le : rneq (A * 2 ^ (- t)) Dv <= 2 ^ (- t)).
    { apply rneq_le_int; [assumption|].
      rewrite (Z.mul_comm (2 ^ (- t))).
      apply Z.mul_le_mono_nonneg_r; lia. }
    pose proof (pow2_pos (e2 - t) ltac:(lia)) as P2.
    assert (He2 : e2 <= 0).
    { destruct (Z.le_gt_cases e2 0); [assumption|].
      assert (2 ^ (1 - t) <= 2 ^ (e2 - t)) by (apply Z.pow_le_mono_r; lia).
      replace (1 - t) with (1 + - t) in H0 by lia.
      rewrite Z.pow_add_r, Z.pow_1_r in H0 by lia.
      assert (2 ^ (e2 - t) <= Zpos m2 * 2 ^ (e2 - t)).
      { rewrite <- (Z.mul_1_l (2 ^ (e2 - t))) at 1.
        apply Z.mul_le_mono_nonneg_r; lia. }
      lia. }
    exists m2, e2. rewrite Hr.
    replace (e2 <=? emax - prec) with true by (symmetry; apply Z.leb_le; lia).
    repeat split; try assumption.
    assert (X : 2 ^ (- t) = 2 ^ (- e2) * 2 ^ (e2 - t)).
    { rewrite <- Z.pow_add_r by lia. f_equal. lia. }
    apply (Z.mul_le_mono_pos_r _ _ (2 ^ (e2 - t))); [lia|].
    rewrite <- X, Hval. exact Hm1le.
Qed.

(** *** The product of a float of at most 1 and a constant *)

Lemma SFmul_rounds (mq mc : positive) (eq ec w : Z) :
  emin <= eq -> eq <= 0 -> Zpos mq <= 2 ^ (- eq) ->
  ec <= 0 -> 2 ^ (prec - 1) <= Zpos mc -> Zpos mc < 2 ^ w * 2 ^ (- ec) ->
  0 <= w <= prec -> w <= emax - prec ->
  exists t,
    emin <= t <= 0 /\
    Zpos mq * 2 ^ (eq - emin) * Zpos mc * 2 ^ (- t)
    < 2 ^ prec * 2 ^ (- emin - ec) /\
    (emin < t ->
     2 ^ (prec - 1) * 2 ^ (- emin - ec)
     <= Zpos mq * 2 ^ (eq - emin) * Zpos mc * 2 ^ (- t)) /\
    scaled prec emax
      (SFmul prec emax (S754_finite false mq eq) (S754_finite false mc ec))
    = rneq (Zpos mq * 2 ^ (eq - emin) * Zpos mc * 2 ^ (- t))
        (2 ^ (- emin - ec)) * 2 ^ (t - emin) /\
    (SFmul prec emax (S754_finite false mq eq) (S754_finite false mc ec)
     = S754_zero false \/
     exists (mp : positive) (ep : Z),
       SFmul prec emax (S754_finite false mq eq) (S754_finite false mc ec)
       = S754_finite false mp ep /\ emin <= ep).
Proof.
  intros Hqm Heq Hmq Hec Hnorm HC Hw Hov.
  cbn [SFmul xorb]. rewrite Pos2Z.inj_mul.
  set (M := Zpos mq * Zpos mc). set (E := eq + ec).
  assert (HM0 : 0 < M) by (subst M; lia).
  pose proof (pow2_pos (- eq) ltac:(lia)) as Pq.
  pose proof (pow2_pos (- ec) ltac:(lia)) as Pc.
  pose proof (pow2_pos (- E) ltac:(subst E; lia)) as PE.
  pose proof (pow2_pos w ltac:(lia)) as Pw.
  pose proof (pow2_pos (eq - emin) ltac:(lia)) as Pqe.
  pose proof (pow2_pos (- emin - ec) ltac:(lia)) as Pn.
  assert (HME : M < 2 ^ w * 2 ^ (- E)).
  { subst M E. replace (- (eq + ec)) with (- eq + - ec) by lia.
    rewrite Z.pow_add_r by lia. nia. }
  assert (Hdl : prec <= Zdigits2 M).
  { apply Zdigits2_ge; [subst M; nia|assumption]. }
  assert (Hdu : Zdigits2 M <= w - E).
  { apply Zdigits2_le; [subst E; lia|]. split; [lia|].
    replace (w - E) with (w + - E) by lia.
    rewrite Z.pow_add_r by (subst E; lia). lia. }
  assert (Hpre : E <= fexp (Zdigits2 M + E)) by (unfold SpecFloat.fexp; lia).
  pose proof (binary_round_aux_quot false M E 1 0 ltac:(lia) Hpre
                ltac:(lia) ltac:(lia)) as Hres.
  cbv zeta in Hres. change (new_location 1 0) with loc_Exact in Hres.
  rewrite Z.mul_1_r, Z.add_0_r, Z.mul_1_l in Hres.
  set (t := fexp (Zdigits2 M + E)) in *.
  assert (Ht : t <= 0).
  { subst t. unfold SpecFloat.fexp. unfold SpecFloat.emin in *. lia. }
  assert (Htm : emin <= t) by (subst t; apply fexp_ge_emin).
  pose proof (pow2_pos (- t) ltac:(lia)) as Pt.
  pose proof (pow2_pos (t - E) ltac:(lia)) as Pk.
  pose proof (pow2_pos (t - emin) ltac:(lia)) as Pte.
  set (N := Zpos mq * 2 ^ (eq - emin) * Zpos mc).
  set (Dn := 2 ^ (- emin - ec)) in *.
  assert (Hcross : M * Dn = N * 2 ^ (- t) * (1 * 2 ^ (t - E))).
  { subst M N Dn.
    assert (X : 2 ^ (eq - emin) * (2 ^ (- t) * 2 ^ (t - E))
                = 2 ^ (- emin - ec)).
    { rewrite <- !Z.pow_add_r by lia. f_equal. subst E. lia. }
    rewrite <- X. ring. }
  assert (Hm1 : rneq M (2 ^ (t - E)) = rneq (N * 2 ^ (- t)) Dn).
  { apply rneq_ratio; [lia|lia|]. rewrite Hcross. ring. }
  rewrite Hm1 in Hres.
  pose proof (Zdigits2_nonneg M) as HdM.
  assert (Hub : M < 2 ^ Zdigits2 M * 1).
  { destruct (Zdigits2_bounds M ltac:(lia)) as (_ & _ & Hu). lia. }
  assert (Hlb : 1 <= Zdigits2 M -> 2 ^ (Zdigits2 M - 1) * 1 <= M).
  { intros _. destruct (Zdigits2_bounds M ltac:(lia)) as (_ & Hl & _). lia. }
  destruct (binade_bounds M 1 (Zdigits2 M) E (N * 2 ^ (- t)) Dn t
              ltac:(lia) ltac:(lia) HdM eq_refl Hpre Hub Hlb Hcross)
    as [HB HL].
  exists t. split; [lia|]. split; [exact HB|]. split; [exact HL|].
  destruct Hres as [[Hz Hr]|(Hp & m2 & e2 & Hle2 & Hval & Hcan & Hr)].
  - rewrite Hr, Hz. split; [reflexivity|]. now left.
  - assert (Hm1le : rneq (N * 2 ^ (- t)) Dn <= 2 ^ w * 2 ^ (- t)).
    { rewrite <- Hm1. apply rneq_le_int; [lia|].
      rewrite <- Z.mul_assoc, <- Z.pow_add_r by lia.
      replace (- t + (t - E)) with (- E) by lia. lia. }
    pose proof (pow2_pos (e2 - t) ltac:(lia)) as P2.
    assert (He2 : e2 <= w).
    { assert (H : 2 ^ (e2 - t) <= 2 ^ (w - t)).
      { replace (w - t) with (w + - t) by lia.
        rewrite (Z.pow_add_r 2 w) by lia.
        apply Z.le_trans with (Zpos m2 * 2 ^ (e2 - t)); [|lia].
        rewrite <- (Z.mul_1_l (2 ^ (e2 - t))) at 1.
        apply Z.mul_le_mono_nonneg_r; lia. }
      apply Z.pow_le_mono_r_iff in H; lia. }
    rewrite Hr.
    replace (e2 <=? emax - prec) with true by (symmetry; apply Z.leb_le; lia).
    split.
    + cbn [scaled cond_Zopp]. rewrite <- Hval.
      rewrite <- Z.mul_assoc, <- Z.pow_add_r by lia.
      do 2 f_equal. lia.
    + right. exists m2, e2. split; [reflexivity|lia].
Qed.

(** *** Both operations keep the order of their first argument *)

Lemma SFdiv_mono (ma1 ma2 md : positive) (ea1 ea2 ed : Z) :
  emin <= ea1 -> emin <= ea2 -> emin <= ed ->
  Zpos ma1 * 2 ^ (ea1 - emin) <= Zpos ma2 * 2 ^ (ea2 - emin) ->
  Zpos ma2 * 2 ^ (ea2 - emin) <= Zpos md * 2 ^ (ed - emin) ->
  scaled prec emax
    (SFdiv prec emax (S754_finite false ma1 ea1) (S754_finite false md ed))
  <= scaled prec emax
       (SFdiv prec emax (S754_finite false ma2 ea2) (S754_finite false md ed)).
Proof.
  intros E1 E2 Ed H12 H2d.
  pose proof (pow2_pos (ea1 - emin) ltac:(lia)) as P1.
  pose proof (pow2_pos (ed - emin) ltac:(lia)) as Pd.
  assert (Hsc : forall ma ea, emin <= ea ->
            Zpos ma * 2 ^ (ea - emin) <= Zpos md * 2 ^ (ed - emin) ->
            exists t, emin <= t <= 0 /\
              Zpos ma * 2 ^ (ea - emin) * 2 ^ (- t)
              < 2 ^ prec * (Zpos md * 2 ^ (ed - emin)) /\
              (emin < t ->
               2 ^ (prec - 1) * (Zpos md * 2 ^ (ed - emin))
               <= Zpos ma * 2 ^ (ea - emin) * 2 ^ (- t)) /\
              scaled prec emax
                (SFdiv prec emax (S754_finite false ma ea)
                   (S754_finite false md ed))
              = rneq (Zpos ma * 2 ^ (ea - emin) * 2 ^ (- t))
                  (Zpos md * 2 ^ (ed - emin)) * 2 ^ (t - emin)).
  { intros ma ea Ea Hle.
    destruct (SFdiv_rounds ma md ea ed Ea Ed Hle)
      as (t & Ht & HB & HL & [[Hz ->]|(m2 & e2 & Hte & He0 & Hv & _ & _ & ->)]);
      exists t; repeat split; try assumption; try lia.
    - rewrite Hz. reflexivity.
    - cbn [scaled cond_Zopp]. rewrite <- Hv.
      rewrite <- Z.mul_assoc, <- Z.pow_add_r by lia.
      do 2 f_equal. lia. }
  destruct (Hsc ma1 ea1 E1 ltac:(lia)) as (t1 & Ht1 & HB1 & HL1 & ->).
  destruct (Hsc ma2 ea2 E2 H2d) as (t2 & Ht2 & HB2 & HL2 & ->).
  apply rounded_mono; try assumption; try lia;
    first [apply Z.mul_pos_pos; lia|apply Z.mul_nonneg_nonneg; lia].
Qed.

Lemma SFmul_mono (mq1 mq2 mc : positive) (eq1 eq2 ec w : Z) :
  emin <= eq1 -> eq1 <= 0 -> Zpos mq1 <= 2 ^ (- eq1) ->
  emin <= eq2 -> eq2 <= 0 -> Zpos mq2 <= 2 ^ (- eq2) ->
  ec <= 0 -> 2 ^ (prec - 1) <= Zpos mc -> Zpos mc < 2 ^ w * 2 ^ (- ec) ->
  0 <= w <= prec -> w <= emax - prec ->
  Zpos mq1 * 2 ^ (eq1 - emin) <= Zpos mq2 * 2 ^ (eq2 - emin) ->
  scaled prec emax
    (SFmul prec emax (S754_finite false mq1 eq1) (S754_finite false mc ec))
  <= scaled prec emax
       (SFmul prec emax (S754_finite false mq2 eq2) (S754_finite false mc ec)).
Proof.
  intros A1 B1 C1 A2 B2 C2 Hec Hn HC Hw Hov H12.
  destruct (SFmul_rounds mq1 mc eq1 ec w A1 B1 C1 Hec Hn HC Hw Hov)
    as (t1 & Ht1 & HB1 & HL1 & -> & _).
  destruct (SFmul_rounds mq2 mc eq2 ec w A2 B2 C2 Hec Hn HC Hw Hov)
    as (t2 & Ht2 & HB2 & HL2 & -> & _).
  pose proof (pow2_pos (eq1 - emin) ltac:(lia)) as P1.
  pose proof (pow2_pos (- emin - ec) ltac:(lia)) as Pn.
  apply rounded_mono; try assumption; try lia.
  apply Z.mul_le_mono_nonneg_r; lia.
Qed.

End Quotient.

(** ** The three operations of the rescaling together *)

Lemma SF2Q_scaled (p em : Z) (x : spec_float) :
  nonneg_float p em x ->
  exists q, SF2Q x = Some q /\
            (q == inject_Z (scaled p em x) * 2 ^ emin p em)%Q.
Proof.
  intros [[s ->]|(m & e & -> & He)].
  - exists 0%Q. split; [reflexivity|]. cbn [scaled]. ring.
  - eexists. split; [reflexivity|]. cbn [scaled cond_Zopp].
    rewrite inject_Z_mult, Zpower_Qpower by lia.
    replace e with (e - emin p em + emin p em) at 1 by lia.
    rewrite Qpower_2_split. change (inject_Z 2) with 2%Q. ring.
Qed.

Lemma scaled_nonneg (p em : Z) (x : spec_float) :
  nonneg_float p em x -> 0 <= scaled p em x.
Proof.
  intros [[s ->]|(m & e & -> & He)]; cbn [scaled cond_Zopp]; [lia|].
  pose proof (pow2_pos (e - emin p em) ltac:(lia)). nia.
Qed.

(** The two last operations of the rescaling, on a numerator that does not
    exceed the range. *)
Lemma scale_shape k (ma md : positive) (ea ed : Z) :
  emin (prec k) (emax k) <= ea -> emin (prec k) (emax k) <= ed ->
  Zpos ma * 2 ^ (ea - emin (prec k) (emax k))
  <= Zpos md * 2 ^ (ed - emin (prec k) (emax k)) ->
  nonneg_float (prec k) (emax k)
    (fmul k (fdiv k (S754_finite false ma ea) (S754_finite false md ed))
       (of_Z k 65535)).
Proof.
  intros Ea Ed Hle.
  destruct (of_Z_65535_shape k)
    as (mc & ec & Hc & Hec & Hmc & Hnorm & H16 & Hov).
  rewrite Hc. unfold fdiv, fmul.
  destruct (SFdiv_rounds (prec k) (emax k) (kind_prec_pos k) (kind_emin_neg k)
              (kind_prec_le_emax k) ma md ea ed Ea Ed Hle)
    as (t & Ht & _ & _ & [[_ ->]|(mq & eq & Hte & He0 & _ & _ & Hmq & ->)]).
  - left. now exists false.
  - destruct (SFmul_rounds (prec k) (emax k) (kind_prec_pos k)
                (kind_emin_neg k) mq mc eq ec 16
                ltac:(lia) He0 Hmq Hec Hnorm
                ltac:(rewrite Hmc; pose proof (pow2_pos (- ec) ltac:(lia));
                      change (2 ^ 16) with 65536; lia)
                ltac:(lia) Hov)
      as (t' & _ & _ & _ & _ & [->|(mp & ep & -> & Hep)]).
    + left. now exists false.
    + right. now exists mp, ep.
Qed.

Lemma scale_mono k (ma1 ma2 md : positive) (ea1 ea2 ed : Z) :
  emin (prec k) (emax k) <= ea1 -> emin (prec k) (emax k) <= ea2 ->
  emin (prec k) (emax k) <= ed ->
  Zpos ma1 * 2 ^ (ea1 - emin (prec k) (emax k))
  <= Zpos ma2 * 2 ^ (ea2 - emin (prec k) (emax k)) ->
  Zpos ma2 * 2 ^ (ea2 - emin (prec k) (emax k))
  <= Zpos md * 2 ^ (ed - emin (prec k) (emax k)) ->
  scaled (prec k) (emax k)
    (fmul k (fdiv k (S754_finite false ma1 ea1) (S754_finite false md ed))
       (of_Z k 65535))
  <= scaled (prec k) (emax k)
       (fmul k (fdiv k (S754_finite false ma2 ea2) (S754_finite false md ed))
          (of_Z k 65535)).
Proof.
  intros E1 E2 Ed H12 H2d.
  pose proof (scaled_nonneg _ _ _ (scale_shape k ma2 md ea2 ed E2 Ed H2d))
    as Hpos.
  pose proof (SFdiv_mono (prec k) (emax k) (kind_prec_pos k) (kind_emin_neg k)
                (kind_prec_le_emax k) ma1 ma2 md ea1 ea2 ed E1 E2 Ed H12 H2d)
    as Hq.
  destruct (of_Z_65535_shape k)
    as (mc & ec & Hc & Hec & Hmc & Hnorm & H16 & Hov).
  rewrite Hc in *. unfold fdiv, fmul in *.
  destruct (SFdiv_rounds (prec k) (emax k) (kind_prec_pos k) (kind_emin_neg k)
              (kind_prec_le_emax k) ma1 md ea1 ed E1 Ed ltac:(lia))
    as (t1 & Ht1 & _ & _ & [[_ R1]|(mq1 & eq1 & Hte1 & He1 & _ & _ & Hmq1 & R1)]);
    rewrite R1 in *.
  - exact Hpos.
  - destruct (SFdiv_rounds (prec k) (emax k) (kind_prec_pos k)
                (kind_emin_neg k) (kind_prec_le_emax k) ma2 md ea2 ed E2 Ed H2d)
      as (t2 & Ht2 & _ & _ &
          [[_ R2]|(mq2 & eq2 & Hte2 & He2 & _ & _ & Hmq2 & R2)]);
      rewrite R2 in *.
    + exfalso. cbn [scaled cond_Zopp] in Hq.
      pose proof (pow2_pos (eq1 - emin (prec k) (emax k)) ltac:(lia)). nia.
    + cbn [scaled cond_Zopp] in Hq.
      apply (SFmul_mono (prec k) (emax k) (kind_prec_pos k) (kind_emin_neg k)
               mq1 mq2 mc eq1 eq2 ec 16);
        try assumption; lia.
Qed.

(** The numerator and the range of the rescaling of a sample above the
    minimum. *)
Lemma rescale_operands k mn mx v :
  sample k mn -> sample k mx -> sample k v ->
  value k mn < value k v -> value k v <= value k mx ->
  is_finite (fsub k mx mn) = true ->
  exists (ma md : positive) (ea ed : Z),
    fsub k v mn = S754_finite false ma ea /\
    fsub k mx mn = S754_finite false md ed /\
    emin (prec k) (emax k) <= ea /\ emin (prec k) (emax k) <= ed /\
    Zpos ma * 2 ^ (ea - emin (prec k) (emax k))
    = rnd (prec k) (value k v - value k mn) /\
    Zpos md * 2 ^ (ed - emin (prec k) (emax k))
    = rnd (prec k) (value k mx - value k mn).
Proof.
  intros [Vn Fn] [Vx Fx] [Vv Fv] Hlo Hhi Hfin.
  pose proof (kind_prec_pos k) as Pp.
  unfold value in *.
  destruct (SFsub_spec (prec k) (emax k) Pp mx mn Vx Vn Fx Fn) as [_ Hd].
  destruct (Hd ltac:(lia)) as (md & ed & Ed & Hdv & Cd & Hdr). clear Hd.
  fold (fsub k mx mn) in Hdr.
  assert (Bd : ed <= emax k - prec k).
  { destruct (Z.leb_spec ed (emax k - prec k)); [assumption|].
    rewrite Hdr in Hfin. discriminate. }
  apply Z.leb_le in Bd as Bd'. rewrite Bd' in Hdr. clear Bd'.
  destruct (SFsub_spec (prec k) (emax k) Pp v mn Vv Vn Fv Fn) as [_ Ha].
  fold (fsub k v mn) in Ha.
  destruct (Ha ltac:(lia)) as (ma & ea & Ea & Hav & Ca & Har). clear Ha.
  assert (Hle : Zpos ma * 2 ^ (ea - emin (prec k) (emax k))
                <= Zpos md * 2 ^ (ed - emin (prec k) (emax k))).
  { rewrite Hav, Hdv. apply rnd_mono; [assumption|lia|lia]. }
  assert (Hea : ea <= ed).
  { destruct (Z.le_gt_cases ea ed); [assumption|].
    pose proof (scaled_lt_exp (prec k) (emax k) Pp md ma ed ea Cd Ca ltac:(lia)).
    lia. }
  replace (ea <=? emax k - prec k) with true in Har
    by (symmetry; apply Z.leb_le; lia).
  exists ma, md, ea, ed. repeat split; assumption.
Qed.

Lemma rescale_nonneg_float k mn mx v :
  sample k mn -> sample k mx -> sample k v ->
  value k mn <= value k v <= value k mx ->
  value k mn < value k mx ->
  is_finite (fsub k mx mn) = true ->
  nonneg_float (prec k) (emax k) (rescale k mn mx v).
Proof.
  intros Sn Sx Sv [Hlo Hhi] Hlt Hfin.
  destruct (Z.eq_dec (value k v - value k mn) 0) as [Hz|Hnz].
  - destruct Sn as [Vn Fn], Sv as [Vv Fv].
    destruct (SFsub_spec (prec k) (emax k) (kind_prec_pos k) v mn Vv Vn Fv Fn)
      as [Ha0 _].
    destruct (Ha0 Hz) as [s Hs]. fold (fsub k v mn) in Hs.
    destruct (rescale_operands k mn mx mx (conj Vn Fn) Sx Sx Hlt ltac:(lia) Hfin)
      as (_ & md & _ & ed & _ & Hd & _).
    destruct (of_Z_65535_shape k) as (mc & ec & Hc & _).
    unfold rescale. rewrite Hs, Hd, Hc. left. now eexists.
  - destruct (rescale_operands k mn mx v Sn Sx Sv ltac:(lia) Hhi Hfin)
      as (ma & md & ea & ed & Ha & Hd & Ea & Ed & Hav & Hdv).
    unfold rescale. rewrite Ha, Hd. apply scale_shape; try assumption.
    rewrite Hav, Hdv. apply rnd_mono; [apply kind_prec_pos|lia|lia].
Qed.

Lemma rescale_mono k mn mx v w :
  sample k mn -> sample k mx -> sample k v -> sample k w ->
  value k mn <= value k v -> value k v <= value k w ->
  value k w <= value k mx -> value k mn < value k mx ->
  is_finite (fsub k mx mn) = true ->
  scaled (prec k) (emax k) (rescale k mn mx v)
  <= scaled (prec k) (emax k) (rescale k mn mx w).
Proof.
  intros Sn Sx Sv Sw Hlo Hvw Hhi Hlt Hfin.
  pose proof (scaled_nonneg _ _ _
                (rescale_nonneg_float k mn mx w Sn Sx Sw ltac:(lia) Hlt Hfin))
    as Hpos.
  destruct (Z.eq_dec (value k v - value k mn) 0) as [Hz|Hnz].
  - destruct Sn as [Vn Fn], Sv as [Vv Fv].
    destruct (SFsub_spec (prec k) (emax k) (kind_prec_pos k) v mn Vv Vn Fv Fn)
      as [Ha0 _].
    destruct (Ha0 Hz) as [s Hs]. fold (fsub k v mn) in Hs.
    destruct (rescale_operands k mn mx mx (conj Vn Fn) Sx Sx Hlt ltac:(lia) Hfin)
      as (_ & md & _ & ed & _ & Hd & _).
    destruct (of_Z_65535_shape k) as (mc & ec & Hc & _).
    unfold rescale at 1. rewrite Hs, Hd, Hc. exact Hpos.
  - destruct (rescale_operands k mn mx v Sn Sx Sv ltac:(lia) ltac:(lia) Hfin)
      as (ma & md & ea & ed & Ha & Hd & Ea & Ed & Hav & Hdv).
    destruct (rescale_operands k mn mx w Sn Sx Sw ltac:(lia) Hhi Hfin)
      as (mb & md' & eb & ed' & Hb & Hd' & Eb & _ & Hbv & _).
    rewrite Hd in Hd'. injection Hd' as <- <-.
    unfold rescale. rewrite Ha, Hb, Hd.
    apply scale_mono; try assumption.
    + rewrite Hav, Hbv. apply rnd_mono; [apply kind_prec_pos|lia|lia].
    + rewrite Hbv, Hdv. apply rnd_mono; [apply kind_prec_pos|lia|lia].
Qed.

(** X20: the normalizer keeps the order of the samples.  For every float
    array whose maximum exceeds its minimum and whose range max - min is
    finite, a sample that is not above another one is never written as a
    larger integer than that one: the two roundings of the rescaling and
    the final truncation are all monotone. *)
Theorem normalize_preserves_order
  (k : float_kind) (sh : list nat) (xs : list spec_float)
  (mn mx : spec_float)
  (Hvalid : Forall (valid_sample k) xs)
  (Hmin : amin xs = Ok mn) (Hmax : amax xs = Ok mx)
  (Hlt : SFltb mn mx = true)
  (Hfin : is_finite (fsub k mx mn) = true) :
  exists out,
    normalize {| shape := sh; buf := FloatBuf k xs |}
    = Ok {| shape := sh; buf := IntBuf UInt16 out |} /\
    forall i j v w,
      nth_error xs i = Some v -> nth_error xs j = Some w ->
      SFleb v w = true ->
      exists a b, nth_error out i = Some a /\ nth_error out j = Some b /\
                  a <= b.
Proof.
  exists (map (fun v => astype_uint16 (rescale k mn mx v)) xs).
  split; [now apply normalize_rescales|].
  intros i j v w Hi Hj Hvw.
  destruct (samples_between k xs mn mx Hvalid Hmin Hmax Hfin)
    as (Sn & Sx & Hb).
  destruct (Hb v (nth_error_In _ _ Hi)) as [Sv Hv].
  destruct (Hb w (nth_error_In _ _ Hj)) as [Sw Hw].
  assert (Hlt' : value k mn < value k mx).
  { destruct Sn as [Vn Fn], Sx as [Vx Fx].
    rewrite (SFltb_value k mn mx Vn Vx Fn Fx) in Hlt. now apply Z.ltb_lt. }
  assert (Hvw' : value k v <= value k w).
  { destruct Sv as [Vv Fv], Sw as [Vw Fw].
    rewrite (SFleb_value k v w Vv Vw Fv Fw) in Hvw. now apply Z.leb_le. }
  exists (astype_uint16 (rescale k mn mx v)),
         (astype_uint16 (rescale k mn mx w)).
  rewrite (map_nth_error _ _ _ Hi), (map_nth_error _ _ _ Hj).
  split; [reflexivity|]. split; [reflexivity|].
  destruct (rescale_value k mn mx v Sn Sx Sv Hv Hlt' Hfin)
    as (qv & Hqv & Hv0 & Hv1).
  destruct (rescale_value k mn mx w Sn Sx Sw Hw Hlt' Hfin)
    as (qw & Hqw & Hw0 & Hw1).
  rewrite (astype_uint16_floor _ qv Hqv Hv0)
    by (eapply Qle_lt_trans; [exact Hv1|reflexivity]).
  rewrite (astype_uint16_floor _ qw Hqw Hw0)
    by (eapply Qle_lt_trans; [exact Hw1|reflexivity]).
  apply Qfloor_resp_le.
  destruct (SF2Q_scaled _ _ _
              (rescale_nonneg_float k mn mx v Sn Sx Sv Hv Hlt' Hfin))
    as (qv' & Hqv' & Ev).
  destruct (SF2Q_scaled _ _ _
              (rescale_nonneg_float k mn mx w Sn Sx Sw Hw Hlt' Hfin))
    as (qw' & Hqw' & Ew).
  rewrite Hqv in Hqv'. injection Hqv' as <-.
  rewrite Hqw in Hqw'. injection Hqw' as <-.
  rewrite Ev, Ew. apply Qmult_le_compat_r.
  - rewrite <- Zle_Qle.
    apply rescale_mono; try assumption; lia.
  - apply Qlt_le_weak, Qpower_0_lt. reflexivity.
Qed.

Lemma normalize_preserves_order_witness :
  exists out,
    normalize (arr64 [f64 0 0; f64 1 0; f64 4 0])
    = Ok {| shape := [3%nat]; buf := IntBuf UInt16 out |} /\
    exists a b, nth_error out 1 = Some a /\ nth_error out 2 = Some b /\
                a <= b.
Proof.
  destruct (normalize_preserves_order Float64 [3%nat]
              [f64 0 0; f64 1 0; f64 4 0] (f64 0 0) (f64 4 0))
    as (out & Hn & Hs).
  - repeat constructor.
  - reflexivity.
  - reflexivity.
  - reflexivity.
  - reflexivity.
  - exists out. split; [exact Hn|].
    exact (Hs 1%nat 2%nat (f64 1 0) (f64 4 0) eq_refl eq_refl eq_refl).
Defined.
